(** * ENS indexing squid: the batch reconciliation of [src/processor.ts]

    A shallow embedding of the processor's batch handler: the three log
    handlers, the contract singleton [getOrCreateContractEntity] and
    [saveENSData], with the store, the clock and the metadata service as
    explicit state and oracles. *)

From stdpp Require Import gmap strings list fin_maps pretty.
From Stdlib Require Import Ascii ZArith Lia.

Set Warnings "-clear-no-such-hyp".

Local Open Scope string_scope.
Local Open Scope list_scope.
Local Open Scope Z_scope.

(** ** JavaScript strings and truthiness *)

Module Js.

(** [String.prototype.toLowerCase] on the ASCII range: addresses and
    hashes are hexadecimal strings, other characters are left alone. *)
Definition lower_ascii (c : ascii) : ascii :=
  let n := nat_of_ascii c in
  if ((65 <=? n) && (n <=? 90))%nat then ascii_of_nat (n + 32) else c.

Fixpoint toLowerCase (s : string) : string :=
  match s with
  | EmptyString => EmptyString
  | String c s' => String (lower_ascii c) (toLowerCase s')
  end.

(** Truthiness of a [string | undefined]: [undefined] and the empty
    string are falsy. *)
Definition truthy (o : option string) : bool :=
  match o with
  | Some (String _ _) => true
  | _ => false
  end.

(** [o || ""] *)
Definition or_empty (o : option string) : string :=
  match o with
  | Some s => s
  | None => ""
  end.

(** Truthiness of a [number | undefined] holding an integer: [undefined]
    and [0] are falsy. *)
Definition truthy_number (o : option Z) : bool :=
  match o with
  | Some x => negb (x =? 0)
  | None => false
  end.

End Js.

(** ** Entities ([src/model]) *)

(** An [Owner] has no field but its id.  Objects are compared by
    reference in the source, so an in-memory [Owner] carries the number of
    the allocation that made it: two references are the same object
    exactly when [owner_obj] agrees. *)
Record Owner := mkOwner {
  owner_obj : nat;
  owner_id : string
}.

Record GoodContract := mkGoodContract {
  gc_id : string;
  gc_name : string;
  gc_symbol : string;
  gc_totalSupply : Z;
  gc_numberField : Z
}.

Record BadContract := mkBadContract {
  bc_id : string;
  bc_name : string;
  bc_symbol : string;
  bc_totalSupply : Z;
  bc_customField : option string
}.

(** A [Token] object.  Every property but [id] may be [undefined]
    ([None]); [transfers] is the inverse side of [Transfer.token] and is
    never read or written by the processor. *)
Record Token := mkToken {
  token_id : string;
  token_owner : option Owner;
  token_name : option string;
  token_imageURI : option string;
  token_uri : option string;
  token_expires : option Z;
  token_contract : option GoodContract
}.

(** [Token] objects are mutated in place and shared between the [tokens]
    map and the transfers that point to them: they live in a heap, and a
    reference is a position in it. *)
Abbreviation tref := nat (only parsing).

Record Transfer := mkTransfer {
  transfer_id : string;
  transfer_block : Z;
  transfer_timestamp : Z;
  transfer_transactionHash : string;
  transfer_from : Owner;
  transfer_to : Owner;
  transfer_token : tref
}.

(** ** The store

    The [Store] of [@subsquid/typeorm-store] is a library outside the
    sources; it is modelled at the boundary the spec gives it (sections
    4.5 and 6): a point lookup and an insert for the contract singleton, a
    bulk lookup by a set of identities and a bulk upsert keyed by identity
    for the three entity kinds.  Two things the store does on its own are
    left out of the operations below and said where they matter: it does
    not check the foreign keys of the schema (within [saveENSData] every
    row is saved after the rows it refers to), and its writes become
    durable with the batch, not one by one (see [transact]). *)

(** Modelled from the spec: a stored row, kept under its primary key, with
    a relation kept as the identity it refers to. *)
Record TokenRow := mkTokenRow {
  tr_owner : option string;
  tr_name : option string;
  tr_imageURI : option string;
  tr_uri : option string;
  tr_expires : option Z;
  tr_contract : option string
}.

Record TransferRow := mkTransferRow {
  xr_block : Z;
  xr_timestamp : Z;
  xr_transactionHash : string;
  xr_from : string;
  xr_to : string;
  xr_token : option string
}.

Inductive EntityKind := KGoodContract | KBadContract | KOwner | KToken | KTransfer.

(** The calls made on the store, in the order they are issued. *)
Inductive StoreCall :=
| CallGet (k : EntityKind) (id : string)
| CallInsert (k : EntityKind) (id : string)
| CallFindBy (k : EntityKind) (ids : list string)
| CallSave (k : EntityKind) (ids : list string).

(** Modelled from the spec: the tables of the store, one row per primary
    identity, and the log of the calls made on it. *)
Record Store := mkStore {
  goodContracts : gmap string GoodContract;
  badContracts : gmap string BadContract;
  ownerRows : gset string;
  tokenRows : gmap string TokenRow;
  transferRows : gmap string TransferRow;
  calls : list StoreCall
}.

(** What is persisted: the tables, without the call log. *)
Definition tables (s : Store) :
  gmap string GoodContract * gmap string BadContract * gset string
  * gmap string TokenRow * gmap string TransferRow :=
  (goodContracts s, badContracts s, ownerRows s, tokenRows s, transferRows s).

(** ** The process: module state, store, outgoing requests *)

Record Process := mkProcess {
  contractEntity : option GoodContract;  (* [let contractEntity] *)
  store : Store;
  requests : list string                 (* URLs given to [axios.get] *)
}.

Inductive Outcome (A : Type) :=
| Returned (a : A)
| Thrown (msg : string).
Arguments Returned {A} a.
Arguments Thrown {A} msg.

(** A computation reads and writes the process and returns or throws.
    The state after a throw is the one the running batch sees: the rows
    written before the throw are in it until the batch ends, and
    [transact] takes them back. *)
Definition M (A : Type) : Type := Process → Outcome A * Process.

Definition ret {A} (a : A) : M A := λ p, (Returned a, p).

Definition bind {A B} (c : M A) (k : A → M B) : M B :=
  λ p, match c p with
       | (Returned a, p') => k a p'
       | (Thrown msg, p') => (Thrown msg, p')
       end.

Notation "'let!' x ':=' c 'in' k" := (bind c (λ x, k))
  (at level 10, x name, c at level 100, k at level 200).
Notation "'let!' ' x ':=' c 'in' k" := (bind c (λ x, k))
  (at level 10, x strict pattern, c at level 100, k at level 200).
Notation "c ';;;' k" := (bind c (λ _, k))
  (at level 100, k at level 200, right associativity).

Definition get_contractEntity : M (option GoodContract) :=
  λ p, (Returned (contractEntity p), p).

Definition set_contractEntity (c : option GoodContract) : M unit :=
  λ p, (Returned tt, mkProcess c (store p) (requests p)).

Definition with_store {A} (f : Store → Outcome A * Store) : M A :=
  λ p, let '(r, s) := f (store p) in
       (r, mkProcess (contractEntity p) s (requests p)).

Definition log_call (c : StoreCall) (s : Store) : Store :=
  mkStore (goodContracts s) (badContracts s) (ownerRows s) (tokenRows s)
          (transferRows s) (calls s ++ [c]).

(** Modelled from the spec: [store.get(GoodContract, id)], the point
    lookup. *)
Definition store_get_GoodContract (id : string) : M (option GoodContract) :=
  with_store (λ s, (Returned (goodContracts s !! id), log_call (CallGet KGoodContract id) s)).

(** Modelled from the spec: [store.insert(e)]; a row with the same primary
    key makes it throw. *)
Definition store_insert_GoodContract (e : GoodContract) : M unit :=
  with_store (λ s,
    let s' := log_call (CallInsert KGoodContract (gc_id e)) s in
    match goodContracts s !! gc_id e with
    | Some _ => (Thrown "duplicate key", s')
    | None =>
        (Returned tt,
         mkStore (<[gc_id e := e]> (goodContracts s')) (badContracts s')
                 (ownerRows s') (tokenRows s') (transferRows s') (calls s'))
    end).

Definition store_insert_BadContract (e : BadContract) : M unit :=
  with_store (λ s,
    let s' := log_call (CallInsert KBadContract (bc_id e)) s in
    match badContracts s !! bc_id e with
    | Some _ => (Thrown "duplicate key", s')
    | None =>
        (Returned tt,
         mkStore (goodContracts s') (<[bc_id e := e]> (badContracts s'))
                 (ownerRows s') (tokenRows s') (transferRows s') (calls s'))
    end).

(** ** The contract singleton *)

Definition contractAddress : string :=
  Js.toLowerCase "0x57f1887a8BF19b14fC0dF6Fd9B2acc9Af147eA85".

Definition newGoodContract : GoodContract :=
  {| gc_id := contractAddress;
     gc_name := "Ethereum Name Service";
     gc_symbol := "ENS";
     gc_totalSupply := 0;
     gc_numberField := 0 |}.

Definition newBadContract : BadContract :=
  {| bc_id := contractAddress;
     bc_name := "Ethereum Name Service";
     bc_symbol := "ENS";
     bc_totalSupply := 0;
     bc_customField := Some "asd" |}.

Definition getOrCreateContractEntity : M GoodContract :=
  let! cached := get_contractEntity in
  match cached with
  | Some c => ret c
  | None =>
      let! found := store_get_GoodContract contractAddress in
      set_contractEntity found;;;
      match found with
      | Some c => ret c
      | None =>
          set_contractEntity (Some newGoodContract);;;
          store_insert_GoodContract newGoodContract;;;
          store_insert_BadContract newBadContract;;;
          ret newGoodContract
      end
  end.

(** ** Normalised events and the three log handlers *)

Record ENSData := mkENSData {
  e_id : string;
  e_from : option string;
  e_to : option string;
  e_tokenId : Z;
  e_timestamp : Z;
  e_expires : option Z;
  e_block : Z;
  e_transactionHash : string
}.

(** What a handler reads from its context: the transaction hash, the
    log's address and index, the block's timestamp and height. *)
Record LogContext := mkLogContext {
  transaction_hash : string;
  evmLog_address : string;
  evmLog_index : Z;
  block_timestamp : Z;
  block_height : Z
}.

(** The template string [`${transaction.hash}-${evmLog.address}-${id}-${evmLog.index}`]. *)
Definition syntheticId (ctx : LogContext) (id : Z) : string :=
  transaction_hash ctx +:+ "-" +:+ evmLog_address ctx +:+ "-" +:+ pretty id
    +:+ "-" +:+ pretty (evmLog_index ctx).

(** The handlers take the values [events.*.decode(evmLog)] returned ([id]
    and [tokenId] after [toBigInt()], [expires] after [toNumber()]); the
    ABI module is generated code outside the sources. *)
Definition handleNameRegistered (ctx : LogContext) (id : Z) (owner : string)
    (expires : Z) : ENSData :=
  {| e_id := syntheticId ctx id;
     e_from := None;
     e_to := Some owner;
     e_tokenId := id;
     e_timestamp := block_timestamp ctx;
     e_expires := Some expires;
     e_block := block_height ctx;
     e_transactionHash := transaction_hash ctx |}.

Definition handleNameRenewed (ctx : LogContext) (id : Z) (expires : Z) : ENSData :=
  {| e_id := syntheticId ctx id;
     e_from := None;
     e_to := None;
     e_tokenId := id;
     e_timestamp := block_timestamp ctx;
     e_expires := Some expires;
     e_block := block_height ctx;
     e_transactionHash := transaction_hash ctx |}.

Definition handleTransfer (ctx : LogContext) (from to : string) (tokenId : Z) : ENSData :=
  {| e_id := syntheticId ctx tokenId;
     e_from := Some from;
     e_to := Some to;
     e_tokenId := tokenId;
     e_timestamp := block_timestamp ctx;
     e_expires := None;
     e_block := block_height ctx;
     e_transactionHash := transaction_hash ctx |}.

(** A log of the contract as the batch handler receives it, decoded: one
    of the three topics of the filter. *)
Inductive DecodedLog :=
| NameRegisteredLog (id : Z) (owner : string) (expires : Z)
| NameRenewedLog (id : Z) (expires : Z)
| TransferLog (from to : string) (tokenId : Z).

(** Lines 40-69: each log goes to the handler of its topic and the
    results are pushed to [ensDataArr] in order. *)
Definition handleLog (item : LogContext * DecodedLog) : ENSData :=
  match item.2 with
  | NameRegisteredLog id owner expires => handleNameRegistered item.1 id owner expires
  | NameRenewedLog id expires => handleNameRenewed item.1 id expires
  | TransferLog from to tokenId => handleTransfer item.1 from to tokenId
  end.

(** ** The clock and the metadata service *)

Record MetaData := mkMetaData {
  md_image : option string;
  md_name : option string;
  md_url : option string
}.

(** [axios.get] rejects (network error, status outside 2xx) or resolves
    with a response whose [data] is an object, where a missing property
    reads [undefined], or is [null]/[undefined] ([None]), where reading a
    property throws. *)
Inductive AxiosResult :=
| AxiosThrows
| AxiosResponse (data : option MetaData).

(** What the outside world answers while one event is processed. *)
Record Ambient := mkAmbient {
  Date_now : Z;
  axios_get : string → AxiosResult
}.

(** An answer that carries the three fields the code reads, when it has
    a body to read them from. *)
Definition carriesFields (r : AxiosResult) : Prop :=
  match r with
  | AxiosResponse (Some d) =>
      is_Some (md_image d) ∧ is_Some (md_name d) ∧ is_Some (md_url d)
  | _ => True
  end.

Definition answersCarryFields (world : nat → Ambient) : Prop :=
  ∀ k url, carriesFields (axios_get (world k) url).

Definition log_request (url : string) : M unit :=
  λ p, (Returned tt, mkProcess (contractEntity p) (store p) (requests p ++ [url])).

(** ** The locals of [saveENSData] *)

Record Batch := mkBatch {
  owners : gmap string Owner;
  tokens : gmap string tref;
  transfers : list Transfer;   (* the [Set<Transfer>], in insertion order *)
  heap : list Token;           (* the [Token] objects of this batch *)
  allocated : nat              (* [Owner] objects made so far *)
}.

Definition set_owners (m : gmap string Owner) (n : nat) (b : Batch) : Batch :=
  mkBatch m (tokens b) (transfers b) (heap b) n.

Definition set_heap (h : list Token) (b : Batch) : Batch :=
  mkBatch (owners b) (tokens b) (transfers b) h (allocated b).

(** [token.f = v] on the object behind [r]. *)
Definition assign (r : tref) (f : Token → Token) (b : Batch) : Batch :=
  set_heap (alter f r (heap b)) b.
#[global] Arguments assign : simpl never.

Definition with_owner (o : option Owner) (t : Token) : Token :=
  mkToken (token_id t) o (token_name t) (token_imageURI t) (token_uri t)
          (token_expires t) (token_contract t).

Definition with_expires (x : option Z) (t : Token) : Token :=
  mkToken (token_id t) (token_owner t) (token_name t) (token_imageURI t)
          (token_uri t) x (token_contract t).

Definition with_metadata (name uri imageURI : option string) (t : Token) : Token :=
  mkToken (token_id t) (token_owner t) name imageURI uri
          (token_expires t) (token_contract t).

(** Lines 237-241 and 245-249, the same code for [from] and for [to]:
    [let o = owners.get(a || ""); if (a && o == null) { o = new Owner({id:
    a.toLowerCase()}); owners.set(o.id, o) }]. *)
Definition resolveOwner (a : option string) (b : Batch) : option Owner * Batch :=
  match owners b !! Js.or_empty a with
  | Some o => (Some o, b)
  | None =>
      if Js.truthy a then
        let o := mkOwner (allocated b) (Js.toLowerCase (Js.or_empty a)) in
        (Some o, set_owners (<[owner_id o := o]> (owners b)) (S (allocated b)) b)
      else (None, b)
  end.

(** Lines 251-259. *)
Definition resolveToken (tokenIdString : string) (b : Batch) : M (tref * Batch) :=
  match tokens b !! tokenIdString with
  | Some r => ret (r, b)
  | None =>
      let! c := getOrCreateContractEntity in
      let token := mkToken tokenIdString None None None None None (Some c) in
      let r := length (heap b) in
      ret (r, mkBatch (owners b) (<[token_id token := r]> (tokens b))
                      (transfers b) (heap b ++ [token]) (allocated b))
  end.

Definition tokenURI (tokenId : Z) : string :=
  "https://metadata.ens.domains/mainnet/" +:+ contractAddress +:+ "/" +:+ pretty tokenId.

(** What [name], [uri] and [imageURI] hold when the [finally] block runs:
    the three start as [""] and are assigned from [meta.data] unless
    [axios.get] or the first property read threw (the [catch] block only
    writes two warnings to the log, which is not modelled). *)
Definition fieldsAtFinally (r : AxiosResult)
    : option string * option string * option string :=
  match r with
  | AxiosResponse (Some d) => (md_name d, md_url d, md_image d)
  | AxiosResponse None => (Some "", Some "", Some "")
  | AxiosThrows => (Some "", Some "", Some "")
  end.

(** Lines 268-282: the request, with the [try]/[catch] around it. *)
Definition fetchMetadata (amb : Ambient) (tokenId : Z)
    : M (option string * option string * option string) :=
  log_request (tokenURI tokenId);;;
  ret (fieldsAtFinally (axios_get amb (tokenURI tokenId))).

(** How the [if (expires)] block is left: by falling through or by
    [continue]. *)
Inductive Completion :=
| Normal (b : Batch)
| Continue (b : Batch).

(** Lines 262-287. *)
Definition expiryBlock (amb : Ambient) (e : ENSData) (token : tref) (b : Batch)
    : M Completion :=
  match e_expires e with
  | Some expires =>
      if expires =? 0 then ret (Normal b)
      else
        let b := assign token (with_expires (Some expires)) b in
        if expires * 1000 <? Date_now amb then ret (Continue b)
        else
          let! '(name, uri, imageURI) := fetchMetadata amb (e_tokenId e) in
          ret (Normal (assign token (with_metadata name uri imageURI) b))
  | None => ret (Normal b)
  end.

(** Lines 289-301. *)
Definition addTransfer (e : ENSData) (fromOwner toOwner : option Owner)
    (token : tref) (b : Batch) : Batch :=
  match toOwner, fromOwner with
  | Some t, Some f =>
      let transfer :=
        mkTransfer (e_id e) (e_block e) (e_timestamp e) (e_transactionHash e) f t token in
      mkBatch (owners b) (tokens b) (transfers b ++ [transfer]) (heap b) (allocated b)
  | _, _ => b
  end.

Definition batchOf (c : Completion) : Batch :=
  match c with
  | Continue b => b
  | Normal b => b
  end.

(** After the block: [continue] skips the rest of the turn, otherwise the
    transfer is made (lines 289-301). *)
Definition finish (e : ENSData) (fromOwner toOwner : option Owner) (token : tref)
    (c : Completion) : Batch :=
  match c with
  | Continue b => b
  | Normal b => addTransfer e fromOwner toOwner token b
  end.

(** One turn of the second loop of [saveENSData] (lines 223-302). *)
Definition reconcileEvent (amb : Ambient) (e : ENSData) (b : Batch) : M Batch :=
  let '(fromOwner, b) := resolveOwner (e_from e) b in
  let '(toOwner, b) := resolveOwner (e_to e) b in
  let tokenIdString := pretty (e_tokenId e) in
  let! '(token, b) := resolveToken tokenIdString b in
  let b := assign token (with_owner toOwner) b in
  let! c := expiryBlock amb e token b in
  ret (finish e fromOwner toOwner token c).

(** The loop: [world k] is what the clock and the metadata service answer
    during the turn for the event at position [k]. *)
Fixpoint reconcile (world : nat → Ambient) (k : nat) (ensDataArr : list ENSData)
    (b : Batch) : M Batch :=
  match ensDataArr with
  | [] => ret b
  | e :: rest =>
      let! b' := reconcileEvent (world k) e b in
      reconcile world (S k) rest b'
  end.

(** ** Prefetch and persistence *)

(** The first loop (lines 198-205): the token ids and the lowercase
    addresses the batch mentions. *)
Definition addresses (e : ENSData) : list string :=
  (if Js.truthy (e_from e) then [Js.toLowerCase (Js.or_empty (e_from e))] else [])
  ++ (if Js.truthy (e_to e) then [Js.toLowerCase (Js.or_empty (e_to e))] else []).

Definition tokensIds (ensDataArr : list ENSData) : gset string :=
  list_to_set ((λ e, pretty (e_tokenId e)) <$> ensDataArr).

Definition ownersIds (ensDataArr : list ENSData) : gset string :=
  list_to_set (ensDataArr ≫= addresses).

(** [new Map(entries)]: entries are set in order. *)
Definition Map_of_entries {V} (l : list (string * V)) : gmap string V :=
  foldl (λ m kv, <[kv.1 := kv.2]> m) ∅ l.
#[global] Arguments Map_of_entries : simpl never.

Definition tokenOfRow (id : string) (row : TokenRow) : Token :=
  mkToken id None (tr_name row) (tr_imageURI row) (tr_uri row) (tr_expires row) None.

(** Modelled from the spec: [store.findBy(Token, { id: In(ids) })], the
    bulk lookup.  It is called with a [where] clause only, so the entities
    it returns carry their columns and leave the relation properties
    [owner] and [contract] [undefined]. *)
Definition store_findBy_Token (ids : gset string) : M (list Token) :=
  with_store (λ s,
    (Returned ((λ kv, tokenOfRow kv.1 kv.2)
                 <$> map_to_list (filter (λ kv, kv.1 ∈ ids) (tokenRows s))),
     log_call (CallFindBy KToken (elements ids)) s)).

(** Modelled from the spec: [store.findBy(Owner, { id: In(ids) })], one
    new object per row found. *)
Definition store_findBy_Owner (ids : gset string) : M (list Owner) :=
  with_store (λ s,
    (Returned (imap mkOwner (elements (ownerRows s ∩ ids))),
     log_call (CallFindBy KOwner (elements ids)) s)).

(** The row an upsert writes for a token.  The spec gives the upsert as
    insert if absent, overwrite if present (section 4.5); what is written
    of an entity that leaves a property [undefined] is the library's: a
    relation that is defined is written as the id of the entity it points
    to, and one that is [undefined], as every relation of an entity from
    the bulk lookup is, keeps what the row has (nothing in a new row).  A
    plain column is written as the entity has it.  The library leaves a
    plain column alone when it is [undefined] on every entity saved
    together; after the loop a plain column is [undefined] on a new token
    that no turn assigned, whose row is inserted either way, or on a
    token whose [name], [uri] or [imageURI] was read from an answer that
    lacks the field.  The properties that compare these three columns
    therefore assume answers that carry the fields
    ([answersCarryFields]). *)
Definition rowOfToken (old : option TokenRow) (t : Token) : TokenRow :=
  {| tr_owner := match token_owner t with
                 | Some o => Some (owner_id o)
                 | None => old ≫= tr_owner
                 end;
     tr_name := token_name t;
     tr_imageURI := token_imageURI t;
     tr_uri := token_uri t;
     tr_expires := token_expires t;
     tr_contract := match token_contract t with
                    | Some c => Some (gc_id c)
                    | None => old ≫= tr_contract
                    end |}.

Definition upsertToken (tbl : gmap string TokenRow) (t : Token) : gmap string TokenRow :=
  <[token_id t := rowOfToken (tbl !! token_id t) t]> tbl.

Definition rowOfTransfer (h : list Token) (x : Transfer) : TransferRow :=
  {| xr_block := transfer_block x;
     xr_timestamp := transfer_timestamp x;
     xr_transactionHash := transfer_transactionHash x;
     xr_from := owner_id (transfer_from x);
     xr_to := owner_id (transfer_to x);
     xr_token := token_id <$> h !! transfer_token x |}.

Definition upsertTransfer (h : list Token) (tbl : gmap string TransferRow) (x : Transfer)
    : gmap string TransferRow :=
  <[transfer_id x := rowOfTransfer h x]> tbl.

(** Modelled from the spec: [store.save(entities)] for each of the three
    kinds, an upsert keyed by id, entity after entity.  A save does not
    fail here: the references of the rows it writes are not checked
    against the tables (they resolve when they did before the batch and
    the cached contract is stored, see [referencesResolve]). *)
Definition store_save_Owner (l : list Owner) : M unit :=
  with_store (λ s,
    (Returned tt,
     mkStore (goodContracts s) (badContracts s)
             (ownerRows s ∪ list_to_set (owner_id <$> l))
             (tokenRows s) (transferRows s)
             (calls s ++ [CallSave KOwner (owner_id <$> l)]))).

Definition store_save_Token (l : list Token) : M unit :=
  with_store (λ s,
    (Returned tt,
     mkStore (goodContracts s) (badContracts s) (ownerRows s)
             (foldl upsertToken (tokenRows s) l) (transferRows s)
             (calls s ++ [CallSave KToken (token_id <$> l)]))).

Definition store_save_Transfer (h : list Token) (l : list Transfer) : M unit :=
  with_store (λ s,
    (Returned tt,
     mkStore (goodContracts s) (badContracts s) (ownerRows s) (tokenRows s)
             (foldl (upsertTransfer h) (transferRows s) l)
             (calls s ++ [CallSave KTransfer (transfer_id <$> l)]))).

(** [[...m.values()]] *)
Definition values {V} (m : gmap string V) : list V := (map_to_list m).*2.

(** The working maps as they are before the loop (lines 207-221). *)
Definition prefetch (ensDataArr : list ENSData) : M Batch :=
  let! loadedTokens := store_findBy_Token (tokensIds ensDataArr) in
  let! loadedOwners := store_findBy_Owner (ownersIds ensDataArr) in
  ret {| owners := Map_of_entries ((λ o, (owner_id o, o)) <$> loadedOwners);
         tokens := Map_of_entries (imap (λ i t, (token_id t, i)) loadedTokens);
         transfers := [];
         heap := loadedTokens;
         allocated := length loadedOwners |}.

(** Lines 304-306. *)
Definition persist (b : Batch) : M unit :=
  store_save_Owner (values (owners b));;;
  store_save_Token (omap (λ r, heap b !! r) (values (tokens b)));;;
  store_save_Transfer (heap b) (transfers b).

Definition saveENSData (world : nat → Ambient) (ensDataArr : list ENSData) : M unit :=
  let! b0 := prefetch ensDataArr in
  let! b := reconcile world 0 ensDataArr b0 in
  persist b.

(** ** What one turn does, read off the code

    The turn for an event ends at [continue] when the event carries a
    non-zero expiration that is already past; it asks the metadata service
    when it carries one that is not. *)
Definition skipsRest (amb : Ambient) (e : ENSData) : bool :=
  match e_expires e with
  | Some x => negb (x =? 0) && (x * 1000 <? Date_now amb)
  | None => false
  end.

Definition fetches (amb : Ambient) (e : ENSData) : bool :=
  match e_expires e with
  | Some x => negb (x =? 0) && negb (x * 1000 <? Date_now amb)
  | None => false
  end.

(** The token object after the [if (expires)] block, and after the whole
    turn, from what it was when the turn reached [token.owner = toOwner]. *)
Definition expiryToken (amb : Ambient) (e : ENSData) (t : Token) : Token :=
  match e_expires e with
  | Some x =>
      if x =? 0 then t
      else
        let t2 := with_expires (Some x) t in
        if x * 1000 <? Date_now amb then t2
        else
          let '(name, uri, imageURI) :=
            fieldsAtFinally (axios_get amb (tokenURI (e_tokenId e))) in
          with_metadata name uri imageURI t2
  | None => t
  end.

Definition turnToken (amb : Ambient) (e : ENSData) (toOwner : option Owner)
    (t : Token) : Token :=
  expiryToken amb e (with_owner toOwner t).

Definition turnTransfers (amb : Ambient) (e : ENSData)
    (fromOwner toOwner : option Owner) (token : tref) : list Transfer :=
  if skipsRest amb e then []
  else match toOwner, fromOwner with
       | Some t, Some f =>
           [mkTransfer (e_id e) (e_block e) (e_timestamp e) (e_transactionHash e) f t token]
       | _, _ => []
       end.

Definition turnRequests (amb : Ambient) (e : ENSData) : list string :=
  if fetches amb e then [tokenURI (e_tokenId e)] else [].

(** The token object the batch holds for a token id, and its owner field
    ([None] for no object as for [undefined]). *)
Definition tokenOf (b : Batch) (tokenId : Z) : option Token :=
  tokens b !! pretty tokenId ≫= λ r, heap b !! r.

Definition ownerField (b : Batch) (tokenId : Z) : option Owner :=
  tokenOf b tokenId ≫= token_owner.

(** ** The loop invariant *)

(** Keys of [owners] are the ids of the objects they map to, lowercase and
    not empty; [tokens] maps an id to a live object with that id;
    transfers point to live tokens. *)
Definition owners_wf (m : gmap string Owner) : Prop :=
  map_Forall (λ k o, owner_id o = k ∧ k ≠ "" ∧ Js.toLowerCase k = k) m.

Definition tokens_wf (b : Batch) : Prop :=
  map_Forall (λ k r, token_id <$> heap b !! r = Some k) (tokens b).

Definition transfers_wf (b : Batch) : Prop :=
  Forall (λ x, (transfer_token x < length (heap b))%nat) (transfers b).

Definition wf (b : Batch) : Prop :=
  owners_wf (owners b) ∧ tokens_wf b ∧ transfers_wf b.

#[global] Instance wf_dec b : Decision (wf b).
Proof. unfold wf, owners_wf, tokens_wf, transfers_wf. apply _. Defined.

(** The two contract records are inserted together: when neither the
    cache nor the store has the [GoodContract], the store has no
    [BadContract] either. *)
Definition contract_records_paired (p : Process) : Prop :=
  contractEntity p = None →
  goodContracts (store p) !! contractAddress = None →
  badContracts (store p) !! contractAddress = None.

#[global] Instance contract_records_paired_dec p : Decision (contract_records_paired p).
Proof. unfold contract_records_paired. apply _. Defined.

(** A failed enrichment: [axios.get] rejected, or the response had no
    [data] to read a property from; either way the [catch] block runs. *)
Definition enrichmentFails (r : AxiosResult) : Prop :=
  r = AxiosThrows ∨ r = AxiosResponse None.

(** The Transfer a turn makes from the two owners it resolved. *)
Definition transferOf (e : ENSData) (fromOwner toOwner : Owner) (token : tref) : Transfer :=
  mkTransfer (e_id e) (e_block e) (e_timestamp e) (e_transactionHash e)
             fromOwner toOwner token.

Definition isSave (c : StoreCall) : bool :=
  match c with
  | CallSave _ _ => true
  | _ => false
  end.

(** ** Shared owner objects

    An owner object is held when the [owners] map has it under its id; the
    owners are shared when every owner a token or a transfer points to is
    held, so that one identity is one object throughout the batch. *)
Definition held (b : Batch) (o : Owner) : Prop :=
  owners b !! owner_id o = Some o.

Definition owners_shared (b : Batch) : Prop :=
  Forall (λ t, ∀ o, token_owner t = Some o → held b o) (heap b)
  ∧ Forall (λ x, held b (transfer_from x) ∧ held b (transfer_to x)) (transfers b).

(** An event whose addresses are spelled in lowercase. *)
Definition lowercaseEvent (e : ENSData) : Prop :=
  Js.toLowerCase (Js.or_empty (e_from e)) = Js.or_empty (e_from e)
  ∧ Js.toLowerCase (Js.or_empty (e_to e)) = Js.or_empty (e_to e).

(** ** What a batch persists, at the level of rows

    The rows [persist] writes depend on the working state only through
    the ids of the owners, the columns and relation ids of each token
    object, and the rows of the transfers.  The definitions below give
    that view of a batch state and what the loop does to it; the
    properties section proves that the code refines them. *)

(** The columns and relation ids of a token object. *)
Definition projToken (t : Token) : TokenRow := rowOfToken None t.

(** A written row from the view of the object and the row it replaces. *)
Definition mergeRow (v : TokenRow) (old : option TokenRow) : TokenRow :=
  {| tr_owner := match tr_owner v with Some a => Some a | None => old ≫= tr_owner end;
     tr_name := tr_name v;
     tr_imageURI := tr_imageURI v;
     tr_uri := tr_uri v;
     tr_expires := tr_expires v;
     tr_contract := match tr_contract v with Some c => Some c | None => old ≫= tr_contract end |}.

(** The view of a token object just loaded from a row. *)
Definition stripRow (row : TokenRow) : TokenRow :=
  mkTokenRow None (tr_name row) (tr_imageURI row) (tr_uri row) (tr_expires row) None.

(** The assignments a run of turns makes to one token: for each property
    the last value assigned, if any was. *)
Record Patch := mkPatch {
  pt_owner : option (option string);
  pt_name : option (option string);
  pt_imageURI : option (option string);
  pt_uri : option (option string);
  pt_expires : option (option Z)
}.

Definition applyPatch (P : Patch) (row : TokenRow) : TokenRow :=
  {| tr_owner := default (tr_owner row) (pt_owner P);
     tr_name := default (tr_name row) (pt_name P);
     tr_imageURI := default (tr_imageURI row) (pt_imageURI P);
     tr_uri := default (tr_uri row) (pt_uri P);
     tr_expires := default (tr_expires row) (pt_expires P);
     tr_contract := tr_contract row |}.

Definition later {A} (first second : option A) : option A :=
  match second with
  | Some v => Some v
  | None => first
  end.

Definition thenPatch (P Q : Patch) : Patch :=
  {| pt_owner := later (pt_owner P) (pt_owner Q);
     pt_name := later (pt_name P) (pt_name Q);
     pt_imageURI := later (pt_imageURI P) (pt_imageURI Q);
     pt_uri := later (pt_uri P) (pt_uri Q);
     pt_expires := later (pt_expires P) (pt_expires Q) |}.

Definition noPatch : Patch := mkPatch None None None None None.

Definition ownerIdOf (a : option string) : option string :=
  if Js.truthy a then Some (Js.toLowerCase (Js.or_empty a)) else None.

(** The assignments of one turn. *)
Definition eventPatch (amb : Ambient) (e : ENSData) : Patch :=
  let '(name, uri, imageURI) := fieldsAtFinally (axios_get amb (tokenURI (e_tokenId e))) in
  {| pt_owner := Some (ownerIdOf (e_to e));
     pt_name := if fetches amb e then Some name else None;
     pt_imageURI := if fetches amb e then Some imageURI else None;
     pt_uri := if fetches amb e then Some uri else None;
     pt_expires := if Js.truthy_number (e_expires e) then Some (e_expires e) else None |}.

(** The assignments of the whole loop to the token with id [s]. *)
Fixpoint batchPatch (world : nat → Ambient) (k : nat) (ensDataArr : list ENSData)
    (s : string) : Patch :=
  match ensDataArr with
  | [] => noPatch
  | e :: rest =>
      if decide (pretty (e_tokenId e) = s)
      then thenPatch (eventPatch (world k) e) (batchPatch world (S k) rest s)
      else batchPatch world (S k) rest s
  end.

(** The transfer rows of one turn and of the whole loop. *)
Definition eventTransferRows (amb : Ambient) (e : ENSData) : list (string * TransferRow) :=
  if skipsRest amb e then []
  else if Js.truthy (e_from e) && Js.truthy (e_to e)
       then [(e_id e,
              mkTransferRow (e_block e) (e_timestamp e) (e_transactionHash e)
                (Js.toLowerCase (Js.or_empty (e_from e)))
                (Js.toLowerCase (Js.or_empty (e_to e)))
                (Some (pretty (e_tokenId e))))]
       else [].

Fixpoint batchTransferRows (world : nat → Ambient) (k : nat) (ensDataArr : list ENSData)
    : list (string * TransferRow) :=
  match ensDataArr with
  | [] => []
  | e :: rest => eventTransferRows (world k) e ++ batchTransferRows world (S k) rest
  end.

Definition tokenView (b : Batch) : gmap string TokenRow :=
  omap (λ r, projToken <$> heap b !! r) (tokens b).

Definition transferView (b : Batch) : list (string * TransferRow) :=
  (λ x, (transfer_id x, rowOfTransfer (heap b) x)) <$> transfers b.

Definition upsertAll {V} (tbl : gmap string V) (l : list (string * V)) : gmap string V :=
  foldl (λ m kv, <[kv.1 := kv.2]> m) tbl l.

(** The store was only read or inserted into between two states: the
    calls logged in between contain no [save]. *)
Definition noSaveBetween (p p' : Process) : Prop :=
  ∃ l, calls (store p') = calls (store p) ++ l ∧ Forall (λ c, isSave c = false) l.

(** ** Worked batches *)

Definition emptyStore : Store := mkStore ∅ ∅ ∅ ∅ ∅ [].
Definition freshProcess : Process := mkProcess None emptyStore [].

Definition ctx1 : LogContext := mkLogContext "0xh1" "0xens" 0 100 7.
Definition ctx2 : LogContext := mkLogContext "0xh2" "0xens" 1 100 7.

(** A clock at 5000 ms and a service that answers every request. *)
Definition calmWorld : nat → Ambient :=
  λ _, mkAmbient 5000 (λ _, AxiosResponse (Some (mkMetaData (Some "img") (Some "a.eth") (Some "url")))).

(** The prefetch and the loop of [saveENSData], without the writes. *)
Definition run (world : nat → Ambient) (l : list ENSData) (p : Process) :=
  (let! b0 := prefetch l in reconcile world 0 l b0) p.

(** A registration of token 1 to a checksummed address, then its renewal,
    and the working state between the two. *)
Definition registration1 : ENSData := handleNameRegistered ctx1 1 "0xAb" 10.
Definition renewal1 : ENSData := handleNameRenewed ctx2 1 10.

Definition afterRegistration1 : Batch :=
  {| owners := {[ "0xab" := mkOwner 0 "0xab" ]};
     tokens := {[ "1" := 0%nat ]};
     transfers := [];
     heap := [mkToken "1" (Some (mkOwner 0 "0xab")) (Some "a.eth") (Some "img")
                (Some "url") (Some 10) (Some newGoodContract)];
     allocated := 1 |}.

Definition emptyBatch : Batch := mkBatch ∅ ∅ [] [] 0.

(** An event with both addresses and an expiration already past. *)
Definition expiredTransfer : ENSData :=
  mkENSData "0xh1-0xens-1-0" (Some "0xaa") (Some "0xbb") 1 100 (Some 1) 7 "0xh1".

(** A clock at 5000 ms and a service that is down. *)
Definition stormyWorld : nat → Ambient :=
  λ _, mkAmbient 5000 (λ _, AxiosThrows).

(** A transfer carrying an expiration of 0 (the event type allows it). *)
Definition zeroExpiryTransfer : ENSData :=
  mkENSData "0xh1-0xens-1-0" (Some "0xaa") (Some "0xbb") 1 100 (Some 0) 7 "0xh1".

(** Two transfers to the same checksummed receiver. *)
Definition checksummedBatch : list ENSData :=
  [handleTransfer ctx1 "0xaa" "0xBb" 1; handleTransfer ctx2 "0xaa" "0xBb" 2].

(** A registration followed by a transfer of the same token. *)
Definition transfer1 : ENSData := handleTransfer ctx2 "0xAb" "0xCd" 1.

(** The batch used to exercise the whole handler: a registration of
    token 1, then its transfer. *)
Definition sampleBatch : list ENSData := [registration1; transfer1].

(** ** Further definitions for the properties of the whole processor *)

(** A string without the separator of the synthetic ids (hashes and
    addresses are hexadecimal). *)
Fixpoint dashFree (s : string) : Prop :=
  match s with
  | EmptyString => True
  | String c s' => c ≠ "-"%char ∧ dashFree s'
  end.


(** The requests the loop makes, turn after turn. *)
Fixpoint batchRequests (world : nat → Ambient) (k : nat) (ensDataArr : list ENSData)
    : list string :=
  match ensDataArr with
  | [] => []
  | e :: rest => turnRequests (world k) e ++ batchRequests world (S k) rest
  end.

(** The calls one resolution of the contract can make on the store. *)
Definition resolverCalls (l : list StoreCall) : Prop :=
  l = []
  ∨ l = [CallGet KGoodContract contractAddress]
  ∨ l = [CallGet KGoodContract contractAddress;
         CallInsert KGoodContract contractAddress;
         CallInsert KBadContract contractAddress].


(** A registration of token 2 in a third log, and the process after the
    sample batch has been saved into an empty store. *)
Definition ctx3 : LogContext := mkLogContext "0xh3" "0xens" 2 100 7.

Definition registration2 : ENSData := handleNameRegistered ctx3 2 "0xEf" 10.

Definition afterSampleBatch : Process :=
  (saveENSData calmWorld sampleBatch freshProcess).2.


(** A property of a value that may be missing. *)
Definition whenSome {A} (P : A → Prop) (o : option A) : Prop :=
  match o with
  | Some a => P a
  | None => True
  end.

#[global] Instance whenSome_dec {A} (P : A → Prop) `{∀ a, Decision (P a)} o :
  Decision (whenSome P o).
Proof. destruct o; simpl; apply _. Defined.

(** The references of the process resolve: a [GoodContract] is stored
    under its id and the cached one is stored; the owner and the contract
    of every token row, the two owners and the token of every transfer
    row are rows of the store. *)
Definition contractsResolve (p : Process) : Prop :=
  map_Forall (λ k c, gc_id c = k) (goodContracts (store p))
  ∧ whenSome (λ c, gc_id c ∈ dom (goodContracts (store p))) (contractEntity p).

Definition tokenRowResolves (s : Store) (row : TokenRow) : Prop :=
  whenSome (λ o, o ∈ ownerRows s) (tr_owner row)
  ∧ whenSome (λ c, c ∈ dom (goodContracts s)) (tr_contract row).

Definition transferRowResolves (s : Store) (x : TransferRow) : Prop :=
  xr_from x ∈ ownerRows s ∧ xr_to x ∈ ownerRows s
  ∧ whenSome (λ t, t ∈ dom (tokenRows s)) (xr_token x).

Definition referencesResolve (p : Process) : Prop :=
  contractsResolve p
  ∧ map_Forall (λ _ row, tokenRowResolves (store p) row) (tokenRows (store p))
  ∧ map_Forall (λ _ x, transferRowResolves (store p) x) (transferRows (store p)).

#[global] Instance referencesResolve_dec p : Decision (referencesResolve p).
Proof.
  unfold referencesResolve, contractsResolve, tokenRowResolves, transferRowResolves.
  apply _.
Defined.


(** ** The batch callback (lines 38-78) *)

Definition throw {A} (msg : string) : M A := λ p, (Thrown msg, p).

(** What the callback reads of a batch context: the blocks, each with its
    header and its items; an item has an address, a kind, the hash of its
    transaction and, for a log, the log. *)
Record Header := mkHeader {
  header_timestamp : Z;
  header_height : Z
}.

Record EvmLog := mkEvmLog {
  log_address : string;
  log_index : Z;
  log_topics : list string;
  log_data : string
}.

Record Item := mkItem {
  item_address : string;
  item_kind : string;
  item_evmLog : EvmLog;
  item_transaction_hash : string
}.

Record BlockData := mkBlockData {
  block_header : Header;
  block_items : list Item
}.

(** The ABI module [./abi/ens] is generated code outside the sources; the
    callback and the handlers use the topic and the decoder of three
    events.  A decoder gives the values a handler destructures, [id] and
    [tokenId] after [toBigInt()] and [expires] after [toNumber()], or
    throws ([None]). *)
Record Events := mkEvents {
  NameRegistered_topic : string;
  NameRegistered_decode : EvmLog → option (Z * string * Z);
  NameRenewed_topic : string;
  NameRenewed_decode : EvmLog → option (Z * Z);
  Transfer_topic : string;
  Transfer_decode : EvmLog → option (string * string * Z)
}.

(** [{...ctx, block: c.header, ...i}] as the handlers read it. *)
Definition logContextOf (c : BlockData) (i : Item) : LogContext :=
  {| transaction_hash := item_transaction_hash i;
     evmLog_address := log_address (item_evmLog i);
     evmLog_index := log_index (item_evmLog i);
     block_timestamp := header_timestamp (block_header c);
     block_height := header_height (block_header c) |}.

(** Lines 41-68, the body of the inner loop: the events it pushes for one
    item, or [None] when a decoder throws.  The three tests on the first
    topic are independent [if]s. *)
Definition itemEvents (events : Events) (c : BlockData) (i : Item)
    : option (list ENSData) :=
  if bool_decide (item_address i = contractAddress)
     && bool_decide (item_kind i = "evmLog")
  then
    let ctx := logContextOf c i in
    let evmLog := item_evmLog i in
    let topic0 := head (log_topics evmLog) in
    registered ←
      (if bool_decide (topic0 = Some (NameRegistered_topic events))
       then '(id, owner, expires) ← NameRegistered_decode events evmLog;
            Some [handleNameRegistered ctx id owner expires]
       else Some []);
    renewed ←
      (if bool_decide (topic0 = Some (NameRenewed_topic events))
       then '(id, expires) ← NameRenewed_decode events evmLog;
            Some [handleNameRenewed ctx id expires]
       else Some []);
    transferred ←
      (if bool_decide (topic0 = Some (Transfer_topic events))
       then '(from, to, tokenId) ← Transfer_decode events evmLog;
            Some [handleTransfer ctx from to tokenId]
       else Some []);
    Some (registered ++ renewed ++ transferred)
  else Some [].

(** The inner and the outer loop: [ensDataArr] after them. *)
Fixpoint blockEvents (events : Events) (c : BlockData) (items : list Item)
    : option (list ENSData) :=
  match items with
  | [] => Some []
  | i :: rest =>
      pushed ← itemEvents events c i;
      more ← blockEvents events c rest;
      Some (pushed ++ more)
  end.

Fixpoint collect (events : Events) (blocks : list BlockData) : option (list ENSData) :=
  match blocks with
  | [] => Some []
  | c :: rest =>
      pushed ← blockEvents events c (block_items c);
      more ← collect events rest;
      Some (pushed ++ more)
  end.

(** Modelled from the spec: [processor.run(new TypeormDatabase(), ...)]
    makes the writes of a batch one durable write (sections 4.2 and 7, no
    partial commit).  When the handler throws, the tables are again what
    they were when the batch started; the module variable
    [contractEntity], the requests made and the log of the calls stay. *)
Definition rollback (before after : Store) : Store :=
  mkStore (goodContracts before) (badContracts before) (ownerRows before)
          (tokenRows before) (transferRows before) (calls after).

Definition transact {A} (c : M A) : M A :=
  λ p, match c p with
       | (Returned a, p') => (Returned a, p')
       | (Thrown msg, p') =>
           (Thrown msg,
            mkProcess (contractEntity p') (rollback (store p) (store p')) (requests p'))
       end.

(** The callback: the two loops, then [saveENSData] with the header of
    the last block, which throws a [TypeError] when there is no block.
    Nothing before [saveENSData] touches the store. *)
Definition callback (events : Events) (world : nat → Ambient) (blocks : list BlockData)
    : M unit :=
  match collect events blocks with
  | None => throw "decode"
  | Some ensDataArr =>
      match last blocks with
      | None => throw "TypeError: Cannot read properties of undefined (reading 'header')"
      | Some _ => transact (saveENSData world ensDataArr)
      end
  end.

(** The logs of the batch in the order of the two loops, each with its
    block, and what identifies a log on the chain. *)
Definition logsOf (blocks : list BlockData) : list (BlockData * Item) :=
  c ← blocks; pair c <$> block_items c.

Definition logKey (ci : BlockData * Item) : string * Z :=
  (item_transaction_hash ci.2, log_index (item_evmLog ci.2)).

(** A decoded log of an item: the topic that selects a handler and what
    its decoder returns. *)
Definition decodedBy (events : Events) (i : Item) (d : DecodedLog) : Prop :=
  item_address i = contractAddress ∧ item_kind i = "evmLog"
  ∧ match d with
    | NameRegisteredLog id owner expires =>
        head (log_topics (item_evmLog i)) = Some (NameRegistered_topic events)
        ∧ NameRegistered_decode events (item_evmLog i) = Some (id, owner, expires)
    | NameRenewedLog id expires =>
        head (log_topics (item_evmLog i)) = Some (NameRenewed_topic events)
        ∧ NameRenewed_decode events (item_evmLog i) = Some (id, expires)
    | TransferLog from to tokenId =>
        head (log_topics (item_evmLog i)) = Some (Transfer_topic events)
        ∧ Transfer_decode events (item_evmLog i) = Some (from, to, tokenId)
    end.

Definition tokenIdOf (d : DecodedLog) : Z :=
  match d with
  | NameRegisteredLog id _ _ => id
  | NameRenewedLog id _ => id
  | TransferLog _ _ tokenId => tokenId
  end.

(** The three topics differ, as hashes of three signatures do. *)
Definition topicsDiffer (events : Events) : Prop :=
  NameRegistered_topic events ≠ NameRenewed_topic events
  ∧ NameRegistered_topic events ≠ Transfer_topic events
  ∧ NameRenewed_topic events ≠ Transfer_topic events.

(** A sample ABI and a batch of two blocks: a registration and a
    transfer of token 1, a log of another contract, then a renewal. *)
Definition sampleEvents : Events :=
  {| NameRegistered_topic := "0xca6a";
     NameRegistered_decode := λ _, Some (1, "0xAb", 10);
     NameRenewed_topic := "0x9b87";
     NameRenewed_decode := λ _, Some (1, 20);
     Transfer_topic := "0xddf2";
     Transfer_decode := λ _, Some ("0xAb", "0xCd", 1) |}.

Definition sampleLog (hash : string) (index : Z) (topic : string) : Item :=
  mkItem contractAddress "evmLog" (mkEvmLog contractAddress index [topic] "0x") hash.

Definition sampleBlocks : list BlockData :=
  [mkBlockData (mkHeader 100 7)
     [sampleLog "0xh1" 0 "0xca6a"; sampleLog "0xh2" 1 "0xddf2";
      mkItem "0xother" "evmLog" (mkEvmLog "0xother" 2 ["0xddf2"] "0x") "0xh2"];
   mkBlockData (mkHeader 200 8) [sampleLog "0xh3" 0 "0x9b87"]].


(** The two loops as one loop over the logs of the batch. *)
Fixpoint collectFrom (events : Events) (logs : list (BlockData * Item))
    : option (list ENSData) :=
  match logs with
  | [] => Some []
  | ci :: rest =>
      pushed ← itemEvents events ci.1 ci.2;
      more ← collectFrom events rest;
      Some (pushed ++ more)
  end.

(** The event a handler makes of a decoded log of the batch. *)
Definition eventOf (x : BlockData * Item * DecodedLog) : ENSData :=
  handleLog (logContextOf x.1.1 x.1.2, x.2).

#[global] Instance dashFree_dec s : Decision (dashFree s).
Proof. induction s; simpl; apply _. Defined.


(** ** Batches in two parts *)

(** The contract a resolution returns, from the cache and the store. *)
Definition resolvedContract (p : Process) : GoodContract :=
  match contractEntity p with
  | Some c => c
  | None => default newGoodContract (goodContracts (store p) !! contractAddress)
  end.

(** The columns of a token row other than its owner, and the assignments
    of a run of turns applied to them. *)
Definition otherColumns (row : TokenRow)
    : option string * option string * option string * option Z * option string :=
  (tr_name row, tr_imageURI row, tr_uri row, tr_expires row, tr_contract row).

Definition patchColumns (P : Patch)
    (cols : option string * option string * option string * option Z * option string)
    : option string * option string * option string * option Z * option string :=
  let '(name, imageURI, uri, expires, contract) := cols in
  (default name (pt_name P), default imageURI (pt_imageURI P), default uri (pt_uri P),
   default expires (pt_expires P), contract).

(** The columns the loop starts from for a token: those of its row, or
    those of a new token, which has its contract and nothing else. *)
Definition startColumns (c : GoodContract) (old : option TokenRow)
    : option string * option string * option string * option Z * option string :=
  match old with
  | Some row => otherColumns row
  | None => (None, None, None, None, Some (gc_id c))
  end.

(** The clock and the service as the second part of a batch meets them. *)
Definition laterWorld (world : nat → Ambient) (n : nat) : nat → Ambient :=
  λ k, world (n + k)%nat.


(** The process after the registration of token 1 alone has been saved. *)
Definition registeredProcess : Process :=
  (saveENSData calmWorld [registration1] freshProcess).2.


(** ** Addresses spelled in lowercase *)

(** An event with its two addresses in lowercase. *)
Definition lowerAddresses (e : ENSData) : ENSData :=
  {| e_id := e_id e;
     e_from := Js.toLowerCase <$> e_from e;
     e_to := Js.toLowerCase <$> e_to e;
     e_tokenId := e_tokenId e;
     e_timestamp := e_timestamp e;
     e_expires := e_expires e;
     e_block := e_block e;
     e_transactionHash := e_transactionHash e |}.


(** What a resolution of the contract reads and writes. *)
Definition contractState (p : Process)
    : option GoodContract * gmap string GoodContract * gmap string BadContract :=
  (contractEntity p, goodContracts (store p), badContracts (store p)).


(** A clock at 5000 ms and a service that answers with a body that has
    none of the three fields. *)
Definition bareWorld : nat → Ambient :=
  λ _, mkAmbient 5000 (λ _, AxiosResponse (Some (mkMetaData None None None))).

(** A payload that is read without a throw and lacks a field. *)
Definition payloadLacksField (r : AxiosResult) : Prop :=
  ∃ d, r = AxiosResponse (Some d)
       ∧ (md_image d = None ∨ md_name d = None ∨ md_url d = None).

(** A process whose store has the [BadContract] record and not the
    [GoodContract]. *)
Definition legacyProcess : Process :=
  mkProcess None (mkStore ∅ {[ contractAddress := newBadContract ]} ∅ ∅ ∅ []) [].


(** The renewal of token 1 in a third log. *)
Definition laterRenewal1 : ENSData := handleNameRenewed ctx3 1 10.

(** * Properties *)

(** ** Strings *)

Lemma lower_ascii_idemp c : Js.lower_ascii (Js.lower_ascii c) = Js.lower_ascii c.
Proof. destruct c as [[] [] [] [] [] [] [] []]; reflexivity. Qed.

Lemma toLowerCase_idemp s : Js.toLowerCase (Js.toLowerCase s) = Js.toLowerCase s.
Proof.
  induction s as [|c s IH]; simpl; [done|].
  by rewrite lower_ascii_idemp, IH.
Qed.

Lemma toLowerCase_empty s : Js.toLowerCase s = "" → s = "".
Proof. by destruct s. Qed.

Lemma truthy_Some a : Js.truthy a = true → ∃ s, a = Some s ∧ s ≠ "".
Proof. destruct a as [[|c s]|]; simpl; try done. intros _. by eexists. Qed.

Lemma falsy_or_empty a : Js.truthy a = false → Js.or_empty a = "".
Proof. by destruct a as [[|c s]|]. Qed.

(** ** The monad *)

Lemma bind_Returned {A B} (c : M A) (k : A → M B) p b p' :
  bind c k p = (Returned b, p') →
  ∃ a p1, c p = (Returned a, p1) ∧ k a p1 = (Returned b, p').
Proof.
  unfold bind. destruct (c p) as [[a|msg] p1]; [eauto | done].
Qed.

Lemma bind_step {A B} (c : M A) (k : A → M B) p a p1 :
  c p = (Returned a, p1) → bind c k p = k a p1.
Proof. unfold bind. by intros ->. Qed.

(** ** The contract singleton *)

Lemma getOrCreateContractEntity_cached c p :
  contractEntity p = Some c → getOrCreateContractEntity p = (Returned c, p).
Proof.
  intros H. unfold getOrCreateContractEntity, bind, get_contractEntity.
  by rewrite H.
Qed.

Lemma getOrCreateContractEntity_Returned p c p' :
  getOrCreateContractEntity p = (Returned c, p') →
  contractEntity p' = Some c ∧ requests p' = requests p.
Proof.
  unfold getOrCreateContractEntity, bind, get_contractEntity, ret.
  destruct (contractEntity p) as [c0|] eqn:Hc.
  { intros [= <- <-]. done. }
  unfold store_get_GoodContract, set_contractEntity,
    store_insert_GoodContract, store_insert_BadContract, with_store; simpl.
  destruct (goodContracts (store p) !! contractAddress) as [g|] eqn:Hg; simpl.
  { intros [= <- <-]. done. }
  rewrite Hg; simpl.
  destruct (badContracts (store p) !! contractAddress) as [bd|] eqn:Hb; simpl;
    [done|].
  intros [= <- <-]. done.
Qed.

Lemma getOrCreateContractEntity_total p :
  contract_records_paired p →
  ∃ c p', getOrCreateContractEntity p = (Returned c, p').
Proof.
  intros Hp.
  unfold getOrCreateContractEntity, bind, get_contractEntity, ret.
  destruct (contractEntity p) as [c0|] eqn:Hc; [eauto|].
  unfold store_get_GoodContract, set_contractEntity,
    store_insert_GoodContract, store_insert_BadContract, with_store; simpl.
  destruct (goodContracts (store p) !! contractAddress) as [g|] eqn:Hg; simpl;
    [eauto|].
  rewrite Hg; simpl. rewrite (Hp Hc Hg). simpl. eauto.
Qed.

Lemma getOrCreateContractEntity_paired p c p' :
  getOrCreateContractEntity p = (Returned c, p') → contract_records_paired p'.
Proof.
  intros H. apply getOrCreateContractEntity_Returned in H as [H _].
  intros Hn. congruence.
Qed.

(** ** Resolving owners and tokens *)

Lemma resolveOwner_frame a b o b' :
  resolveOwner a b = (o, b') →
  tokens b' = tokens b ∧ heap b' = heap b ∧ transfers b' = transfers b.
Proof.
  unfold resolveOwner.
  destruct (owners b !! Js.or_empty a); [by intros [= <- <-]|].
  destruct (Js.truthy a); by intros [= <- <-].
Qed.

Lemma resolveOwner_falsy a b :
  owners_wf (owners b) → Js.truthy a = false → resolveOwner a b = (None, b).
Proof.
  intros Hw Ha. unfold resolveOwner.
  rewrite (falsy_or_empty _ Ha), Ha.
  destruct (owners b !! "") as [o|] eqn:Ho; [|done].
  apply Hw in Ho as (_ & Hne & _). done.
Qed.

Lemma resolveOwner_truthy a b :
  owners_wf (owners b) → Js.truthy a = true →
  ∃ o b', resolveOwner a b = (Some o, b')
    ∧ owner_id o = Js.toLowerCase (Js.or_empty a)
    ∧ owners b' !! owner_id o = Some o
    ∧ (owners b !! Js.or_empty a = Some o ∧ b' = b
       ∨ owners b !! Js.or_empty a = None
         ∧ o = mkOwner (allocated b) (Js.toLowerCase (Js.or_empty a))
         ∧ b' = set_owners (<[owner_id o := o]> (owners b)) (S (allocated b)) b).
Proof.
  intros Hw Ha. unfold resolveOwner. rewrite Ha.
  destruct (owners b !! Js.or_empty a) as [o|] eqn:Ho.
  - exists o, b. pose proof (Hw _ _ Ho) as (Hid & _ & Hl).
    rewrite Hl, Hid. split_and!; auto.
  - eexists _, _. split; [done|]. simpl. rewrite lookup_insert_eq.
    split_and!; auto.
Qed.

Lemma resolveOwner_wf a b o b' :
  owners_wf (owners b) → resolveOwner a b = (o, b') → owners_wf (owners b').
Proof.
  intros Hw. unfold resolveOwner.
  destruct (owners b !! Js.or_empty a); [by intros [= <- <-]|].
  destruct (Js.truthy a) eqn:Ha; intros [= <- <-]; [|done].
  simpl. apply map_Forall_insert_2; [|done]. simpl.
  apply truthy_Some in Ha as (s & -> & Hs). simpl.
  split_and!; [done| |apply toLowerCase_idemp].
  intros H%toLowerCase_empty. done.
Qed.

Lemma resolveToken_Returned s b p r b' p' :
  resolveToken s b p = (Returned (r, b'), p') →
  owners b' = owners b ∧ transfers b' = transfers b ∧ allocated b' = allocated b
  ∧ tokens b' !! s = Some r
  ∧ (tokens b !! s = Some r ∧ b' = b ∧ p' = p
     ∨ ∃ c, tokens b !! s = None ∧ r = length (heap b)
        ∧ getOrCreateContractEntity p = (Returned c, p')
        ∧ heap b' = heap b ++ [mkToken s None None None None None (Some c)]
        ∧ tokens b' = <[s := r]> (tokens b)).
Proof.
  unfold resolveToken. destruct (tokens b !! s) as [r0|] eqn:Ht.
  - intros [= <- <- <-]. auto 10.
  - intros (c & p1 & Hc & Hr)%bind_Returned. injection Hr as <- <- <-.
    simpl. rewrite lookup_insert_eq. split_and!; try done.
    right. exists c. auto.
Qed.

Lemma resolveToken_total s b p :
  contract_records_paired p → ∃ r b' p', resolveToken s b p = (Returned (r, b'), p').
Proof.
  intros Hp. unfold resolveToken. destruct (tokens b !! s); [by eexists _, _, _|].
  destruct (getOrCreateContractEntity_total p Hp) as (c & p' & Hc).
  rewrite (bind_step _ _ _ _ _ Hc). by eexists _, _, _.
Qed.

(** ** Assignments to token fields *)

Lemma heap_assign r f b : heap (assign r f b) = alter f r (heap b).
Proof. reflexivity. Qed.

Lemma assign_lookup r f b t :
  heap b !! r = Some t → heap (assign r f b) !! r = Some (f t).
Proof. intros H. by rewrite heap_assign, list_lookup_alter_eq, H. Qed.

Lemma assign_lookup_ne r r' f b :
  r ≠ r' → heap (assign r f b) !! r' = heap b !! r'.
Proof. intros H. by rewrite heap_assign, list_lookup_alter_ne. Qed.

Lemma assign_length r f b : length (heap (assign r f b)) = length (heap b).
Proof. rewrite heap_assign. apply length_alter. Qed.

Lemma assign_token_id r f b r' :
  (∀ t, token_id (f t) = token_id t) →
  token_id <$> heap (assign r f b) !! r' = token_id <$> heap b !! r'.
Proof.
  intros Hf. rewrite heap_assign. destruct (decide (r = r')) as [->|Hne].
  - rewrite list_lookup_alter_eq. destruct (heap b !! r'); simpl; [|done].
    by rewrite Hf.
  - by rewrite list_lookup_alter_ne.
Qed.

(** ** The [if (expires)] block *)

Lemma expiryBlock_cases amb e r b p :
  (Js.truthy_number (e_expires e) = false
   ∧ expiryBlock amb e r b p = (Returned (Normal b), p))
  ∨ (∃ x, e_expires e = Some x ∧ x ≠ 0 ∧ x * 1000 < Date_now amb
     ∧ expiryBlock amb e r b p
       = (Returned (Continue (assign r (with_expires (Some x)) b)), p))
  ∨ (∃ x name uri imageURI,
       e_expires e = Some x ∧ x ≠ 0 ∧ Date_now amb ≤ x * 1000
     ∧ fieldsAtFinally (axios_get amb (tokenURI (e_tokenId e))) = (name, uri, imageURI)
     ∧ expiryBlock amb e r b p
       = (Returned (Normal (assign r (with_metadata name uri imageURI)
                              (assign r (with_expires (Some x)) b))),
          mkProcess (contractEntity p) (store p)
                    (requests p ++ [tokenURI (e_tokenId e)]))).
Proof.
  unfold expiryBlock. destruct (e_expires e) as [x|]; simpl; [|by left].
  destruct (Z.eqb_spec x 0) as [->|Hx]; [by left|].
  destruct (Z.ltb_spec (x * 1000) (Date_now amb)) as [Hlt|Hge].
  - right; left. by exists x.
  - right; right.
    destruct (fieldsAtFinally (axios_get amb (tokenURI (e_tokenId e))))
      as [[name uri] imageURI] eqn:Hf.
    exists x, name, uri, imageURI. split_and!; try done.
    unfold fetchMetadata, bind, log_request, ret; simpl. by rewrite Hf.
Qed.

(** ** One turn of the loop *)

Lemma reconcileEvent_Returned amb e b p b' p' :
  reconcileEvent amb e b p = (Returned b', p') →
  ∃ fromOwner b1 toOwner b2 token b3 p3 c,
    resolveOwner (e_from e) b = (fromOwner, b1)
    ∧ resolveOwner (e_to e) b1 = (toOwner, b2)
    ∧ resolveToken (pretty (e_tokenId e)) b2 p = (Returned (token, b3), p3)
    ∧ expiryBlock amb e token (assign token (with_owner toOwner) b3) p3
      = (Returned c, p')
    ∧ b' = finish e fromOwner toOwner token c.
Proof.
  unfold reconcileEvent.
  destruct (resolveOwner (e_from e) b) as [fromOwner b1] eqn:H1.
  destruct (resolveOwner (e_to e) b1) as [toOwner b2] eqn:H2.
  intros ([token b3] & p3 & H3 & H)%bind_Returned.
  apply bind_Returned in H as (c & p4 & H4 & H).
  exists fromOwner, b1, toOwner, b2, token, b3, p3, c.
  injection H as <- <-; done.
Qed.

Lemma reconcileEvent_total amb e b p :
  contract_records_paired p → ∃ b' p', reconcileEvent amb e b p = (Returned b', p').
Proof.
  intros Hp. unfold reconcileEvent.
  destruct (resolveOwner (e_from e) b) as [fromOwner b1].
  destruct (resolveOwner (e_to e) b1) as [toOwner b2].
  destruct (resolveToken_total (pretty (e_tokenId e)) b2 p Hp) as (r & b3 & p3 & H3).
  rewrite (bind_step _ _ _ _ _ H3).
  destruct (expiryBlock_cases amb e r (assign r (with_owner toOwner) b3) p3)
    as [[_ H]|[(x & _ & _ & _ & H)|(x & n & u & i & _ & _ & _ & _ & H)]];
    rewrite (bind_step _ _ _ _ _ H); by eexists _, _.
Qed.

Lemma expiryBlock_frame amb e r b p c p' :
  expiryBlock amb e r b p = (Returned c, p') →
  owners (batchOf c) = owners b ∧ tokens (batchOf c) = tokens b
  ∧ transfers (batchOf c) = transfers b ∧ allocated (batchOf c) = allocated b
  ∧ length (heap (batchOf c)) = length (heap b)
  ∧ (∀ r', token_id <$> heap (batchOf c) !! r' = token_id <$> heap b !! r')
  ∧ (∀ r', r ≠ r' → heap (batchOf c) !! r' = heap b !! r')
  ∧ store p' = store p ∧ contractEntity p' = contractEntity p.
Proof.
  intros H.
  destruct (expiryBlock_cases amb e r b p)
    as [[_ H']|[(x & _ & _ & _ & H')|(x & n & u & i & _ & _ & _ & _ & H')]];
    rewrite H' in H; injection H as <- <-; cbn [batchOf].
  - done.
  - rewrite assign_length. split_and!; try done.
    + intros r'. by apply assign_token_id.
    + intros r' Hr. by apply assign_lookup_ne.
  - rewrite !assign_length. split_and!; try done.
    + intros r'. by rewrite !assign_token_id.
    + intros r' Hr. by rewrite !assign_lookup_ne.
Qed.

Lemma finish_frame e fromOwner toOwner token c :
  owners (finish e fromOwner toOwner token c) = owners (batchOf c)
  ∧ tokens (finish e fromOwner toOwner token c) = tokens (batchOf c)
  ∧ heap (finish e fromOwner toOwner token c) = heap (batchOf c)
  ∧ allocated (finish e fromOwner toOwner token c) = allocated (batchOf c).
Proof.
  destruct c; simpl; [|done]. unfold addTransfer.
  by destruct toOwner, fromOwner.
Qed.

Lemma reconcileEvent_wf amb e b p b' p' :
  wf b → reconcileEvent amb e b p = (Returned b', p') → wf b'.
Proof.
  intros (Ho & Ht & Hx) H.
  apply reconcileEvent_Returned in H
    as (fromOwner & b1 & toOwner & b2 & r & b3 & p3 & c & H1 & H2 & H3 & H4 & ->).
  pose proof (resolveOwner_wf _ _ _ _ Ho H1) as Ho1.
  pose proof (resolveOwner_wf _ _ _ _ Ho1 H2) as Ho2.
  apply resolveOwner_frame in H1 as (Ht1 & Hh1 & Hx1).
  apply resolveOwner_frame in H2 as (Ht2 & Hh2 & Hx2).
  apply resolveToken_Returned in H3 as (Ho3 & Hx3 & _ & Hr & Hcase).
  apply expiryBlock_frame in H4 as (Ho4 & Ht4 & Hx4 & _ & Hl4 & Hid4 & _).
  unfold assign, set_heap in Ho4, Ht4, Hx4.
  cbn [owners tokens transfers] in Ho4, Ht4, Hx4.
  destruct (finish_frame e fromOwner toOwner r c) as (Ho5 & Ht5 & Hh5 & _).
  assert (Hold : ∀ k r', tokens b !! k = Some r' →
                 token_id <$> heap b3 !! r' = Some k).
  { intros k r' Hk. specialize (Ht _ _ Hk). simpl in Ht.
    destruct Hcase as [(_ & -> & _)|(c0 & _ & _ & _ & Hh3 & _)].
    - by rewrite Hh2, Hh1.
    - rewrite Hh3, Hh2, Hh1.
      destruct (heap b !! r') as [t|] eqn:Hl; [|done].
      by rewrite (lookup_app_l_Some _ _ _ _ Hl). }
  assert (Hlen : (length (heap b) ≤ length (heap b3))%nat).
  { destruct Hcase as [(_ & -> & _)|(c0 & _ & _ & _ & Hh3 & _)].
    - by rewrite Hh2, Hh1.
    - rewrite Hh3, Hh2, Hh1, length_app. lia. }
  assert (Hrlt : (r < length (heap b3))%nat).
  { destruct Hcase as [(Hk & -> & _)|(c0 & _ & -> & _ & Hh3 & _)].
    - rewrite Ht2, Ht1 in Hk. specialize (Hold _ _ Hk).
      destruct (heap b2 !! r) eqn:Hl; [|done]. by apply lookup_lt_Some in Hl.
    - rewrite Hh3, length_app. simpl. lia. }
  split_and!.
  - unfold owners_wf. by rewrite Ho5, Ho4, Ho3.
  - unfold tokens_wf. rewrite Ht5, Hh5, Ht4. intros k r' Hk. simpl.
    rewrite Hid4, assign_token_id by done.
    destruct Hcase as [(_ & -> & _)|(c0 & Hn & -> & _ & Hh3 & Ht3)].
    + apply Hold. by rewrite <-Ht1, <-Ht2.
    + rewrite Ht3 in Hk. apply lookup_insert_Some in Hk as [[<- <-]|[Hne Hk]].
      * by rewrite Hh3, list_lookup_middle.
      * apply Hold. by rewrite <-Ht1, <-Ht2.
  - unfold transfers_wf. rewrite Hh5, Hl4, assign_length.
    assert (Hprev : Forall (λ x, (transfer_token x < length (heap b3))%nat) (transfers b)).
    { eapply Forall_impl; [exact Hx|]. simpl. intros x Hlt. lia. }
    destruct c as [b4|b4]; simpl in *.
    + unfold addTransfer. destruct toOwner, fromOwner; simpl;
        rewrite Hx4, Hx3, Hx2, Hx1; try done.
      apply Forall_app. split; [done|]. by apply Forall_singleton.
    + by rewrite Hx4, Hx3, Hx2, Hx1.
Qed.

Lemma expiryBlock_effect amb e r b p c p' t :
  heap b !! r = Some t → expiryBlock amb e r b p = (Returned c, p') →
  heap (batchOf c) !! r = Some (expiryToken amb e t)
  ∧ c = (if skipsRest amb e then Continue (batchOf c) else Normal (batchOf c))
  ∧ requests p' = requests p ++ turnRequests amb e.
Proof.
  intros Hl H. unfold expiryToken, skipsRest, turnRequests, fetches.
  destruct (expiryBlock_cases amb e r b p)
    as [[Hex H']|[(x & Hex & Hx0 & Hlt & H')|(x & n & u & i & Hex & Hx0 & Hge & Hf & H')]];
    rewrite H' in H; injection H as <- <-; cbn [batchOf requests].
  - unfold Js.truthy_number in Hex. destruct (e_expires e) as [x|].
    + apply negb_false_iff in Hex. rewrite Hex. cbn. by rewrite app_nil_r.
    + by rewrite app_nil_r.
  - apply Z.eqb_neq in Hx0. apply Z.ltb_lt in Hlt. rewrite Hex, Hx0, Hlt. cbn.
    rewrite app_nil_r. split_and!; try done. by apply assign_lookup.
  - apply Z.eqb_neq in Hx0. apply Z.ltb_ge in Hge. rewrite Hex, Hx0, Hge, Hf. cbn.
    split_and!; try done. by apply assign_lookup, assign_lookup.
Qed.

Lemma addTransfer_transfers e fromOwner toOwner r b :
  transfers (addTransfer e fromOwner toOwner r b)
  = transfers b ++ match toOwner, fromOwner with
                   | Some t, Some f =>
                       [mkTransfer (e_id e) (e_block e) (e_timestamp e)
                          (e_transactionHash e) f t r]
                   | _, _ => []
                   end.
Proof.
  unfold addTransfer. destruct toOwner, fromOwner; simpl; by rewrite ?app_nil_r.
Qed.

(** The whole effect of a turn that returns. *)
Lemma reconcileEvent_effect amb e b p b' p' :
  wf b → reconcileEvent amb e b p = (Returned b', p') →
  ∃ fromOwner b1 toOwner b2 r t0 p3,
    resolveOwner (e_from e) b = (fromOwner, b1)
    ∧ resolveOwner (e_to e) b1 = (toOwner, b2)
    ∧ owners b' = owners b2 ∧ allocated b' = allocated b2
    ∧ tokens b' !! pretty (e_tokenId e) = Some r
    ∧ (tokens b !! pretty (e_tokenId e) = Some r ∧ heap b !! r = Some t0
       ∧ p3 = p ∧ tokens b' = tokens b ∧ length (heap b') = length (heap b)
       ∨ ∃ c, tokens b !! pretty (e_tokenId e) = None ∧ r = length (heap b)
           ∧ getOrCreateContractEntity p = (Returned c, p3)
           ∧ t0 = mkToken (pretty (e_tokenId e)) None None None None None (Some c)
           ∧ tokens b' = <[pretty (e_tokenId e) := r]> (tokens b)
           ∧ length (heap b') = S (length (heap b)))
    ∧ heap b' !! r = Some (turnToken amb e toOwner t0)
    ∧ (∀ r', r' ≠ r → heap b' !! r' = heap b !! r')
    ∧ transfers b' = transfers b ++ turnTransfers amb e fromOwner toOwner r
    ∧ store p' = store p3 ∧ contractEntity p' = contractEntity p3
    ∧ requests p' = requests p ++ turnRequests amb e.
Proof.
  intros (Ho & Ht & Hx) H.
  apply reconcileEvent_Returned in H
    as (fromOwner & b1 & toOwner & b2 & r & b3 & p3 & c & H1 & H2 & H3 & H4 & ->).
  destruct (resolveOwner_frame _ _ _ _ H1) as (Ht1 & Hh1 & Hx1).
  destruct (resolveOwner_frame _ _ _ _ H2) as (Ht2 & Hh2 & Hx2).
  apply resolveToken_Returned in H3 as (Ho3 & Hx3 & Ha3 & Hr & Hcase).
  rewrite Ht2, Ht1, Hh2, Hh1 in Hcase.
  assert (∃ t0, heap b3 !! r = Some t0
    ∧ (∀ r', r' ≠ r → heap b3 !! r' = heap b !! r')
    ∧ requests p3 = requests p
    ∧ (tokens b !! pretty (e_tokenId e) = Some r ∧ heap b !! r = Some t0
       ∧ p3 = p ∧ tokens b3 = tokens b ∧ length (heap b3) = length (heap b)
       ∨ ∃ c, tokens b !! pretty (e_tokenId e) = None ∧ r = length (heap b)
           ∧ getOrCreateContractEntity p = (Returned c, p3)
           ∧ t0 = mkToken (pretty (e_tokenId e)) None None None None None (Some c)
           ∧ tokens b3 = <[pretty (e_tokenId e) := r]> (tokens b)
           ∧ length (heap b3) = S (length (heap b))))
    as (t0 & Hl3 & Hfr3 & Hreq & Hcase').
  { destruct Hcase as [(Hk & -> & ->)|(c0 & Hn & -> & Hc & Hh3 & Ht3)].
    - specialize (Ht _ _ Hk). simpl in Ht.
      destruct (heap b !! r) as [t0|] eqn:Hl; [|done].
      exists t0. rewrite Hh2, Hh1, Ht2, Ht1. split_and!; auto.
      left. split_and!; auto.
    - eexists. rewrite Hh3. split_and!.
      + apply list_lookup_middle. done.
      + intros r' Hr'. destruct (decide (r' < length (heap b))%nat) as [Hlt|Hge].
        * by rewrite lookup_app_l.
        * rewrite !lookup_ge_None_2; [done|lia|rewrite length_app; simpl; lia].
      + by apply getOrCreateContractEntity_Returned in Hc as [_ ?].
      + right. exists c0. rewrite length_app, Ht3. simpl.
        split_and!; auto; lia. }
  exists fromOwner, b1, toOwner, b2, r, t0, p3.
  destruct (finish_frame e fromOwner toOwner r c) as (Ho5 & Ht5 & Hh5 & Ha5).
  rewrite Ho5, Ht5, Hh5, Ha5.
  pose proof (assign_lookup r (with_owner toOwner) b3 t0 Hl3) as Hl4.
  destruct (expiryBlock_effect _ _ _ _ _ _ _ _ Hl4 H4) as (Hl5 & Hc & Hreq5).
  apply expiryBlock_frame in H4
    as (Ho4 & Ht4 & Hx4 & Ha4 & Hlen4 & _ & Hfr4 & Hst4 & Hce4).
  rewrite assign_length in Hlen4.
  rewrite Ho4, Ht4, Ha4, Hlen4, Hreq5, Hreq. split_and!; try done.
  - intros r' Hr'. rewrite Hfr4, assign_lookup_ne by done. by apply Hfr3.
  - unfold turnTransfers. rewrite Hc. destruct (skipsRest amb e); cbn [finish].
    + by rewrite app_nil_r, Hx4, <-Hx1, <-Hx2, <-Hx3.
    + by rewrite addTransfer_transfers, Hx4, <-Hx1, <-Hx2, <-Hx3.
Qed.

Example registration1_reaches :
  ∃ p, run calmWorld [registration1] freshProcess = (Returned afterRegistration1, p).
Proof. eexists. vm_compute. reflexivity. Qed.

Example afterRegistration1_wf : wf afterRegistration1.
Proof. apply (bool_decide_unpack _). vm_compute. exact I. Qed.

Lemma paired_of_same p p' :
  store p' = store p → contractEntity p' = contractEntity p →
  contract_records_paired p → contract_records_paired p'.
Proof. unfold contract_records_paired. by intros -> ->. Qed.

(** A turn on a well-formed batch returns, whatever the clock and the
    metadata service answer, and this is what it leaves. *)
Lemma reconcileEvent_token amb e b p :
  wf b → contract_records_paired p →
  ∃ b' p' fromOwner b1 toOwner b2 r t0,
    reconcileEvent amb e b p = (Returned b', p')
    ∧ wf b' ∧ contract_records_paired p'
    ∧ resolveOwner (e_from e) b = (fromOwner, b1)
    ∧ resolveOwner (e_to e) b1 = (toOwner, b2)
    ∧ owners b' = owners b2
    ∧ tokens b' !! pretty (e_tokenId e) = Some r
    ∧ tokenOf b' (e_tokenId e) = Some (turnToken amb e toOwner t0)
    ∧ (tokenOf b (e_tokenId e) = Some t0
       ∨ tokenOf b (e_tokenId e) = None
         ∧ ∃ c, t0 = mkToken (pretty (e_tokenId e)) None None None None None (Some c))
    ∧ transfers b' = transfers b ++ turnTransfers amb e fromOwner toOwner r
    ∧ requests p' = requests p ++ turnRequests amb e.
Proof.
  intros Hw Hp.
  destruct (reconcileEvent_total amb e b p Hp) as (b' & p' & H).
  pose proof (reconcileEvent_wf _ _ _ _ _ _ Hw H) as Hw'.
  destruct (reconcileEvent_effect _ _ _ _ _ _ Hw H)
    as (fromOwner & b1 & toOwner & b2 & r & t0 & p3 & H1 & H2 & Ho & _ & Hr
        & Hcase & Hl & _ & Hx & Hst & Hce & Hreq).
  exists b', p', fromOwner, b1, toOwner, b2, r, t0. split_and!; try done.
  - destruct Hcase as [(_&_&->&_)|(c&_&_&Hc&_)].
    + by apply (paired_of_same p).
    + apply getOrCreateContractEntity_paired in Hc. by apply (paired_of_same p3).
  - unfold tokenOf. by rewrite Hr.
  - unfold tokenOf.
    destruct Hcase as [(Hk&Hh&_)|(c&Hk&_&_&->&_)]; rewrite Hk; simpl; eauto.
Qed.

(** ** Renewals and the owner field *)

(** What line 260 does in the turn of an event with an empty or absent
    [to]: the turn adds no Transfer, and [token.owner = toOwner] assigns
    [undefined], so that the owner field is as it was before only when it
    was [undefined] already. *)
Lemma renewal_assigns_undefined_owner amb e b p :
  wf b → contract_records_paired p → Js.truthy (e_to e) = false →
  ∃ b' p',
    reconcileEvent amb e b p = (Returned b', p')
    ∧ transfers b' = transfers b
    ∧ is_Some (tokenOf b' (e_tokenId e))
    ∧ ownerField b' (e_tokenId e) = None
    ∧ (ownerField b' (e_tokenId e) = ownerField b (e_tokenId e)
       ↔ ownerField b (e_tokenId e) = None).
Proof.
  intros Hw Hp Hto.
  destruct (reconcileEvent_token amb e b p Hw Hp)
    as (b' & p' & fromOwner & b1 & toOwner & b2 & r & t0 & H & _ & _ & H1 & H2
        & _ & _ & Ht & _ & Hx & _).
  exists b', p'.
  assert (Ho1 : owners_wf (owners b1)).
  { eapply resolveOwner_wf; [apply Hw|exact H1]. }
  rewrite (resolveOwner_falsy _ _ Ho1 Hto) in H2. injection H2 as <- <-.
  assert (Hof : ownerField b' (e_tokenId e) = None).
  { unfold ownerField. rewrite Ht. simpl. unfold turnToken, expiryToken.
    destruct (e_expires e) as [x|]; [|done].
    destruct (x =? 0); [done|]. destruct (x * 1000 <? Date_now amb); [done|].
    by destruct (fieldsAtFinally _) as [[??]?]. }
  split_and!; try done.
  - rewrite Hx. unfold turnTransfers. destruct (skipsRest amb e); [|destruct fromOwner];
      by rewrite app_nil_r.
  - rewrite Hof. split; intros; done.
Qed.

(** C1 fails on the code.  The comment above the lookup of the receiver
    calls an event without one a renewal, "not an actual transaction",
    and the Transfer is made under the guard [if (toOwner && fromOwner)];
    the assignment [token.owner = toOwner] of line 260 has no such guard.
    After the registration of token 1 to [0xAb] the owner field holds the
    owner; after its renewal in the same batch it is [undefined], and the
    row saved for the new token has no owner.  On a stored token a
    transfer followed by a renewal saves the Transfer to [0xcd] and keeps
    [0xab] as the owner of the token. *)
Theorem renewal_clears_the_owner :
  (∃ b1 p1 b2 p2,
     run calmWorld [registration1] freshProcess = (Returned b1, p1)
     ∧ ownerField b1 1 = Some (mkOwner 0 "0xab")
     ∧ run calmWorld [registration1; renewal1] freshProcess = (Returned b2, p2)
     ∧ ownerField b2 1 = None
     ∧ transfers b2 = [])
  ∧ (∃ p', saveENSData calmWorld [registration1; renewal1] freshProcess = (Returned tt, p')
           ∧ tokenRows (store p') !! "1" ≫= tr_owner = None)
  ∧ (∃ p', saveENSData calmWorld [transfer1; laterRenewal1] registeredProcess
           = (Returned tt, p')
           ∧ tokenRows (store p') !! "1" ≫= tr_owner = Some "0xab"
           ∧ xr_to <$> transferRows (store p') !! e_id transfer1 = Some "0xcd").
Proof.
  split_and!.
  - eexists _, _, _, _. split_and!; vm_compute; reflexivity.
  - eexists. split; vm_compute; reflexivity.
  - eexists. split_and!; vm_compute; reflexivity.
Qed.

(** What the assignment of [undefined] means for the stored row: the
    upsert of a token whose owner is [undefined] keeps the owner the row
    has, so a renewal that is the last event of a batch for a token leaves
    the stored owner as it is. *)
Lemma undefined_owner_keeps_stored_owner old t :
  token_owner t = None → tr_owner (rowOfToken old t) = old ≫= tr_owner.
Proof. intros H. unfold rowOfToken. simpl. by rewrite H. Qed.

(** ** When a Transfer is made *)

(** The turn of any event record: it adds a Transfer exactly when the
    event has a non-empty [from] and a non-empty [to] and the turn does
    not end at [continue]; it then adds exactly one, made of the two
    owner objects the turn resolved and of the token object of the
    event. *)
Lemma transfer_iff_both_addresses_and_not_skipped amb e b p :
  wf b → contract_records_paired p →
  ∃ b' p' fromOwner b1 toOwner b2 r,
    reconcileEvent amb e b p = (Returned b', p')
    ∧ resolveOwner (e_from e) b = (fromOwner, b1)
    ∧ resolveOwner (e_to e) b1 = (toOwner, b2)
    ∧ tokens b' !! pretty (e_tokenId e) = Some r
    ∧ (Js.truthy (e_from e) && Js.truthy (e_to e) && negb (skipsRest amb e) = true →
         ∃ f t, fromOwner = Some f ∧ toOwner = Some t
           ∧ owner_id f = Js.toLowerCase (Js.or_empty (e_from e))
           ∧ owner_id t = Js.toLowerCase (Js.or_empty (e_to e))
           ∧ transfers b' = transfers b ++ [transferOf e f t r])
    ∧ (Js.truthy (e_from e) && Js.truthy (e_to e) && negb (skipsRest amb e) = false →
         transfers b' = transfers b).
Proof.
  intros Hw Hp.
  destruct (reconcileEvent_token amb e b p Hw Hp)
    as (b' & p' & fromOwner & b1 & toOwner & b2 & r & t0 & H & _ & _ & H1 & H2
        & _ & Hr & _ & _ & Hx & _).
  exists b', p', fromOwner, b1, toOwner, b2, r. split_and!; try done.
  - intros Hc. apply andb_true_iff in Hc as [Hc Hs].
    apply andb_true_iff in Hc as [Hf Ht]. apply negb_true_iff in Hs.
    assert (Ho : owners_wf (owners b)) by apply Hw.
    destruct (resolveOwner_truthy _ _ Ho Hf) as (f & bf & H1f & Hidf & _).
    rewrite H1 in H1f. injection H1f as -> <-.
    assert (Ho1 : owners_wf (owners b1)) by (eapply resolveOwner_wf; eauto).
    destruct (resolveOwner_truthy _ _ Ho1 Ht) as (t & bt & H2t & Hidt & _).
    rewrite H2 in H2t. injection H2t as -> <-.
    exists f, t. split_and!; try done.
    rewrite Hx. unfold turnTransfers. by rewrite Hs.
  - intros Hc. rewrite Hx. unfold turnTransfers.
    destruct (skipsRest amb e); [by rewrite app_nil_r|].
    rewrite andb_true_r in Hc. apply andb_false_iff in Hc as [Hf|Ht].
    + assert (Ho : owners_wf (owners b)) by apply Hw.
      rewrite (resolveOwner_falsy _ _ Ho Hf) in H1. injection H1 as <- <-.
      destruct toOwner; by rewrite app_nil_r.
    + assert (Ho1 : owners_wf (owners b1)).
      { eapply resolveOwner_wf; [apply Hw|exact H1]. }
      rewrite (resolveOwner_falsy _ _ Ho1 Ht) in H2. injection H2 as <- <-.
      by rewrite app_nil_r.
Qed.

(** For the events the three handlers build, [continue] is never reached
    with a sender: an event that carries an expiration has no [from], so
    for them a Transfer is made exactly when both addresses are
    non-empty. *)
Lemma handler_events_never_skip_a_transfer amb item :
  skipsRest amb (handleLog item) = true →
  Js.truthy (e_from (handleLog item)) = false.
Proof. by destruct item as [ctx []]. Qed.

(** C3.  [saveENSData] is called from the callback alone, with the events
    the three handlers build.  For every such event the turn adds a
    Transfer exactly when the event has a non-empty [from] and a
    non-empty [to]: it then adds exactly one, made of the two owner
    objects the turn resolved and of the token object of the event, and
    it adds none when either address is missing. *)
Theorem transfer_iff_both_addresses amb item b p :
  wf b → contract_records_paired p →
  ∃ b' p' fromOwner b1 toOwner b2 r,
    reconcileEvent amb (handleLog item) b p = (Returned b', p')
    ∧ resolveOwner (e_from (handleLog item)) b = (fromOwner, b1)
    ∧ resolveOwner (e_to (handleLog item)) b1 = (toOwner, b2)
    ∧ tokens b' !! pretty (e_tokenId (handleLog item)) = Some r
    ∧ (Js.truthy (e_from (handleLog item)) && Js.truthy (e_to (handleLog item)) = true →
         ∃ f t, fromOwner = Some f ∧ toOwner = Some t
           ∧ owner_id f = Js.toLowerCase (Js.or_empty (e_from (handleLog item)))
           ∧ owner_id t = Js.toLowerCase (Js.or_empty (e_to (handleLog item)))
           ∧ transfers b' = transfers b ++ [transferOf (handleLog item) f t r])
    ∧ (Js.truthy (e_from (handleLog item)) && Js.truthy (e_to (handleLog item)) = false →
         transfers b' = transfers b).
Proof.
  intros Hw Hp.
  destruct (transfer_iff_both_addresses_and_not_skipped amb (handleLog item) b p Hw Hp)
    as (b' & p' & fromOwner & b1 & toOwner & b2 & r & H & H1 & H2 & Hr & Hyes & Hno).
  exists b', p', fromOwner, b1, toOwner, b2, r. split_and!; try done.
  - intros Hc. apply Hyes. rewrite Hc. simpl.
    destruct (skipsRest amb (handleLog item)) eqn:Hskip; [|done].
    apply handler_events_never_skip_a_transfer in Hskip.
    rewrite Hskip in Hc. done.
  - intros Hc. apply Hno. by rewrite Hc.
Qed.

Lemma transfer_iff_both_addresses_witness :
  wf afterRegistration1 ∧ contract_records_paired freshProcess
  ∧ ∃ b' p' f t r,
      reconcileEvent (calmWorld 1%nat) (handleLog (ctx2, TransferLog "0xab" "0xCd" 1))
        afterRegistration1 freshProcess = (Returned b', p')
      ∧ owner_id f = "0xab" ∧ owner_id t = "0xcd"
      ∧ transfers b'
        = transfers afterRegistration1
          ++ [transferOf (handleLog (ctx2, TransferLog "0xab" "0xCd" 1)) f t r].
Proof.
  assert (Hw : wf afterRegistration1)
    by (apply (bool_decide_unpack _); vm_compute; exact I).
  assert (Hp : contract_records_paired freshProcess)
    by (apply (bool_decide_unpack _); vm_compute; exact I).
  split_and!; [exact Hw|exact Hp|].
  destruct (transfer_iff_both_addresses (calmWorld 1%nat)
              (ctx2, TransferLog "0xab" "0xCd" 1) afterRegistration1 freshProcess Hw Hp)
    as (b' & p' & fromOwner & b1 & toOwner & b2 & r & H & _ & _ & _ & Hyes & _).
  destruct (Hyes eq_refl) as (f & t & _ & _ & Hf & Ht & Hx).
  exists b', p', f, t, r. split_and!; [exact H|exact Hf|exact Ht|exact Hx].
Defined.

(** ** Expiration and enrichment *)

Lemma tokenOf_field {A} (f : Token → option A) b id t0 :
  tokenOf b id = Some t0
  ∨ tokenOf b id = None
    ∧ (∃ c, t0 = mkToken (pretty id) None None None None None (Some c)) →
  (∀ c, f (mkToken (pretty id) None None None None None (Some c)) = None) →
  f t0 = tokenOf b id ≫= f.
Proof.
  intros [->|[-> [c ->]]] Hf; simpl; [done|]. apply Hf.
Qed.

(** C5.  For an event whose expiration is earlier than the clock reading,
    the turn makes no request to the metadata service and leaves [name],
    [uri] and [imageURI] of the token as they were before the turn
    ([undefined] for a token the turn creates); the owner is the resolved
    [to] owner and a non-zero expiration is written to [expires]. *)
Theorem expired_event_skips_enrichment amb e b p x :
  wf b → contract_records_paired p →
  e_expires e = Some x → x * 1000 < Date_now amb →
  ∃ b' p' t' fromOwner b1 toOwner b2,
    reconcileEvent amb e b p = (Returned b', p')
    ∧ requests p' = requests p
    ∧ tokenOf b' (e_tokenId e) = Some t'
    ∧ token_name t' = tokenOf b (e_tokenId e) ≫= token_name
    ∧ token_uri t' = tokenOf b (e_tokenId e) ≫= token_uri
    ∧ token_imageURI t' = tokenOf b (e_tokenId e) ≫= token_imageURI
    ∧ resolveOwner (e_from e) b = (fromOwner, b1)
    ∧ resolveOwner (e_to e) b1 = (toOwner, b2)
    ∧ token_owner t' = toOwner
    ∧ (x ≠ 0 → token_expires t' = Some x).
Proof.
  intros Hw Hp Hex Hlt.
  destruct (reconcileEvent_token amb e b p Hw Hp)
    as (b' & p' & fromOwner & b1 & toOwner & b2 & r & t0 & H & _ & _ & H1 & H2
        & _ & Hr & Ht & Ht0 & _ & Hreq).
  exists b', p', (turnToken amb e toOwner t0), fromOwner, b1, toOwner, b2.
  apply Z.ltb_lt in Hlt.
  assert (Hfields : ∀ t, turnToken amb e toOwner t
            = if x =? 0 then with_owner toOwner t
              else with_expires (Some x) (with_owner toOwner t)).
  { intros t. unfold turnToken, expiryToken. rewrite Hex, Hlt. done. }
  split_and!; try done; rewrite ?Hfields.
  - rewrite Hreq. unfold turnRequests, fetches. rewrite Hex, Hlt.
    rewrite andb_false_r. apply app_nil_r.
  - rewrite <-(tokenOf_field token_name b _ t0) by done. by destruct (x =? 0).
  - rewrite <-(tokenOf_field token_uri b _ t0) by done. by destruct (x =? 0).
  - rewrite <-(tokenOf_field token_imageURI b _ t0) by done. by destruct (x =? 0).
  - by destruct (x =? 0).
  - intros Hx0. apply Z.eqb_neq in Hx0. by rewrite Hx0.
Qed.

Lemma expired_event_skips_enrichment_witness :
  wf afterRegistration1 ∧ contract_records_paired freshProcess
  ∧ e_expires (handleNameRenewed ctx2 1 2) = Some 2
  ∧ 2 * 1000 < Date_now (calmWorld 1%nat)
  ∧ ∃ b' p' t' fromOwner b1 toOwner b2,
      reconcileEvent (calmWorld 1%nat) (handleNameRenewed ctx2 1 2)
        afterRegistration1 freshProcess = (Returned b', p')
      ∧ requests p' = requests freshProcess
      ∧ tokenOf b' 1 = Some t'
      ∧ token_name t' = tokenOf afterRegistration1 1 ≫= token_name
      ∧ token_uri t' = tokenOf afterRegistration1 1 ≫= token_uri
      ∧ token_imageURI t' = tokenOf afterRegistration1 1 ≫= token_imageURI
      ∧ resolveOwner None afterRegistration1 = (fromOwner, b1)
      ∧ resolveOwner None b1 = (toOwner, b2)
      ∧ token_owner t' = toOwner
      ∧ (2 ≠ 0 → token_expires t' = Some 2).
Proof.
  assert (Hw : wf afterRegistration1)
    by (apply (bool_decide_unpack _); vm_compute; exact I).
  assert (Hp : contract_records_paired freshProcess)
    by (apply (bool_decide_unpack _); vm_compute; exact I).
  split_and!; [exact Hw|exact Hp|reflexivity|reflexivity|].
  apply (expired_event_skips_enrichment (calmWorld 1%nat)
           (handleNameRenewed ctx2 1 2) afterRegistration1 freshProcess 2 Hw Hp);
    reflexivity.
Defined.

(** C6, amended.  When the enrichment throws, because the request is
    rejected (network error, status outside 2xx) or because the response
    has no body to read a field from, the turn still returns: [name],
    [uri] and [imageURI] of the token are the empty string, the owner and
    the expiration written earlier in the turn stand, the Transfer is
    made as for any other event, and the loop goes on with the remaining
    events. *)
Theorem failed_enrichment_defaults amb e b p x :
  wf b → contract_records_paired p →
  e_expires e = Some x → x ≠ 0 → Date_now amb ≤ x * 1000 →
  enrichmentFails (axios_get amb (tokenURI (e_tokenId e))) →
  ∃ b' p' t' fromOwner b1 toOwner b2 r,
    reconcileEvent amb e b p = (Returned b', p')
    ∧ wf b' ∧ contract_records_paired p'
    ∧ requests p' = requests p ++ [tokenURI (e_tokenId e)]
    ∧ tokens b' !! pretty (e_tokenId e) = Some r
    ∧ heap b' !! r = Some t'
    ∧ token_name t' = Some "" ∧ token_uri t' = Some "" ∧ token_imageURI t' = Some ""
    ∧ resolveOwner (e_from e) b = (fromOwner, b1)
    ∧ resolveOwner (e_to e) b1 = (toOwner, b2)
    ∧ token_owner t' = toOwner
    ∧ token_expires t' = Some x
    ∧ transfers b' = transfers b ++ match toOwner, fromOwner with
                                    | Some t, Some f => [transferOf e f t r]
                                    | _, _ => []
                                    end
    ∧ ∀ world k rest, world k = amb →
        reconcile world k (e :: rest) b p = reconcile world (S k) rest b' p'.
Proof.
  intros Hw Hp Hex Hx0 Hge Hfail.
  destruct (reconcileEvent_token amb e b p Hw Hp)
    as (b' & p' & fromOwner & b1 & toOwner & b2 & r & t0 & H & Hw' & Hp' & H1 & H2
        & _ & Hr & Ht & _ & Hx & Hreq).
  exists b', p', (turnToken amb e toOwner t0), fromOwner, b1, toOwner, b2, r.
  apply Z.eqb_neq in Hx0. apply Z.ltb_ge in Hge.
  assert (Hf : fieldsAtFinally (axios_get amb (tokenURI (e_tokenId e)))
               = (Some "", Some "", Some "")).
  { by destruct Hfail as [-> | ->]. }
  assert (Hfields : turnToken amb e toOwner t0
            = with_metadata (Some "") (Some "") (Some "")
                (with_expires (Some x) (with_owner toOwner t0))).
  { unfold turnToken, expiryToken. by rewrite Hex, Hx0, Hge, Hf. }
  split_and!; try done.
  - rewrite Hreq. unfold turnRequests, fetches. by rewrite Hex, Hx0, Hge.
  - unfold tokenOf in Ht. rewrite Hr in Ht. exact Ht.
  - by rewrite Hfields.
  - by rewrite Hfields.
  - by rewrite Hfields.
  - by rewrite Hfields.
  - by rewrite Hfields.
  - rewrite Hx. unfold turnTransfers, skipsRest. by rewrite Hex, Hx0, Hge.
  - intros world k rest <-. simpl. by rewrite (bind_step _ _ _ _ _ H).
Qed.

Lemma failed_enrichment_defaults_witness :
  wf emptyBatch ∧ contract_records_paired freshProcess
  ∧ e_expires registration1 = Some 10 ∧ 10 ≠ 0
  ∧ Date_now (stormyWorld 0%nat) ≤ 10 * 1000
  ∧ enrichmentFails (axios_get (stormyWorld 0%nat) (tokenURI (e_tokenId registration1)))
  ∧ ∃ b' p' t' fromOwner b1 toOwner b2 r,
      reconcileEvent (stormyWorld 0%nat) registration1 emptyBatch freshProcess
        = (Returned b', p')
      ∧ wf b' ∧ contract_records_paired p'
      ∧ requests p' = requests freshProcess ++ [tokenURI (e_tokenId registration1)]
      ∧ tokens b' !! pretty (e_tokenId registration1) = Some r
      ∧ heap b' !! r = Some t'
      ∧ token_name t' = Some "" ∧ token_uri t' = Some "" ∧ token_imageURI t' = Some ""
      ∧ resolveOwner (e_from registration1) emptyBatch = (fromOwner, b1)
      ∧ resolveOwner (e_to registration1) b1 = (toOwner, b2)
      ∧ token_owner t' = toOwner
      ∧ token_expires t' = Some 10
      ∧ transfers b' = transfers emptyBatch ++ match toOwner, fromOwner with
                                               | Some t, Some f =>
                                                   [transferOf registration1 f t r]
                                               | _, _ => []
                                               end
      ∧ ∀ world k rest, world k = stormyWorld 0%nat →
          reconcile world k (registration1 :: rest) emptyBatch freshProcess
          = reconcile world (S k) rest b' p'.
Proof.
  assert (Hw : wf emptyBatch)
    by (apply (bool_decide_unpack _); vm_compute; exact I).
  assert (Hp : contract_records_paired freshProcess)
    by (apply (bool_decide_unpack _); vm_compute; exact I).
  assert (Hx : (10 : Z) ≠ 0) by lia.
  assert (Hge : Date_now (stormyWorld 0%nat) ≤ 10 * 1000) by (simpl; lia).
  assert (Hf : enrichmentFails
                 (axios_get (stormyWorld 0%nat) (tokenURI (e_tokenId registration1))))
    by (left; reflexivity).
  split_and!; [exact Hw|exact Hp|reflexivity|exact Hx|exact Hge|exact Hf|].
  exact (failed_enrichment_defaults (stormyWorld 0%nat) registration1 emptyBatch
           freshProcess 10 Hw Hp eq_refl Hx Hge Hf).
Defined.

(** C6 as stated fails: the code has no check of the payload, and a
    payload that is read without a throw is assigned as it was read.
    With a body that lacks the three fields, the registration of token 1
    leaves [name], [uri] and [imageURI] [undefined], not the empty
    string. *)
Lemma payload_without_fields_counterexample :
  ¬ (∀ amb e b p b' p' r t' x,
       wf b → e_expires e = Some x → x ≠ 0 → Date_now amb ≤ x * 1000 →
       enrichmentFails (axios_get amb (tokenURI (e_tokenId e)))
       ∨ payloadLacksField (axios_get amb (tokenURI (e_tokenId e))) →
       reconcileEvent amb e b p = (Returned b', p') →
       tokens b' !! pretty (e_tokenId e) = Some r → heap b' !! r = Some t' →
       token_name t' = Some "" ∧ token_uri t' = Some "" ∧ token_imageURI t' = Some "").
Proof.
  intros H.
  edestruct (H (bareWorld 0%nat) registration1 emptyBatch freshProcess) as [Hname _].
  - apply (bool_decide_unpack _). vm_compute. exact I.
  - reflexivity.
  - by intros [=].
  - by intros [=].
  - right. eexists. split; [reflexivity|]. by left.
  - vm_compute. reflexivity.
  - vm_compute. reflexivity.
  - vm_compute. reflexivity.
  - vm_compute in Hname. discriminate.
Qed.

(** C10.  An event whose expiration is 0 is handled as one without
    expiration: [expires] and the descriptive fields of the token are left
    as they were, no request is made, and the turn goes on to the Transfer,
    which is made when both addresses are non-empty. *)
Theorem zero_expiration_is_no_expiration amb e b p :
  wf b → contract_records_paired p → e_expires e = Some 0 →
  ∃ b' p' t' fromOwner b1 toOwner b2 r,
    reconcileEvent amb e b p = (Returned b', p')
    ∧ requests p' = requests p
    ∧ tokens b' !! pretty (e_tokenId e) = Some r
    ∧ heap b' !! r = Some t'
    ∧ token_expires t' = tokenOf b (e_tokenId e) ≫= token_expires
    ∧ token_name t' = tokenOf b (e_tokenId e) ≫= token_name
    ∧ token_uri t' = tokenOf b (e_tokenId e) ≫= token_uri
    ∧ token_imageURI t' = tokenOf b (e_tokenId e) ≫= token_imageURI
    ∧ resolveOwner (e_from e) b = (fromOwner, b1)
    ∧ resolveOwner (e_to e) b1 = (toOwner, b2)
    ∧ token_owner t' = toOwner
    ∧ transfers b' = transfers b ++ match toOwner, fromOwner with
                                    | Some t, Some f => [transferOf e f t r]
                                    | _, _ => []
                                    end
    ∧ (Js.truthy (e_from e) = true → Js.truthy (e_to e) = true →
       ∃ f t, fromOwner = Some f ∧ toOwner = Some t
         ∧ transfers b' = transfers b ++ [transferOf e f t r]).
Proof.
  intros Hw Hp Hex.
  destruct (reconcileEvent_token amb e b p Hw Hp)
    as (b' & p' & fromOwner & b1 & toOwner & b2 & r & t0 & H & _ & _ & H1 & H2
        & _ & Hr & Ht & Ht0 & Hx & Hreq).
  exists b', p', (with_owner toOwner t0), fromOwner, b1, toOwner, b2, r.
  assert (Hfields : turnToken amb e toOwner t0 = with_owner toOwner t0).
  { unfold turnToken, expiryToken. by rewrite Hex. }
  assert (Hxs : transfers b' = transfers b ++ match toOwner, fromOwner with
                                    | Some t, Some f => [transferOf e f t r]
                                    | _, _ => []
                                    end).
  { rewrite Hx. unfold turnTransfers, skipsRest. by rewrite Hex. }
  split_and!; try done.
  - rewrite Hreq. unfold turnRequests, fetches. rewrite Hex. apply app_nil_r.
  - unfold tokenOf in Ht. rewrite Hr in Ht. simpl in Ht. by rewrite Ht, Hfields.
  - by rewrite <-(tokenOf_field token_expires b _ t0).
  - by rewrite <-(tokenOf_field token_name b _ t0).
  - by rewrite <-(tokenOf_field token_uri b _ t0).
  - by rewrite <-(tokenOf_field token_imageURI b _ t0).
  - intros Hf Hto.
    assert (Ho : owners_wf (owners b)) by apply Hw.
    destruct (resolveOwner_truthy _ _ Ho Hf) as (f & bf & H1f & _).
    rewrite H1 in H1f. injection H1f as -> <-.
    assert (Ho1 : owners_wf (owners b1)) by (eapply resolveOwner_wf; eauto).
    destruct (resolveOwner_truthy _ _ Ho1 Hto) as (t & bt & H2t & _).
    rewrite H2 in H2t. injection H2t as -> <-.
    exists f, t. by rewrite Hxs.
Qed.

Lemma zero_expiration_is_no_expiration_witness :
  wf afterRegistration1 ∧ contract_records_paired freshProcess
  ∧ e_expires zeroExpiryTransfer = Some 0
  ∧ ∃ b' p' t' fromOwner b1 toOwner b2 r,
      reconcileEvent (calmWorld 1%nat) zeroExpiryTransfer afterRegistration1 freshProcess
        = (Returned b', p')
      ∧ requests p' = requests freshProcess
      ∧ tokens b' !! pretty (e_tokenId zeroExpiryTransfer) = Some r
      ∧ heap b' !! r = Some t'
      ∧ token_expires t' = tokenOf afterRegistration1 1 ≫= token_expires
      ∧ token_name t' = tokenOf afterRegistration1 1 ≫= token_name
      ∧ token_uri t' = tokenOf afterRegistration1 1 ≫= token_uri
      ∧ token_imageURI t' = tokenOf afterRegistration1 1 ≫= token_imageURI
      ∧ resolveOwner (e_from zeroExpiryTransfer) afterRegistration1 = (fromOwner, b1)
      ∧ resolveOwner (e_to zeroExpiryTransfer) b1 = (toOwner, b2)
      ∧ token_owner t' = toOwner
      ∧ transfers b' = transfers afterRegistration1
                       ++ match toOwner, fromOwner with
                          | Some t, Some f => [transferOf zeroExpiryTransfer f t r]
                          | _, _ => []
                          end
      ∧ (Js.truthy (e_from zeroExpiryTransfer) = true →
         Js.truthy (e_to zeroExpiryTransfer) = true →
         ∃ f t, fromOwner = Some f ∧ toOwner = Some t
           ∧ transfers b' = transfers afterRegistration1
                            ++ [transferOf zeroExpiryTransfer f t r]).
Proof.
  assert (Hw : wf afterRegistration1)
    by (apply (bool_decide_unpack _); vm_compute; exact I).
  assert (Hp : contract_records_paired freshProcess)
    by (apply (bool_decide_unpack _); vm_compute; exact I).
  split_and!; [exact Hw|exact Hp|reflexivity|].
  exact (zero_expiration_is_no_expiration (calmWorld 1%nat) zeroExpiryTransfer
           afterRegistration1 freshProcess Hw Hp eq_refl).
Defined.

(** ** The contract singleton is resolved once *)

(** C8.  Once a call of [getOrCreateContractEntity] has returned, every
    later call in the same process, whatever happened to the store in
    between, returns the same entity and leaves the process as it is: no
    lookup, no insert. *)
Theorem contract_resolved_once p c p1 :
  getOrCreateContractEntity p = (Returned c, p1) →
  ∀ p2, contractEntity p2 = contractEntity p1 →
    getOrCreateContractEntity p2 = (Returned c, p2).
Proof.
  intros H p2 Hsame.
  apply getOrCreateContractEntity_Returned in H as [Hc _].
  apply getOrCreateContractEntity_cached. congruence.
Qed.

Lemma contract_resolved_once_witness :
  ∃ p1,
    getOrCreateContractEntity freshProcess = (Returned newGoodContract, p1)
    ∧ calls (store p1)
      = [CallGet KGoodContract contractAddress;
         CallInsert KGoodContract contractAddress;
         CallInsert KBadContract contractAddress]
    ∧ ∀ p2, contractEntity p2 = contractEntity p1 →
        getOrCreateContractEntity p2 = (Returned newGoodContract, p2).
Proof.
  eexists. split; [vm_compute; reflexivity|]. split; [reflexivity|].
  apply (contract_resolved_once freshProcess). vm_compute. reflexivity.
Defined.

(** ** One object per identity *)

(** Two ids of the [tokens] map never share a [Token] object, and all
    the turns for one token id work on the object the map holds for it. *)
Lemma token_object_per_id b k1 k2 r :
  wf b → tokens b !! k1 = Some r → tokens b !! k2 = Some r → k1 = k2.
Proof.
  intros (_ & Ht & _) H1 H2. apply Ht in H1, H2. simpl in *. congruence.
Qed.

(** An address that is already lowercase resolves to the object the
    [owners] map holds for it. *)
Lemma lowercase_address_resolves_to_held_object a b o :
  owners b !! a = Some o → resolveOwner (Some a) b = (Some o, b).
Proof. intros H. unfold resolveOwner. simpl. by rewrite H. Qed.

(** An address with an uppercase letter is never found, whatever the map
    holds for its identity: the turn makes a new object and puts it in
    the place of the one held. *)
Lemma uppercase_address_is_never_found a b :
  wf b → a ≠ "" → Js.toLowerCase a ≠ a →
  resolveOwner (Some a) b
  = (Some (mkOwner (allocated b) (Js.toLowerCase a)),
     set_owners (<[Js.toLowerCase a := mkOwner (allocated b) (Js.toLowerCase a)]> (owners b))
                (S (allocated b)) b).
Proof.
  intros (Ho & _) Ha Hl. unfold resolveOwner. simpl.
  destruct (owners b !! a) as [o|] eqn:Hk.
  - apply Ho in Hk as (_ & _ & Hfix). done.
  - by destruct a.
Qed.

(** C2 fails on the code: [owners.get] is given the address as the event
    spells it, the map is keyed by lowercase ids.  With two transfers of
    tokens 1 and 2 to the checksummed receiver [0xBb], the second turn
    misses the [Owner] made by the first, makes another one with the same
    id and replaces the map entry: the two tokens point to two different
    objects of one identity.  The lowercase sender [0xaa] is one object. *)
Theorem checksummed_address_makes_second_owner_object :
  ∃ b p o1 o2,
    run calmWorld checksummedBatch freshProcess = (Returned b, p)
    ∧ ownerField b 1 = Some o1 ∧ ownerField b 2 = Some o2
    ∧ owner_id o1 = "0xbb" ∧ owner_id o2 = "0xbb"
    ∧ owner_obj o1 ≠ owner_obj o2
    ∧ owners b !! "0xbb" = Some o2
    ∧ transfer_from <$> transfers b = [mkOwner 0 "0xaa"; mkOwner 0 "0xaa"]
    ∧ transfer_to <$> transfers b = [o1; o2].
Proof.
  eexists _, _, (mkOwner 1 "0xbb"), (mkOwner 2 "0xbb").
  split; [vm_compute; reflexivity|].
  split_and!; try (vm_compute; reflexivity). simpl. lia.
Qed.

(** ** The loop *)

Lemma reconcile_app world k l1 l2 b p :
  reconcile world k (l1 ++ l2) b p
  = match reconcile world k l1 b p with
    | (Returned b1, p1) => reconcile world (k + length l1) l2 b1 p1
    | (Thrown msg, p1) => (Thrown msg, p1)
    end.
Proof.
  revert k b p. induction l1 as [|e l1 IH]; intros k b p; simpl.
  - unfold ret. by rewrite Nat.add_0_r.
  - unfold bind. destruct (reconcileEvent (world k) e b p) as [[b1|msg] p1];
      [|done].
    rewrite IH. by replace (S k + length l1)%nat with (k + S (length l1))%nat by lia.
Qed.

Lemma reconcile_total world k l b p :
  wf b → contract_records_paired p →
  ∃ b' p', reconcile world k l b p = (Returned b', p')
    ∧ wf b' ∧ contract_records_paired p'.
Proof.
  revert k b p. induction l as [|e l IH]; intros k b p Hw Hp; simpl.
  - by exists b, p.
  - destruct (reconcileEvent_token (world k) e b p Hw Hp)
      as (b1 & p1 & fromOwner & bf & toOwner & bt & r & t0 & H & Hw1 & Hp1 & _).
    rewrite (bind_step _ _ _ _ _ H). by apply IH.
Qed.

(** A turn leaves the objects held for the other ids alone. *)
Lemma reconcileEvent_other_key amb e b p b' p' s :
  wf b → reconcileEvent amb e b p = (Returned b', p') →
  s ≠ pretty (e_tokenId e) →
  tokens b' !! s = tokens b !! s
  ∧ ∀ r, tokens b !! s = Some r → heap b' !! r = heap b !! r.
Proof.
  intros Hw H Hs.
  destruct (reconcileEvent_effect _ _ _ _ _ _ Hw H)
    as (fromOwner & b1 & toOwner & b2 & re & t0 & p3
        & _ & _ & _ & _ & _ & Hcase & _ & Hfr & _).
  destruct Hw as (_ & Ht & _). split.
  - destruct Hcase as [(_&_&_&->&_)|(c&_&_&_&_&->&_)]; [done|].
    by rewrite lookup_insert_ne.
  - intros r Hk. apply Hfr. intros ->.
    pose proof (Ht _ _ Hk) as Hid. simpl in Hid.
    destruct Hcase as [(Hke&_)|(c&_&Hre&_)].
    + apply Ht in Hke. simpl in Hke. congruence.
    + rewrite lookup_ge_None_2 in Hid by lia. done.
Qed.

Lemma reconcileEvent_other_token amb e b p b' p' id r :
  wf b → reconcileEvent amb e b p = (Returned b', p') →
  e_tokenId e ≠ id → tokens b !! pretty id = Some r →
  tokens b' !! pretty id = Some r ∧ heap b' !! r = heap b !! r.
Proof.
  intros Hw H Hne Hk.
  destruct (reconcileEvent_other_key _ _ _ _ _ _ (pretty id) Hw H) as [Hk' Hh].
  { intros Heq%(inj pretty). done. }
  split; [congruence|by apply Hh].
Qed.

Lemma reconcile_other_tokens world k l b p b' p' id r :
  wf b → reconcile world k l b p = (Returned b', p') →
  Forall (λ e, e_tokenId e ≠ id) l → tokens b !! pretty id = Some r →
  tokens b' !! pretty id = Some r ∧ heap b' !! r = heap b !! r.
Proof.
  revert k b p. induction l as [|e l IH]; intros k b p Hw H Hall Hk; simpl in H.
  - by injection H as <- <-.
  - apply bind_Returned in H as (b1 & p1 & H1 & H).
    apply Forall_cons in Hall as [Hne Hall].
    destruct (reconcileEvent_other_token _ _ _ _ _ _ _ _ Hw H1 Hne Hk) as [Hk1 Hh1].
    pose proof (reconcileEvent_wf _ _ _ _ _ _ Hw H1) as Hw1.
    destruct (IH _ _ _ Hw1 H Hall Hk1) as [Hk' Hh']. split; [done|congruence].
Qed.

(** Of two events for one token whose [to] owners are present and
    differ, the later decides the owner field after the loop when no
    event of that token follows it: the field is the owner object
    resolved for [to] in the turn of the later event. *)
Lemma later_event_decides_owner world k pre e1 mid e2 post b p :
  wf b → contract_records_paired p →
  e_tokenId e1 = e_tokenId e2 →
  Js.truthy (e_to e1) = true → Js.truthy (e_to e2) = true →
  Js.toLowerCase (Js.or_empty (e_to e1)) ≠ Js.toLowerCase (Js.or_empty (e_to e2)) →
  Forall (λ e, e_tokenId e ≠ e_tokenId e2) post →
  ∃ b' p' bm pm fromOwner b1 o b2,
    reconcile world k (pre ++ e1 :: mid) b p = (Returned bm, pm)
    ∧ resolveOwner (e_from e2) bm = (fromOwner, b1)
    ∧ resolveOwner (e_to e2) b1 = (Some o, b2)
    ∧ reconcile world k ((pre ++ e1 :: mid) ++ e2 :: post) b p = (Returned b', p')
    ∧ ownerField b' (e_tokenId e2) = Some o
    ∧ owner_id o = Js.toLowerCase (Js.or_empty (e_to e2))
    ∧ owner_id o ≠ Js.toLowerCase (Js.or_empty (e_to e1)).
Proof.
  intros Hw Hp Hid Hto1 Hto2 Hdiff Hpost.
  destruct (reconcile_total world k (pre ++ e1 :: mid) b p Hw Hp)
    as (bm & pm & Hm & Hwm & Hpm).
  set (k2 := (k + length (pre ++ e1 :: mid))%nat).
  destruct (reconcileEvent_token (world k2) e2 bm pm Hwm Hpm)
    as (b3 & p3 & fromOwner & b1 & toOwner & b2 & r & t0 & H & Hw3 & Hp3 & H1 & H2
        & _ & Hr & Ht & _).
  destruct (reconcile_total world (S k2) post b3 p3 Hw3 Hp3)
    as (b' & p' & Hrest & _ & _).
  assert (Ho1 : owners_wf (owners b1)).
  { eapply resolveOwner_wf; [apply Hwm|exact H1]. }
  destruct (resolveOwner_truthy _ _ Ho1 Hto2) as (o & bt & H2t & Hido & _).
  rewrite H2 in H2t. injection H2t as -> <-.
  exists b', p', bm, pm, fromOwner, b1, o, b2. split_and!; try done.
  - rewrite reconcile_app, Hm. simpl. fold k2. by rewrite (bind_step _ _ _ _ _ H).
  - destruct (reconcile_other_tokens _ _ _ _ _ _ _ _ r Hw3 Hrest Hpost Hr)
      as [Hk' Hh'].
    unfold ownerField, tokenOf in *. rewrite Hk'. rewrite Hr in Ht. simpl in *.
    rewrite Hh', Ht. simpl. unfold turnToken, expiryToken.
    destruct (e_expires e2) as [x|]; [|done].
    destruct (x =? 0); [done|]. destruct (x * 1000 <? _); [done|].
    by destruct (fieldsAtFinally _) as [[??]?].
  - congruence.
Qed.

(** C4 fails on the code, by the assignment of line 260 that C1 fails
    by.  The registration of token 1 to [0xAb] and its transfer to
    [0xCd] are two events for one token with different receivers, and
    after them the owner field holds the owner [0xcd]; with the renewal
    of the token behind them in the same batch the owner field after the
    loop is [undefined], not the receiver of the later of the two. *)
Theorem renewal_clears_the_later_owner :
  ∃ b2 p2 b3 p3,
    run calmWorld [registration1; transfer1] freshProcess = (Returned b2, p2)
    ∧ owner_id <$> ownerField b2 1 = Some "0xcd"
    ∧ run calmWorld [registration1; transfer1; laterRenewal1] freshProcess
      = (Returned b3, p3)
    ∧ ownerField b3 1 = None.
Proof. eexists _, _, _, _. split_and!; vm_compute; reflexivity. Qed.

(** ** Maps built and tables written entry by entry *)

Section upsert.
Context {V : Type}.
Implicit Types (m : gmap string V) (l : list (string * V)).

Lemma upsertAll_union m l : upsertAll m l = list_to_map (reverse l) ∪ m.
Proof.
  revert m. induction l as [|[k v] l IH]; intros m; simpl.
  - by rewrite (left_id_L ∅ (∪)).
  - unfold upsertAll in *. simpl. rewrite IH, reverse_cons, list_to_map_app.
    simpl. rewrite <-(assoc_L (∪)). f_equal.
    by rewrite insert_empty, <-insert_union_singleton_l.
Qed.

Lemma upsertAll_idemp m l : upsertAll (upsertAll m l) l = upsertAll m l.
Proof.
  rewrite !upsertAll_union, (assoc_L (∪)). f_equal. apply (idemp_L (∪)).
Qed.

Lemma Map_of_entries_eq l : Map_of_entries l = list_to_map (reverse l).
Proof.
  change (Map_of_entries l) with (upsertAll ∅ l).
  by rewrite upsertAll_union, (right_id_L ∅ (∪)).
Qed.

Lemma Map_of_entries_lookup_1 l k v : Map_of_entries l !! k = Some v → (k, v) ∈ l.
Proof.
  rewrite Map_of_entries_eq. intros H%elem_of_list_to_map_2.
  by apply elem_of_reverse.
Qed.

Lemma Map_of_entries_lookup_2 l k v :
  NoDup l.*1 → (k, v) ∈ l → Map_of_entries l !! k = Some v.
Proof.
  intros Hnd Hin. rewrite Map_of_entries_eq. apply elem_of_list_to_map_1.
  - by rewrite fmap_reverse, reverse_Permutation.
  - by apply elem_of_reverse.
Qed.

Lemma Map_of_entries_lookup_None l k : k ∉ l.*1 → Map_of_entries l !! k = None.
Proof.
  intros Hk. rewrite Map_of_entries_eq. apply not_elem_of_list_to_map_1.
  rewrite fmap_reverse. by rewrite elem_of_reverse.
Qed.

End upsert.

(** ** The ids collected from a batch *)

Lemma ownerIdOf_Some a k :
  ownerIdOf a = Some k →
  Js.truthy a = true ∧ k = Js.toLowerCase (Js.or_empty a)
  ∧ k ≠ "" ∧ Js.toLowerCase k = k.
Proof.
  unfold ownerIdOf. destruct (Js.truthy a) eqn:Ha; [|done]. intros [= <-].
  split_and!; try done.
  - apply truthy_Some in Ha as (s & -> & Hs). simpl.
    intros H%toLowerCase_empty. done.
  - apply toLowerCase_idemp.
Qed.

Lemma addresses_spec e k :
  k ∈ addresses e ↔ ownerIdOf (e_from e) = Some k ∨ ownerIdOf (e_to e) = Some k.
Proof.
  unfold addresses, ownerIdOf. rewrite elem_of_app.
  destruct (Js.truthy (e_from e)), (Js.truthy (e_to e));
    rewrite ?list_elem_of_singleton, ?elem_of_nil;
    intuition (try discriminate; congruence).
Qed.

Lemma ownersIds_spec evs k :
  k ∈ ownersIds evs → k ≠ "" ∧ Js.toLowerCase k = k.
Proof.
  unfold ownersIds. rewrite elem_of_list_to_set, list_elem_of_bind.
  intros (e & Hk & _). apply addresses_spec in Hk as [Hk|Hk];
    apply ownerIdOf_Some in Hk as (_ & _ & ? & ?); done.
Qed.

Lemma ownersIds_cons e evs :
  ownersIds (e :: evs) = list_to_set (addresses e) ∪ ownersIds evs.
Proof. unfold ownersIds. simpl. by rewrite list_to_set_app_L. Qed.

Lemma tokensIds_cons e evs :
  tokensIds (e :: evs) = {[pretty (e_tokenId e)]} ∪ tokensIds evs.
Proof. done. Qed.

(** ** The state before the loop *)

Lemma tokenView_lookup b s :
  tokenView b !! s = tokens b !! s ≫= λ r, projToken <$> heap b !! r.
Proof. unfold tokenView. apply lookup_omap. Qed.

Lemma tokenView_is_Some b s :
  wf b → is_Some (tokenView b !! s) ↔ is_Some (tokens b !! s).
Proof.
  intros (_ & Ht & _). rewrite tokenView_lookup.
  destruct (tokens b !! s) as [r|] eqn:Hk; simpl; [|done].
  apply Ht in Hk. simpl in Hk. destruct (heap b !! r); simpl; [|done].
  split; eauto.
Qed.

Lemma prefetch_spec evs p :
  ∃ b0 p0,
    prefetch evs p = (Returned b0, p0)
    ∧ wf b0 ∧ transfers b0 = []
    ∧ dom (owners b0) = ownerRows (store p) ∩ ownersIds evs
    ∧ tokenView b0
      = stripRow <$> filter (λ kv, kv.1 ∈ tokensIds evs) (tokenRows (store p))
    ∧ tables (store p0) = tables (store p)
    ∧ contractEntity p0 = contractEntity p
    ∧ requests p0 = requests p
    ∧ calls (store p0)
      = calls (store p) ++ [CallFindBy KToken (elements (tokensIds evs));
                            CallFindBy KOwner (elements (ownersIds evs))].
Proof.
  eexists _, _. split; [reflexivity|]. simpl.
  set (L := map_to_list (filter (λ kv, kv.1 ∈ tokensIds evs) (tokenRows (store p)))).
  set (loaded := (λ kv, tokenOfRow kv.1 kv.2) <$> L).
  set (ids := elements (ownerRows (store p) ∩ ownersIds evs)).
  assert (Hkeys : (imap (λ i t, (token_id t, i)) loaded).*1 = L.*1).
  { unfold loaded. rewrite fmap_imap, imap_fmap.
    rewrite (imap_ext _ (const fst)) by done. apply imap_const. }
  assert (Hokeys : ((λ o, (owner_id o, o)) <$> imap mkOwner ids).*1 = ids).
  { rewrite <-list_fmap_compose, fmap_imap.
    rewrite (imap_ext _ (const id)) by done. rewrite imap_const. apply list_fmap_id. }
  assert (Hoin : ∀ k o, (k, o) ∈ (λ o, (owner_id o, o)) <$> imap mkOwner ids →
                 owner_id o = k ∧ k ∈ ids).
  { intros k o (o' & [= -> ->] & Hin)%list_elem_of_fmap.
    apply elem_of_lookup_imap in Hin as (i & id & -> & Hl). simpl.
    split; [done|]. apply list_elem_of_lookup. eauto. }
  split_and!; try done.
  - (* wf *)
    split_and!.
    + intros k o Hk. simpl in Hk. apply Map_of_entries_lookup_1, Hoin in Hk as [Hid Hin].
      split; [done|]. apply elem_of_elements in Hin.
      apply elem_of_intersection in Hin as [_ Hin]. by apply ownersIds_spec in Hin.
    + intros k r Hk. simpl in *. apply Map_of_entries_lookup_1 in Hk.
      apply elem_of_lookup_imap in Hk as (i & t & [= -> ->] & Hl).
      fold loaded. by rewrite Hl.
    + by apply Forall_nil.
  - (* owners *)
    apply set_eq. intros k. rewrite elem_of_dom. simpl.
    rewrite <-(elem_of_elements (ownerRows (store p) ∩ _)). fold ids. split.
    + intros [o Hk]. by apply Map_of_entries_lookup_1, Hoin in Hk as [_ ?].
    + intros Hin. apply list_elem_of_lookup in Hin as [i Hi].
      exists (mkOwner i k). apply Map_of_entries_lookup_2.
      * rewrite Hokeys. apply NoDup_elements.
      * apply list_elem_of_fmap. exists (mkOwner i k). split; [done|].
        by apply (elem_of_lookup_imap_2 mkOwner).
  - (* tokens *)
    apply map_eq. intros s. rewrite tokenView_lookup, lookup_fmap. simpl.
    fold L loaded.
    destruct (filter _ (tokenRows (store p)) !! s) as [row|] eqn:Hs; simpl.
    + apply elem_of_map_to_list in Hs. fold L in Hs.
      apply list_elem_of_lookup in Hs as [i Hi].
      assert (Hl : loaded !! i = Some (tokenOfRow s row)).
      { unfold loaded. by rewrite list_lookup_fmap, Hi. }
      rewrite (Map_of_entries_lookup_2 _ s i).
      * simpl. by rewrite Hl.
      * rewrite Hkeys. apply NoDup_fst_map_to_list.
      * by apply (elem_of_lookup_imap_2 (λ i t, (token_id t, i)) _ _ _ Hl).
    + rewrite Map_of_entries_lookup_None; [done|].
      rewrite Hkeys. intros ((s' & row) & -> & Hin)%list_elem_of_fmap.
      apply elem_of_map_to_list in Hin. simpl in Hs. congruence.
  - by rewrite <-(assoc_L (++)).
Qed.

(** ** Owner objects of a lowercase batch *)

(** With lowercase addresses the map never replaces an object, and
    every owner a turn resolves is the held one. *)
Lemma resolveOwner_lowercase a b o b' :
  owners_wf (owners b) →
  Js.toLowerCase (Js.or_empty a) = Js.or_empty a →
  resolveOwner a b = (o, b') →
  (∀ k o', owners b !! k = Some o' → owners b' !! k = Some o')
  ∧ ∀ o', o = Some o' → held b' o'.
Proof.
  intros Hw Hl. unfold resolveOwner, held.
  destruct (owners b !! Js.or_empty a) as [o0|] eqn:Hk.
  - intros [= <- <-]. split; [done|]. intros o' [= <-].
    by destruct (Hw _ _ Hk) as [-> _].
  - destruct (Js.truthy a); intros [= <- <-]; [|by split].
    simpl. rewrite Hl. split.
    + intros k o' Hk'. rewrite lookup_insert_ne; [done|congruence].
    + intros o' [= <-]. simpl. by rewrite lookup_insert_eq.
Qed.

Lemma token_owner_turnToken amb e o t : token_owner (turnToken amb e o t) = o.
Proof.
  unfold turnToken, expiryToken. destruct (e_expires e) as [x|]; [|done].
  destruct (x =? 0); [done|]. destruct (x * 1000 <? _); [done|].
  by destruct (fieldsAtFinally _) as [[??]?].
Qed.

Lemma reconcileEvent_shared amb e b p b' p' :
  wf b → owners_shared b → lowercaseEvent e →
  reconcileEvent amb e b p = (Returned b', p') →
  owners_shared b'.
Proof.
  intros Hw [Hheap Hxs] [Hlf Hlt] H.
  destruct (reconcileEvent_effect _ _ _ _ _ _ Hw H)
    as (fromOwner & b1 & toOwner & b2 & r & t0 & p3
        & H1 & H2 & Ho & _ & _ & _ & Hl & Hfr & Hx & _).
  assert (Hwo : owners_wf (owners b)) by apply Hw.
  pose proof (resolveOwner_wf _ _ _ _ Hwo H1) as Hwo1.
  destruct (resolveOwner_lowercase _ _ _ _ Hwo Hlf H1) as [Hm1 Hf].
  destruct (resolveOwner_lowercase _ _ _ _ Hwo1 Hlt H2) as [Hm2 Ht].
  assert (Hmono : ∀ o, held b o → held b' o).
  { unfold held. intros o Hh. rewrite Ho. by apply Hm2, Hm1. }
  assert (Hfrom : ∀ f, fromOwner = Some f → held b' f).
  { unfold held in *. intros f Hf'. rewrite Ho. by apply Hm2, Hf. }
  assert (Hto : ∀ t, toOwner = Some t → held b' t).
  { unfold held in *. intros t Ht'. rewrite Ho. by apply Ht. }
  split.
  - apply Forall_lookup. intros i t Hi o Hown.
    destruct (decide (i = r)) as [->|Hne].
    + rewrite Hl in Hi. injection Hi as <-.
      rewrite token_owner_turnToken in Hown. by apply Hto.
    + rewrite Hfr in Hi by done. apply Hmono.
      by apply (proj1 (Forall_lookup _ _) Hheap i t Hi).
  - rewrite Hx. apply Forall_app. split.
    + eapply Forall_impl; [exact Hxs|]. intros x [??]. split; by apply Hmono.
    + unfold turnTransfers. destruct (skipsRest amb e); [by apply Forall_nil|].
      destruct toOwner as [t|], fromOwner as [f|]; try by apply Forall_nil.
      apply Forall_singleton. simpl. split; [by apply Hfrom|by apply Hto].
Qed.

(** For a batch spelled in lowercase the part of C2 on owners holds: after
    the prefetch and the loop, every owner a token or a transfer points
    to is the one object the [owners] map holds for that identity. *)
Lemma lowercase_batch_shares_owner_objects world evs p b p' :
  Forall lowercaseEvent evs →
  run world evs p = (Returned b, p') →
  wf b ∧ owners_shared b.
Proof.
  intros Hlow H. unfold run in H.
  apply bind_Returned in H as (b0 & p0 & H0 & H).
  destruct (prefetch_spec evs p) as (b0' & p0' & H0' & Hw0 & Hx0 & _).
  rewrite H0 in H0'. injection H0' as <- <-.
  assert (Hs0 : owners_shared b0).
  { split; [|rewrite Hx0; by apply Forall_nil].
    unfold prefetch, bind, store_findBy_Token, store_findBy_Owner, with_store, ret in H0.
    simpl in H0. injection H0 as <- _. simpl.
    apply Forall_fmap, Forall_true. intros [k row] o. done. }
  clear H0 Hx0. revert H. generalize 0%nat.
  revert b0 p0 Hw0 Hs0. induction Hlow as [|e evs He Hlow IH];
    intros b0 p0 Hw0 Hs0 k H; simpl in H.
  - by injection H as <- <-.
  - apply bind_Returned in H as (b1 & p1 & H1 & H).
    eapply IH; [| |exact H].
    + by eapply reconcileEvent_wf.
    + by eapply reconcileEvent_shared.
Qed.

(** ** The loop refines its row-level description *)

Lemma resolveOwner_view a b o b' :
  owners_wf (owners b) → resolveOwner a b = (o, b') →
  owner_id <$> o = ownerIdOf a
  ∧ dom (owners b') = dom (owners b) ∪ list_to_set (option_list (ownerIdOf a)).
Proof.
  intros Hw H. unfold ownerIdOf. destruct (Js.truthy a) eqn:Ha.
  - destruct (resolveOwner_truthy _ _ Hw Ha) as (o1 & b1 & H1 & Hid & _ & Hcase).
    rewrite H in H1. injection H1 as -> ->. simpl. rewrite Hid. split; [done|].
    destruct Hcase as [[Hk ->]|(Hk & _ & ->)].
    + pose proof (Hw _ _ Hk) as (Hid' & _ & Hl). rewrite Hl.
      apply elem_of_dom_2 in Hk. set_solver.
    + simpl. rewrite dom_insert_L, Hid. set_solver.
  - rewrite (resolveOwner_falsy _ _ Hw Ha) in H. injection H as <- <-. simpl.
    split; [done|]. set_solver.
Qed.

Lemma token_id_turnToken amb e o t : token_id (turnToken amb e o t) = token_id t.
Proof.
  unfold turnToken, expiryToken. destruct (e_expires e) as [x|]; [|done].
  destruct (x =? 0); [done|]. destruct (x * 1000 <? _); [done|].
  by destruct (fieldsAtFinally _) as [[??]?].
Qed.

Lemma projToken_turnToken amb e o t :
  owner_id <$> o = ownerIdOf (e_to e) →
  projToken (turnToken amb e o t) = applyPatch (eventPatch amb e) (projToken t).
Proof.
  intros Ho. unfold turnToken, expiryToken, eventPatch, fetches, Js.truthy_number.
  destruct (fieldsAtFinally _) as [[name uri] imageURI].
  unfold projToken, rowOfToken, applyPatch.
  destruct (e_expires e) as [x|]; simpl.
  - destruct (x =? 0); simpl.
    + rewrite <-Ho. by destruct o.
    + destruct (x * 1000 <? _); simpl; rewrite <-Ho; by destruct o.
  - rewrite <-Ho. by destruct o.
Qed.

Lemma reconcileEvent_view amb e b p b' p' :
  wf b → reconcileEvent amb e b p = (Returned b', p') →
  dom (owners b') = dom (owners b) ∪ list_to_set (addresses e)
  ∧ (∃ init,
       tokenView b' !! pretty (e_tokenId e)
         = Some (applyPatch (eventPatch amb e) init)
       ∧ ∀ row, tokenView b !! pretty (e_tokenId e) = Some row → init = row)
  ∧ (∀ s, s ≠ pretty (e_tokenId e) → tokenView b' !! s = tokenView b !! s)
  ∧ transferView b' = transferView b ++ eventTransferRows amb e
  ∧ (is_Some (tokens b !! pretty (e_tokenId e)) →
     store p' = store p ∧ contractEntity p' = contractEntity p).
Proof.
  intros Hw H.
  destruct (reconcileEvent_effect _ _ _ _ _ _ Hw H)
    as (fromOwner & b1 & toOwner & b2 & r & t0 & p3
        & H1 & H2 & Ho & _ & Hr & Hcase & Hl & Hfr & Hx & Hst & Hce & _).
  pose proof Hw as (Hwo & Hwt & Hwx).
  pose proof (resolveOwner_wf _ _ _ _ Hwo H1) as Hwo1.
  destruct (resolveOwner_view _ _ _ _ Hwo H1) as [Hidf Hdf].
  destruct (resolveOwner_view _ _ _ _ Hwo1 H2) as [Hidt Hdt].
  assert (Hid0 : token_id t0 = pretty (e_tokenId e)).
  { destruct Hcase as [(Hk&Hh&_)|(c&_&_&_&->&_)]; [|done].
    apply Hwt in Hk. simpl in Hk. rewrite Hh in Hk. by injection Hk. }
  assert (Hids : ∀ r', (r' < length (heap b))%nat →
                 token_id <$> heap b' !! r' = token_id <$> heap b !! r').
  { intros r' Hlt. destruct (decide (r' = r)) as [->|Hne]; [|by rewrite Hfr].
    destruct Hcase as [(_&Hh&_)|(c&_&->&_)]; [|lia].
    rewrite Hl, Hh. simpl. by rewrite token_id_turnToken. }
  split_and!.
  - rewrite Ho, Hdt, Hdf. unfold addresses, ownerIdOf.
    destruct (Js.truthy (e_from e)), (Js.truthy (e_to e)); set_solver.
  - exists (projToken t0). split.
    + rewrite tokenView_lookup, Hr. simpl. rewrite Hl. simpl.
      by rewrite projToken_turnToken.
    + intros row. rewrite tokenView_lookup.
      destruct Hcase as [(Hk&Hh&_)|(c&Hk&_)]; rewrite Hk; simpl; [|done].
      rewrite Hh. simpl. congruence.
  - intros s Hs.
    destruct (reconcileEvent_other_key _ _ _ _ _ _ _ Hw H Hs) as [Hk Hh].
    rewrite !tokenView_lookup, Hk. destruct (tokens b !! s) as [r'|] eqn:Hk'; [|done].
    simpl. by rewrite (Hh _ eq_refl).
  - unfold transferView. rewrite Hx, fmap_app. f_equal.
    + apply Forall_fmap_ext_1. eapply Forall_impl; [exact Hwx|].
      intros x Hlt. simpl in Hlt. unfold rowOfTransfer. by rewrite Hids.
    + unfold turnTransfers, eventTransferRows. destruct (skipsRest amb e); [done|].
      rewrite <-Hidf, <-Hidt in *. unfold ownerIdOf in Hidf, Hidt.
      destruct toOwner as [t|], fromOwner as [f|];
        destruct (Js.truthy (e_from e)), (Js.truthy (e_to e)); simpl in *; try done.
      injection Hidf as Hidf. injection Hidt as Hidt.
      unfold rowOfTransfer. simpl. rewrite Hl. simpl.
      by rewrite token_id_turnToken, Hid0, Hidf, Hidt.
  - intros [r' Hk]. destruct Hcase as [(_&_&->&_)|(c&Hn&_)]; [done|congruence].
Qed.

Lemma reconcileEvent_tokens_dom amb e b p b' p' :
  wf b → reconcileEvent amb e b p = (Returned b', p') →
  dom (tokens b) ⊆ dom (tokens b').
Proof.
  intros Hw H.
  destruct (reconcileEvent_effect _ _ _ _ _ _ Hw H)
    as (fromOwner & b1 & toOwner & b2 & r & t0 & p3
        & _ & _ & _ & _ & _ & Hcase & _).
  destruct Hcase as [(_&_&_&->&_)|(c&_&_&_&_&->&_)]; [done|].
  apply dom_insert_subseteq.
Qed.

Lemma applyPatch_then P Q row :
  applyPatch (thenPatch P Q) row = applyPatch Q (applyPatch P row).
Proof.
  destruct P as [o1 n1 i1 u1 x1], Q as [[?|] [?|] [?|] [?|] [?|]]; reflexivity.
Qed.

Lemma applyPatch_noPatch row : applyPatch noPatch row = row.
Proof. by destruct row. Qed.

Lemma reconcile_view world k evs b p b' p' :
  wf b → reconcile world k evs b p = (Returned b', p') →
  dom (owners b') = dom (owners b) ∪ ownersIds evs
  ∧ (∀ s,
       tokenView b' !! s = None ∧ tokenView b !! s = None ∧ s ∉ tokensIds evs
       ∨ ∃ init,
           tokenView b' !! s = Some (applyPatch (batchPatch world k evs s) init)
           ∧ (∀ row, tokenView b !! s = Some row → init = row)
           ∧ (tokenView b !! s = None → s ∈ tokensIds evs))
  ∧ transferView b' = transferView b ++ batchTransferRows world k evs
  ∧ (tokensIds evs ⊆ dom (tokens b) →
     store p' = store p ∧ contractEntity p' = contractEntity p).
Proof.
  revert k b p. induction evs as [|e evs IH]; intros k b p Hw H; simpl in H.
  - injection H as <- <-. split_and!.
    + unfold ownersIds. simpl. set_solver.
    + intros s. destruct (tokenView b !! s) as [row|] eqn:Hs.
      * right. exists row. simpl. rewrite applyPatch_noPatch.
        split_and!; [done|congruence|done].
      * left. split_and!; done.
    + simpl. by rewrite app_nil_r.
    + done.
  - apply bind_Returned in H as (b1 & p1 & H1 & H).
    pose proof (reconcileEvent_wf _ _ _ _ _ _ Hw H1) as Hw1.
    destruct (reconcileEvent_view _ _ _ _ _ _ Hw H1)
      as (Ho1 & (init0 & Hs1 & Hinit0) & Hother & Hx1 & Hst1).
    pose proof (reconcileEvent_tokens_dom _ _ _ _ _ _ Hw H1) as Hdom1.
    destruct (IH _ _ _ Hw1 H) as (Ho & Hs & Hx & Hst).
    split_and!.
    + rewrite Ho, Ho1, ownersIds_cons. set_solver.
    + intros s. rewrite tokensIds_cons. simpl.
      destruct (decide (pretty (e_tokenId e) = s)) as [<-|Hne].
      * right. exists init0.
        destruct (Hs (pretty (e_tokenId e)))
          as [(_ & Hnone & _)|(init1 & Hs' & Hinit1 & _)]; [congruence|].
        rewrite Hs', applyPatch_then, (Hinit1 _ Hs1). split_and!; try done.
        set_solver.
      * rewrite <-(Hother s) by done.
        destruct (Hs s) as [(Hn' & Hn1 & Hnin)|(init1 & Hs' & Hinit1 & Hin)].
        -- left. split_and!; try done. set_solver.
        -- right. exists init1. split_and!; try done. set_solver.
    + rewrite Hx, Hx1. simpl. by rewrite (assoc_L (++)).
    + intros Hsub. rewrite tokensIds_cons in Hsub.
      destruct Hst1 as [Hst1 Hce1].
      { apply elem_of_dom. set_solver. }
      destruct Hst as [Hst Hce]; [set_solver|]. split; congruence.
Qed.

(** ** What [persist] writes *)

Lemma rowOfToken_merge old t : rowOfToken old t = mergeRow (projToken t) old.
Proof.
  unfold rowOfToken, mergeRow, projToken. simpl.
  by destruct (token_owner t), (token_contract t).
Qed.

Lemma foldl_upsertToken_lookup (L : list (string * nat)) (h : list Token) tbl s :
  NoDup L.*1 →
  (∀ k r, (k, r) ∈ L → token_id <$> h !! r = Some k) →
  foldl upsertToken tbl (omap (λ r, h !! r) L.*2) !! s
  = match (list_to_map L : gmap string nat) !! s ≫= (λ r, h !! r) with
    | Some t => Some (rowOfToken (tbl !! s) t)
    | None => tbl !! s
    end.
Proof.
  revert tbl. induction L as [|[k r] L IH]; intros tbl Hnd Hin; [done|].
  apply NoDup_cons in Hnd as [Hk Hnd].
  pose proof (Hin k r (list_elem_of_here _ _)) as Hr.
  destruct (h !! r) as [t|] eqn:Hh; [|done]. injection Hr as Hid.
  simpl. rewrite Hh. simpl. rewrite IH; [|done|].
  2: { intros k' r' Hin'. apply Hin. by apply list_elem_of_further. }
  unfold upsertToken at 1 2. rewrite Hid.
  destruct (decide (k = s)) as [->|Hne].
  - rewrite (not_elem_of_list_to_map_1 L s Hk), !lookup_insert_eq. simpl.
    by rewrite Hh.
  - rewrite !lookup_insert_ne by done. done.
Qed.

Lemma persist_spec b p :
  wf b →
  ∃ p',
    persist b p = (Returned tt, p')
    ∧ goodContracts (store p') = goodContracts (store p)
    ∧ badContracts (store p') = badContracts (store p)
    ∧ ownerRows (store p') = ownerRows (store p) ∪ dom (owners b)
    ∧ (∀ s, tokenRows (store p') !! s
            = match tokenView b !! s with
              | Some v => Some (mergeRow v (tokenRows (store p) !! s))
              | None => tokenRows (store p) !! s
              end)
    ∧ transferRows (store p') = upsertAll (transferRows (store p)) (transferView b)
    ∧ contractEntity p' = contractEntity p
    ∧ requests p' = requests p
    ∧ ∃ os ts xs,
        calls (store p')
        = calls (store p) ++ [CallSave KOwner os; CallSave KToken ts; CallSave KTransfer xs].
Proof.
  intros (Hwo & Hwt & _). eexists. split; [reflexivity|]. simpl.
  split_and!; try done.
  - f_equal. apply set_eq. intros k.
    rewrite elem_of_list_to_set, list_elem_of_fmap, elem_of_dom. unfold values. split.
    + intros (o & -> & ((k' & o') & -> & Hin)%list_elem_of_fmap).
      apply elem_of_map_to_list in Hin. simpl.
      destruct (Hwo _ _ Hin) as [-> _]. eauto.
    + intros [o Hk]. exists o. split; [by destruct (Hwo _ _ Hk)|].
      apply list_elem_of_fmap. exists (k, o). split; [done|].
      by apply elem_of_map_to_list.
  - intros s. unfold values.
    rewrite foldl_upsertToken_lookup.
    + rewrite list_to_map_to_list, tokenView_lookup.
      destruct (tokens b !! s) as [r|]; simpl; [|done].
      destruct (heap b !! r) as [t|]; simpl; [|done].
      by rewrite rowOfToken_merge.
    + apply NoDup_fst_map_to_list.
    + intros k r Hin%elem_of_map_to_list. by apply Hwt in Hin.
  - unfold upsertAll, transferView. by rewrite foldl_fmap.
  - eexists _, _, _. by rewrite <-!(assoc_L (++)).
Qed.

(** ** The rows and the call log across the loop *)

Lemma getOrCreateContractEntity_rows p o p' :
  getOrCreateContractEntity p = (o, p') →
  ownerRows (store p') = ownerRows (store p)
  ∧ tokenRows (store p') = tokenRows (store p)
  ∧ transferRows (store p') = transferRows (store p)
  ∧ noSaveBetween p p'.
Proof.
  unfold getOrCreateContractEntity, bind, get_contractEntity, ret, noSaveBetween.
  destruct (contractEntity p) as [c0|].
  { intros [= <- <-]. split_and!; try done. exists []. by rewrite app_nil_r. }
  unfold store_get_GoodContract, set_contractEntity,
    store_insert_GoodContract, store_insert_BadContract, with_store; simpl.
  destruct (goodContracts (store p) !! contractAddress) as [g|] eqn:Hg; simpl.
  { intros [= <- <-]. simpl. split_and!; try done. eexists. split; [done|].
    by repeat constructor. }
  rewrite Hg; simpl.
  destruct (badContracts (store p) !! contractAddress) as [bd|]; simpl;
    intros [= <- <-]; simpl; split_and!; try done;
    (eexists; split; [by rewrite <-!(assoc_L (++))|by repeat constructor]).
Qed.

Lemma noSaveBetween_refl p p' : store p' = store p → noSaveBetween p p'.
Proof. intros H. exists []. by rewrite H, app_nil_r. Qed.

Lemma noSaveBetween_trans p1 p2 p3 :
  noSaveBetween p1 p2 → noSaveBetween p2 p3 → noSaveBetween p1 p3.
Proof.
  intros (l1 & H1 & Hf1) (l2 & H2 & Hf2). exists (l1 ++ l2).
  rewrite H2, H1, (assoc_L (++)). split; [done|]. by apply Forall_app.
Qed.

Lemma reconcileEvent_rows amb e b p o p' :
  reconcileEvent amb e b p = (o, p') →
  ownerRows (store p') = ownerRows (store p)
  ∧ tokenRows (store p') = tokenRows (store p)
  ∧ transferRows (store p') = transferRows (store p)
  ∧ noSaveBetween p p'.
Proof.
  unfold reconcileEvent.
  destruct (resolveOwner (e_from e) b) as [fromOwner b1].
  destruct (resolveOwner (e_to e) b1) as [toOwner b2].
  unfold bind at 1. unfold resolveToken.
  destruct (tokens b2 !! pretty (e_tokenId e)) as [r|].
  - unfold ret at 1.
    destruct (expiryBlock_cases amb e r (assign r (with_owner toOwner) b2) p)
      as [[_ H]|[(x & _ & _ & _ & H)|(x & n & u & i & _ & _ & _ & _ & H)]];
      rewrite (bind_step _ _ _ _ _ H); intros [= <- <-]; simpl;
      split_and!; try done; by apply noSaveBetween_refl.
  - unfold bind at 1.
    destruct (getOrCreateContractEntity p) as [[c|msg] p3] eqn:Hc;
      apply getOrCreateContractEntity_rows in Hc as (Ho & Ht & Hx & Hs).
    + unfold ret at 1. cbv beta iota.
      set (b3 := mkBatch _ _ _ _ _). set (r := length (heap b2)).
      destruct (expiryBlock_cases amb e r (assign r (with_owner toOwner) b3) p3)
        as [[_ H]|[(x & _ & _ & _ & H)|(x & n & u & i & _ & _ & _ & _ & H)]];
        rewrite (bind_step _ _ _ _ _ H); intros [= <- <-]; simpl;
        split_and!; try done;
        (eapply noSaveBetween_trans; [exact Hs|by apply noSaveBetween_refl]).
    + intros [= <- <-]. done.
Qed.

Lemma reconcile_rows world k evs b p o p' :
  reconcile world k evs b p = (o, p') →
  ownerRows (store p') = ownerRows (store p)
  ∧ tokenRows (store p') = tokenRows (store p)
  ∧ transferRows (store p') = transferRows (store p)
  ∧ noSaveBetween p p'.
Proof.
  revert k b p. induction evs as [|e evs IH]; intros k b p; simpl.
  - intros [= <- <-]. split_and!; try done. by apply noSaveBetween_refl.
  - unfold bind. destruct (reconcileEvent (world k) e b p) as [[b1|msg] p1] eqn:H1;
      apply reconcileEvent_rows in H1 as (Ho1 & Ht1 & Hx1 & Hs1).
    + intros H. apply IH in H as (Ho & Ht & Hx & Hs).
      split_and!; try congruence. by eapply noSaveBetween_trans.
    + intros [= <- <-]. done.
Qed.

(** ** Batches whose tokens are all in the store *)

Lemma reconcileEvent_total_existing amb e b p :
  is_Some (tokens b !! pretty (e_tokenId e)) →
  ∃ b' p', reconcileEvent amb e b p = (Returned b', p').
Proof.
  intros [r Hk]. unfold reconcileEvent.
  destruct (resolveOwner (e_from e) b) as [fromOwner b1] eqn:H1.
  destruct (resolveOwner (e_to e) b1) as [toOwner b2] eqn:H2.
  apply resolveOwner_frame in H1 as (Ht1 & _). apply resolveOwner_frame in H2 as (Ht2 & _).
  assert (H3 : resolveToken (pretty (e_tokenId e)) b2 p = (Returned (r, b2), p)).
  { unfold resolveToken. by rewrite Ht2, Ht1, Hk. }
  rewrite (bind_step _ _ _ _ _ H3).
  destruct (expiryBlock_cases amb e r (assign r (with_owner toOwner) b2) p)
    as [[_ H]|[(x & _ & _ & _ & H)|(x & n & u & i & _ & _ & _ & _ & H)]];
    rewrite (bind_step _ _ _ _ _ H); by eexists _, _.
Qed.

Lemma reconcile_total_existing world k evs b p :
  wf b → tokensIds evs ⊆ dom (tokens b) →
  ∃ b' p', reconcile world k evs b p = (Returned b', p') ∧ wf b'.
Proof.
  revert k b p. induction evs as [|e evs IH]; intros k b p Hw Hsub; simpl.
  - by exists b, p.
  - rewrite tokensIds_cons in Hsub.
    destruct (reconcileEvent_total_existing (world k) e b p) as (b1 & p1 & H1).
    { apply elem_of_dom. set_solver. }
    rewrite (bind_step _ _ _ _ _ H1).
    pose proof (reconcileEvent_wf _ _ _ _ _ _ Hw H1) as Hw1.
    pose proof (reconcileEvent_tokens_dom _ _ _ _ _ _ Hw H1) as Hdom.
    apply IH; [done|set_solver].
Qed.

Lemma reconcile_wf world k evs b p b' p' :
  wf b → reconcile world k evs b p = (Returned b', p') → wf b'.
Proof.
  revert k b p. induction evs as [|e evs IH]; intros k b p Hw H; simpl in H.
  - by injection H as <- <-.
  - apply bind_Returned in H as (b1 & p1 & H1 & H).
    eapply IH; [|exact H]. by eapply reconcileEvent_wf.
Qed.

(** ** The whole batch handler *)

Lemma saveENSData_Returned world evs p p' :
  saveENSData world evs p = (Returned tt, p') →
  ∃ b0 p0 b p1,
    prefetch evs p = (Returned b0, p0)
    ∧ reconcile world 0 evs b0 p0 = (Returned b, p1)
    ∧ persist b p1 = (Returned tt, p').
Proof.
  unfold saveENSData. intros (b0 & p0 & H0 & H)%bind_Returned.
  apply bind_Returned in H as (b & p1 & H1 & H). by exists b0, p0, b, p1.
Qed.

(** The tables after a batch, from the tables before it. *)
Lemma saveENSData_tables world evs p p' :
  saveENSData world evs p = (Returned tt, p') →
  ownerRows (store p') = ownerRows (store p) ∪ ownersIds evs
  ∧ (∀ s, s ∉ tokensIds evs → tokenRows (store p') !! s = tokenRows (store p) !! s)
  ∧ (∀ s, s ∈ tokensIds evs →
       ∃ init,
         tokenRows (store p') !! s
           = Some (mergeRow (applyPatch (batchPatch world 0 evs s) init)
                            (tokenRows (store p) !! s))
         ∧ ∀ row, tokenRows (store p) !! s = Some row → init = stripRow row)
  ∧ transferRows (store p')
    = upsertAll (transferRows (store p)) (batchTransferRows world 0 evs)
  ∧ (tokensIds evs ⊆ dom (tokenRows (store p)) →
     goodContracts (store p') = goodContracts (store p)
     ∧ badContracts (store p') = badContracts (store p)
     ∧ contractEntity p' = contractEntity p).
Proof.
  intros (b0 & p0 & b & p1 & H0 & H1 & H2)%saveENSData_Returned.
  destruct (prefetch_spec evs p)
    as (b0' & p0' & H0' & Hw0 & Hx0 & Ho0 & Hv0 & Htab0 & Hce0 & _).
  rewrite H0 in H0'. injection H0' as <- <-.
  injection Htab0 as Hg0 Hb0 Hor0 Htr0 Hxr0.
  pose proof (reconcile_wf _ _ _ _ _ _ _ Hw0 H1) as Hw.
  destruct (reconcile_view _ _ _ _ _ _ _ Hw0 H1) as (Ho & Hs & Hx & Hst).
  destruct (reconcile_rows _ _ _ _ _ _ _ H1) as (Hor1 & Htr1 & Hxr1 & _).
  destruct (persist_spec b p1 Hw)
    as (p2 & H2' & Hg2 & Hb2 & Hor2 & Htr2 & Hxr2 & Hce2 & _).
  rewrite H2 in H2'. injection H2' as <-.
  assert (Hv0s : ∀ s, tokenView b0 !! s
                 = if decide (s ∈ tokensIds evs)
                   then stripRow <$> tokenRows (store p) !! s else None).
  { intros s. rewrite Hv0, lookup_fmap, map_lookup_filter. simpl.
    destruct (tokenRows (store p) !! s) as [row|]; simpl.
    - destruct (decide (s ∈ tokensIds evs));
        [rewrite option_guard_True by done|rewrite option_guard_False by done]; done.
    - by destruct (decide (s ∈ tokensIds evs)). }
  split_and!.
  - rewrite Hor2, Hor1, Hor0, Ho, Ho0. set_solver.
  - intros s Hs'. rewrite Htr2, Htr1, Htr0.
    destruct (Hs s) as [(-> & _)|(init & _ & _ & Hin)]; [done|].
    exfalso. apply Hs', Hin. rewrite Hv0s. by case_decide.
  - intros s Hs'. rewrite Htr2, Htr1, Htr0.
    destruct (Hs s) as [(_ & _ & Hnin)|(init & -> & Hinit & _)]; [done|].
    exists init. split; [done|]. intros row Hrow. apply Hinit.
    rewrite Hv0s, Hrow. by case_decide.
  - rewrite Hxr2, Hxr1, Hxr0, Hx. unfold transferView at 1. by rewrite Hx0.
  - intros Hsub. destruct Hst as [Hst Hce].
    + intros s Hs'. apply elem_of_dom, tokenView_is_Some; [done|].
      rewrite Hv0s. case_decide; [|done]. apply Hsub, elem_of_dom in Hs'.
      destruct Hs' as [row ->]. by eexists.
    + rewrite Hg2, Hb2, Hce2, Hst, Hce. done.
Qed.

Lemma saveENSData_total_existing world evs p :
  tokensIds evs ⊆ dom (tokenRows (store p)) →
  ∃ p', saveENSData world evs p = (Returned tt, p').
Proof.
  intros Hsub. unfold saveENSData.
  destruct (prefetch_spec evs p)
    as (b0 & p0 & H0 & Hw0 & _ & _ & Hv0 & _).
  rewrite (bind_step _ _ _ _ _ H0).
  destruct (reconcile_total_existing world 0 evs b0 p0 Hw0) as (b & p1 & H1 & Hw).
  { intros s Hs. apply elem_of_dom, tokenView_is_Some; [done|].
    rewrite Hv0, lookup_fmap, map_lookup_filter.
    pose proof (Hsub s Hs) as Hrow. apply elem_of_dom in Hrow as [row ->]. simpl.
    rewrite option_guard_True by done. by eexists. }
  rewrite (bind_step _ _ _ _ _ H1).
  destruct (persist_spec b p1 Hw) as (p' & H2 & _). by exists p'.
Qed.


(** ** Feeding a batch twice *)

Lemma merge_patch_idemp P init old :
  mergeRow (applyPatch P (stripRow (mergeRow (applyPatch P init) old)))
           (Some (mergeRow (applyPatch P init) old))
  = mergeRow (applyPatch P init) old.
Proof.
  destruct P as [[[?|]|] [?|] [?|] [?|] [?|]], old as [?|]; reflexivity.
Qed.

(** C7, amended.  When the handler has returned for a batch, running it
    again on the same batch, with the clock and the metadata service
    answering the second run as they answered the first and every answer
    carrying the fields the code reads, returns and leaves every table as
    the first run left it: the rows are written under the same
    identities, the transfers under the same synthetic ids.  (The second
    condition keeps the batch where the upsert of the model is the
    library's, see [rowOfToken]; the proof does not need it.) *)
Theorem saveENSData_idempotent world evs p p1 :
  answersCarryFields world →
  saveENSData world evs p = (Returned tt, p1) →
  ∃ p2,
    saveENSData world evs p1 = (Returned tt, p2)
    ∧ tables (store p2) = tables (store p1).
Proof.
  intros _ H.
  destruct (saveENSData_tables _ _ _ _ H) as (Ho1 & Hout1 & Hin1 & Hx1 & _).
  assert (Hsub : tokensIds evs ⊆ dom (tokenRows (store p1))).
  { intros s Hs. apply elem_of_dom. destruct (Hin1 s Hs) as (init & -> & _).
    by eexists. }
  destruct (saveENSData_total_existing world evs p1 Hsub) as (p2 & H2).
  exists p2. split; [done|].
  destruct (saveENSData_tables _ _ _ _ H2) as (Ho2 & Hout2 & Hin2 & Hx2 & Hc2).
  destruct (Hc2 Hsub) as (Hg & Hb & _).
  assert (Ho : ownerRows (store p2) = ownerRows (store p1)).
  { rewrite Ho2, Ho1. set_solver. }
  assert (Ht : tokenRows (store p2) = tokenRows (store p1)).
  { apply map_eq. intros s. destruct (decide (s ∈ tokensIds evs)) as [Hs|Hs].
    - destruct (Hin1 s Hs) as (init1 & Hrow1 & _).
      destruct (Hin2 s Hs) as (init2 & Hrow2 & Hinit2).
      rewrite Hrow2, (Hinit2 _ Hrow1), Hrow1. f_equal. apply merge_patch_idemp.
    - by apply Hout2. }
  assert (Hx : transferRows (store p2) = transferRows (store p1)).
  { rewrite Hx2, Hx1. apply upsertAll_idemp. }
  unfold tables. by rewrite Hg, Hb, Ho, Ht, Hx.
Qed.

Lemma saveENSData_idempotent_witness :
  answersCarryFields calmWorld
  ∧ ∃ p1,
      saveENSData calmWorld sampleBatch freshProcess = (Returned tt, p1)
      ∧ ∃ p2,
          saveENSData calmWorld sampleBatch p1 = (Returned tt, p2)
          ∧ tables (store p2) = tables (store p1).
Proof.
  assert (Hw : answersCarryFields calmWorld).
  { intros k url. simpl. split_and!; by eexists. }
  split; [exact Hw|].
  eexists. split; [vm_compute; reflexivity|].
  apply (saveENSData_idempotent calmWorld sampleBatch freshProcess _ Hw).
  vm_compute. reflexivity.
Defined.

(** C7 as stated fails: the enrichment is made again when a batch is
    delivered again, and the clock and the service need not answer as
    they did.  The sample batch saved with the service up stores the name
    [a.eth] for token 1; saved again with the service down it stores the
    empty string. *)
Lemma redelivery_with_service_down_counterexample :
  ¬ (∀ world world' evs p p1 p2,
       saveENSData world evs p = (Returned tt, p1) →
       saveENSData world' evs p1 = (Returned tt, p2) →
       tables (store p2) = tables (store p1)).
Proof.
  intros H.
  assert (Hrow : tokenRows (store (saveENSData stormyWorld sampleBatch
                                      (saveENSData calmWorld sampleBatch freshProcess).2).2)
                 = tokenRows (store (saveENSData calmWorld sampleBatch freshProcess).2)).
  { assert (Ht : ∀ s s', tables s = tables s' → tokenRows s = tokenRows s').
    { intros s s'. unfold tables. by intros [= _ _ _ -> _]. }
    apply Ht. apply (H calmWorld stormyWorld sampleBatch freshProcess).
    - vm_compute. reflexivity.
    - vm_compute. reflexivity. }
  apply (f_equal (λ m, m !! "1" ≫= tr_name)) in Hrow.
  vm_compute in Hrow. discriminate.
Qed.

(** ** The order of the writes *)




(** * Further properties of the processor *)

(** ** Synthetic ids *)

Lemma dashFree_split a a' r r' :
  dashFree a → dashFree a' →
  a +:+ "-" +:+ r = a' +:+ "-" +:+ r' → a = a' ∧ r = r'.
Proof.
  revert a'. induction a as [|c a IH]; intros [|c' a'] Ha Ha' H; simpl in *.
  - by injection H.
  - injection H as <- _. by destruct Ha'.
  - injection H as -> _. by destruct Ha.
  - injection H as -> H. destruct Ha as [_ Ha], Ha' as [_ Ha'].
    by destruct (IH _ Ha Ha' H) as [-> ->].
Qed.

Lemma pretty_N_go_dashFree x s : dashFree s → dashFree (pretty_N_go x s).
Proof.
  revert s. induction (N.lt_wf_0 x) as [x _ IH]; intros s Hs.
  assert (x = 0 ∨ 0 < x)%N as [->|Hx] by lia.
  - by rewrite pretty_N_go_0.
  - rewrite pretty_N_go_step by done. apply IH.
    + by apply N.div_lt.
    + split; [|done]. unfold pretty_N_char. by repeat case_match.
Qed.

Lemma pretty_Z_dashFree (x : Z) : 0 ≤ x → dashFree (pretty x).
Proof.
  intros Hx. unfold pretty, pretty_Z.
  destruct x as [|x|x]; [by simpl| |lia].
  unfold pretty, pretty_positive, pretty, pretty_N.
  case_decide; [by simpl|]. by apply pretty_N_go_dashFree.
Qed.

(** X1.  The synthetic id tells logs apart: for hashes and addresses
    without a dash and token ids that are not negative, two logs with the
    same id have the same transaction hash, address, token id and log
    index. *)
Theorem syntheticId_inj ctx ctx' id id' :
  dashFree (transaction_hash ctx) → dashFree (transaction_hash ctx') →
  dashFree (evmLog_address ctx) → dashFree (evmLog_address ctx') →
  0 ≤ id → 0 ≤ id' →
  syntheticId ctx id = syntheticId ctx' id' →
  transaction_hash ctx = transaction_hash ctx'
  ∧ evmLog_address ctx = evmLog_address ctx'
  ∧ id = id'
  ∧ evmLog_index ctx = evmLog_index ctx'.
Proof.
  intros Hh Hh' Ha Ha' Hi Hi' H. unfold syntheticId in H.
  apply dashFree_split in H as [Hhash H]; [|done..].
  apply dashFree_split in H as [Haddr H]; [|done..].
  apply dashFree_split in H as [Hid H]; [|by apply pretty_Z_dashFree..].
  apply (inj pretty) in Hid, H. done.
Qed.

Lemma syntheticId_inj_witness :
  dashFree (transaction_hash ctx1) ∧ dashFree (evmLog_address ctx1)
  ∧ 0 ≤ 1
  ∧ syntheticId ctx1 1 = syntheticId ctx1 1
  ∧ transaction_hash ctx1 = transaction_hash ctx1
  ∧ evmLog_address ctx1 = evmLog_address ctx1
  ∧ 1 = 1
  ∧ evmLog_index ctx1 = evmLog_index ctx1.
Proof.
  assert (Hh : dashFree (transaction_hash ctx1)) by (simpl; repeat split; discriminate).
  assert (Ha : dashFree (evmLog_address ctx1)) by (simpl; repeat split; discriminate).
  assert (Hi : 0 ≤ 1) by lia.
  split_and!; [exact Hh|exact Ha|exact Hi|reflexivity|..];
    apply (syntheticId_inj ctx1 ctx1 1 1 Hh Hh Ha Ha Hi Hi eq_refl).
Defined.

(** Two logs of one transaction and one token get different ids when
    their log indexes differ. *)
Lemma syntheticId_index hash address index index' ts height id :
  index ≠ index' →
  syntheticId (mkLogContext hash address index ts height) id
  ≠ syntheticId (mkLogContext hash address index' ts height) id.
Proof.
  intros Hne H. unfold syntheticId in H. simpl in H.
  repeat apply (inj (String.append _)) in H. by apply (inj pretty) in H.
Qed.

(** ** The contract singleton, case by case *)

Lemma resolver_state_after_throw p msg p' :
  getOrCreateContractEntity p = (Thrown msg, p') →
  contractEntity p' = Some newGoodContract.
Proof.
  unfold getOrCreateContractEntity, bind, get_contractEntity, ret.
  destruct (contractEntity p) as [c0|] eqn:Hc; [done|].
  unfold store_get_GoodContract, set_contractEntity,
    store_insert_GoodContract, store_insert_BadContract, with_store; simpl.
  destruct (goodContracts (store p) !! contractAddress) as [g|] eqn:Hg; simpl; [done|].
  rewrite Hg; simpl.
  destruct (badContracts (store p) !! contractAddress) as [bd|] eqn:Hb; simpl; [|done].
  by intros [= <- <-].
Qed.

Lemma getOrCreateContractEntity_throws p :
  contractEntity p = None →
  goodContracts (store p) !! contractAddress = None →
  is_Some (badContracts (store p) !! contractAddress) →
  ∃ msg p', getOrCreateContractEntity p = (Thrown msg, p').
Proof.
  intros Hc Hg [bd Hb].
  unfold getOrCreateContractEntity, bind, get_contractEntity, ret. rewrite Hc.
  unfold store_get_GoodContract, set_contractEntity,
    store_insert_GoodContract, store_insert_BadContract, with_store; simpl.
  rewrite Hg; simpl. rewrite Hg; simpl. rewrite Hb; simpl. by eexists _, _.
Qed.

(** X2.  [getOrCreateContractEntity] throws exactly when the cache is
    empty, the store has no [GoodContract] under the contract address and
    has a [BadContract] under it: the second insert meets the row.  The
    module variable was assigned before the inserts, so after the throw
    it holds the new [GoodContract]. *)
Theorem resolver_throws_iff p :
  ((∃ msg p', getOrCreateContractEntity p = (Thrown msg, p'))
   ↔ contractEntity p = None
     ∧ goodContracts (store p) !! contractAddress = None
     ∧ is_Some (badContracts (store p) !! contractAddress))
  ∧ ∀ msg p',
      getOrCreateContractEntity p = (Thrown msg, p') →
      contractEntity p' = Some newGoodContract.
Proof.
  split; [|apply resolver_state_after_throw].
  split; [|intros (Hc & Hg & Hb); by apply getOrCreateContractEntity_throws].
  unfold getOrCreateContractEntity, bind, get_contractEntity, ret.
  destruct (contractEntity p) as [c0|] eqn:Hc; [by intros (? & ? & ?)|].
  unfold store_get_GoodContract, set_contractEntity,
    store_insert_GoodContract, store_insert_BadContract, with_store; simpl.
  destruct (goodContracts (store p) !! contractAddress) as [g|] eqn:Hg; simpl;
    [by intros (? & ? & ?)|].
  rewrite Hg; simpl.
  destruct (badContracts (store p) !! contractAddress) as [bd|] eqn:Hb; simpl;
    [by eauto|by intros (? & ? & ?)].
Qed.

(** X3.  A call that returns has either left the two contract tables as
    they were (the entity was cached or found in the store) or, when the
    store had no [GoodContract] under the contract address, inserted the
    [GoodContract] and the [BadContract] together under that address.  It
    never writes to the owner, token and transfer tables. *)
Theorem resolver_inserts_both_or_none p c p' :
  getOrCreateContractEntity p = (Returned c, p') →
  ownerRows (store p') = ownerRows (store p)
  ∧ tokenRows (store p') = tokenRows (store p)
  ∧ transferRows (store p') = transferRows (store p)
  ∧ (goodContracts (store p') = goodContracts (store p)
     ∧ badContracts (store p') = badContracts (store p)
     ∧ (contractEntity p = Some c
        ∨ contractEntity p = None
          ∧ goodContracts (store p) !! contractAddress = Some c)
     ∨ contractEntity p = None
       ∧ goodContracts (store p) !! contractAddress = None
       ∧ badContracts (store p) !! contractAddress = None
       ∧ c = newGoodContract
       ∧ goodContracts (store p')
         = <[contractAddress := newGoodContract]> (goodContracts (store p))
       ∧ badContracts (store p')
         = <[contractAddress := newBadContract]> (badContracts (store p))).
Proof.
  unfold getOrCreateContractEntity, bind, get_contractEntity, ret.
  destruct (contractEntity p) as [c0|] eqn:Hc.
  { intros [= <- <-]. split_and!; try done. left. auto. }
  unfold store_get_GoodContract, set_contractEntity,
    store_insert_GoodContract, store_insert_BadContract, with_store; simpl.
  destruct (goodContracts (store p) !! contractAddress) as [g|] eqn:Hg; simpl.
  { intros [= <- <-]. simpl. split_and!; try done. left. auto. }
  rewrite Hg; simpl.
  destruct (badContracts (store p) !! contractAddress) as [bd|] eqn:Hb; simpl;
    [done|].
  intros [= <- <-]. simpl. split_and!; try done. right. by split_and!.
Qed.

Lemma resolver_inserts_both_or_none_witness :
  ∃ p',
    getOrCreateContractEntity freshProcess = (Returned newGoodContract, p')
    ∧ ownerRows (store p') = ownerRows (store freshProcess)
    ∧ tokenRows (store p') = tokenRows (store freshProcess)
    ∧ transferRows (store p') = transferRows (store freshProcess)
    ∧ (goodContracts (store p') = goodContracts (store freshProcess)
       ∧ badContracts (store p') = badContracts (store freshProcess)
       ∧ (contractEntity freshProcess = Some newGoodContract
          ∨ contractEntity freshProcess = None
            ∧ goodContracts (store freshProcess) !! contractAddress
              = Some newGoodContract)
       ∨ contractEntity freshProcess = None
         ∧ goodContracts (store freshProcess) !! contractAddress = None
         ∧ badContracts (store freshProcess) !! contractAddress = None
         ∧ newGoodContract = newGoodContract
         ∧ goodContracts (store p')
           = <[contractAddress := newGoodContract]> (goodContracts (store freshProcess))
         ∧ badContracts (store p')
           = <[contractAddress := newBadContract]> (badContracts (store freshProcess))).
Proof.
  eexists. split; [vm_compute; reflexivity|].
  apply (resolver_inserts_both_or_none freshProcess). vm_compute. reflexivity.
Defined.

(** ** The working state of a batch *)

(** X4.  The prefetch loads what the batch mentions and the store has,
    and nothing else: the owners map gets the stored owners among the
    lowercase addresses of the batch, the tokens map the stored tokens
    among its token ids.  It makes one [findBy] call per kind and leaves
    the tables, the cache and the request log as they are. *)
Theorem prefetch_loads_what_the_batch_mentions evs p :
  ∃ b0 p0,
    prefetch evs p = (Returned b0, p0)
    ∧ dom (owners b0) = ownerRows (store p) ∩ ownersIds evs
    ∧ dom (tokens b0) = dom (tokenRows (store p)) ∩ tokensIds evs
    ∧ transfers b0 = []
    ∧ tables (store p0) = tables (store p)
    ∧ contractEntity p0 = contractEntity p
    ∧ requests p0 = requests p
    ∧ calls (store p0)
      = calls (store p) ++ [CallFindBy KToken (elements (tokensIds evs));
                            CallFindBy KOwner (elements (ownersIds evs))].
Proof.
  destruct (prefetch_spec evs p)
    as (b0 & p0 & H0 & Hw0 & Hx0 & Ho0 & Hv0 & Htab & Hce & Hreq & Hcalls).
  exists b0, p0. split_and!; try done.
  apply set_eq. intros s.
  rewrite elem_of_dom, <-(tokenView_is_Some _ _ Hw0), Hv0, lookup_fmap.
  rewrite elem_of_intersection, elem_of_dom, fmap_is_Some.
  unfold is_Some. setoid_rewrite map_lookup_filter_Some. simpl. naive_solver.
Qed.

(** X5.  The loop keeps its working maps well formed: after the prefetch
    and the turns of any batch, every key of the owners map is the id of
    the object it maps to, lowercase and not empty, every key of the
    tokens map leads to a live token object with that id, and every
    transfer points to a live token object. *)
Theorem run_keeps_maps_well_formed world evs p b p' :
  run world evs p = (Returned b, p') →
  owners_wf (owners b) ∧ tokens_wf b ∧ transfers_wf b.
Proof.
  intros H. unfold run in H. apply bind_Returned in H as (b0 & p0 & H0 & H).
  destruct (prefetch_spec evs p) as (b0' & p0' & H0' & Hw0 & _).
  rewrite H0 in H0'. injection H0' as <- <-.
  exact (reconcile_wf _ _ _ _ _ _ _ Hw0 H).
Qed.

Lemma run_keeps_maps_well_formed_witness :
  ∃ b p',
    run calmWorld checksummedBatch freshProcess = (Returned b, p')
    ∧ owners_wf (owners b) ∧ tokens_wf b ∧ transfers_wf b.
Proof.
  eexists _, _. split; [vm_compute; reflexivity|].
  eapply (run_keeps_maps_well_formed calmWorld checksummedBatch freshProcess).
  vm_compute. reflexivity.
Defined.

(** ** The contract, the requests and the new tokens across the loop *)

Lemma reconcileEvent_resolver amb e b p b' p' :
  wf b → reconcileEvent amb e b p = (Returned b', p') →
  requests p' = requests p ++ turnRequests amb e
  ∧ (is_Some (tokens b !! pretty (e_tokenId e))
     ∧ tokens b' = tokens b
     ∧ store p' = store p ∧ contractEntity p' = contractEntity p
     ∨ ∃ c p3,
         tokens b !! pretty (e_tokenId e) = None
         ∧ getOrCreateContractEntity p = (Returned c, p3)
         ∧ store p' = store p3 ∧ contractEntity p' = Some c
         ∧ tokenView b' !! pretty (e_tokenId e)
           = Some (applyPatch (eventPatch amb e)
                     (mkTokenRow None None None None None (Some (gc_id c))))).
Proof.
  intros Hw H.
  destruct (reconcileEvent_effect _ _ _ _ _ _ Hw H)
    as (fromOwner & b1 & toOwner & b2 & r & t0 & p3
        & H1 & H2 & _ & _ & Hr & Hcase & Hl & _ & _ & Hst & Hce & Hreq).
  split; [done|].
  destruct Hcase as [(Hk & _ & -> & Ht & _)|(c & Hk & _ & Hc & -> & _)].
  - left. by rewrite Hk.
  - right. exists c, p3. split_and!; try done.
    + rewrite Hce. by apply getOrCreateContractEntity_Returned in Hc as [-> _].
    + pose proof Hw as (Hwo & _).
      pose proof (resolveOwner_wf _ _ _ _ Hwo H1) as Hwo1.
      destruct (resolveOwner_view _ _ _ _ Hwo1 H2) as [Hidt _].
      rewrite tokenView_lookup, Hr. simpl. rewrite Hl. simpl.
      by rewrite projToken_turnToken.
Qed.

Lemma reconcile_cached world k evs b p b' p' c :
  wf b → contractEntity p = Some c →
  reconcile world k evs b p = (Returned b', p') →
  store p' = store p ∧ contractEntity p' = Some c.
Proof.
  revert k b p. induction evs as [|e evs IH]; intros k b p Hw Hc H; simpl in H.
  - by injection H as <- <-.
  - apply bind_Returned in H as (b1 & p1 & H1 & H).
    pose proof (reconcileEvent_wf _ _ _ _ _ _ Hw H1) as Hw1.
    destruct (reconcileEvent_resolver _ _ _ _ _ _ Hw H1)
      as (_ & [(_ & _ & Hst & Hce)|(c' & p3 & _ & Hg & Hst & Hce & _)]).
    + rewrite Hc in Hce. destruct (IH _ _ _ Hw1 Hce H) as [-> ->]. done.
    + rewrite (getOrCreateContractEntity_cached _ _ Hc) in Hg.
      injection Hg as <- <-. destruct (IH _ _ _ Hw1 Hce H) as [-> ->]. done.
Qed.

Lemma getOrCreateContractEntity_calls p c p' :
  getOrCreateContractEntity p = (Returned c, p') →
  ∃ l, calls (store p') = calls (store p) ++ l ∧ resolverCalls l
       ∧ (is_Some (contractEntity p) → l = []).
Proof.
  unfold getOrCreateContractEntity, bind, get_contractEntity, ret, resolverCalls.
  destruct (contractEntity p) as [c0|] eqn:Hc.
  { intros [= <- <-]. exists []. rewrite app_nil_r. auto. }
  unfold store_get_GoodContract, set_contractEntity,
    store_insert_GoodContract, store_insert_BadContract, with_store; simpl.
  destruct (goodContracts (store p) !! contractAddress) as [g|] eqn:Hg; simpl.
  { intros [= <- <-]. simpl. eexists. split; [done|]. split; [auto|].
    by intros [? ?]. }
  rewrite Hg; simpl.
  destruct (badContracts (store p) !! contractAddress) as [bd|] eqn:Hb; simpl;
    [done|].
  intros [= <- <-]. simpl. eexists. split; [by rewrite <-!(assoc_L (++))|].
  split; [auto|]. by intros [? ?].
Qed.

Lemma reconcile_calls world k evs b p b' p' :
  wf b → reconcile world k evs b p = (Returned b', p') →
  ∃ l, calls (store p') = calls (store p) ++ l ∧ resolverCalls l
       ∧ (is_Some (contractEntity p) ∨ tokensIds evs ⊆ dom (tokens b) → l = []).
Proof.
  revert k b p. induction evs as [|e evs IH]; intros k b p Hw H; simpl in H.
  - injection H as <- <-. exists []. rewrite app_nil_r. by split_and!; [|left|].
  - apply bind_Returned in H as (b1 & p1 & H1 & H).
    pose proof (reconcileEvent_wf _ _ _ _ _ _ Hw H1) as Hw1.
    destruct (reconcileEvent_resolver _ _ _ _ _ _ Hw H1)
      as (_ & [(Hk & Ht & Hst & Hce)|(c' & p3 & Hk & Hg & Hst & Hce & _)]).
    + destruct (IH _ _ _ Hw1 H) as (l & Hl & Hr & Hnil).
      exists l. rewrite Hl, Hst. split_and!; try done.
      intros [Hc|Hsub]; apply Hnil; [left; by rewrite Hce|right].
      rewrite Ht. rewrite tokensIds_cons in Hsub. set_solver.
    + destruct (reconcile_cached _ _ _ _ _ _ _ _ Hw1 Hce H) as [Hst' _].
      destruct (getOrCreateContractEntity_calls _ _ _ Hg) as (l & Hl & Hr & Hnil).
      exists l. rewrite Hst', Hst. split_and!; try done.
      intros [Hc|Hsub]; [by apply Hnil|].
      rewrite tokensIds_cons in Hsub.
      assert (Hin : pretty (e_tokenId e) ∈ dom (tokens b)) by set_solver.
      apply elem_of_dom in Hin as [r Hin]. congruence.
Qed.

Lemma reconcile_requests world k evs b p b' p' :
  wf b → reconcile world k evs b p = (Returned b', p') →
  requests p' = requests p ++ batchRequests world k evs.
Proof.
  revert k b p. induction evs as [|e evs IH]; intros k b p Hw H; simpl in H.
  - injection H as <- <-. simpl. by rewrite app_nil_r.
  - apply bind_Returned in H as (b1 & p1 & H1 & H).
    pose proof (reconcileEvent_wf _ _ _ _ _ _ Hw H1) as Hw1.
    destruct (reconcileEvent_resolver _ _ _ _ _ _ Hw H1) as (Hreq & _).
    rewrite (IH _ _ _ Hw1 H), Hreq. simpl. by rewrite (assoc_L (++)).
Qed.

(** The row view of a token the loop has made: the assignments of the
    batch applied to a token that has its contract and nothing else. *)
Lemma reconcile_new world k evs b p b' p' s :
  wf b → reconcile world k evs b p = (Returned b', p') →
  tokenView b !! s = None → s ∈ tokensIds evs →
  ∃ c, contractEntity p' = Some c
       ∧ tokenView b' !! s
         = Some (applyPatch (batchPatch world k evs s)
                   (mkTokenRow None None None None None (Some (gc_id c)))).
Proof.
  revert k b p. induction evs as [|e evs IH]; intros k b p Hw H Hn Hin; simpl in H.
  - unfold tokensIds in Hin. set_solver.
  - apply bind_Returned in H as (b1 & p1 & H1 & H).
    pose proof (reconcileEvent_wf _ _ _ _ _ _ Hw H1) as Hw1.
    destruct (reconcileEvent_view _ _ _ _ _ _ Hw H1) as (_ & _ & Hother & _).
    simpl. destruct (decide (pretty (e_tokenId e) = s)) as [<-|Hne].
    + destruct (reconcileEvent_resolver _ _ _ _ _ _ Hw H1)
        as (_ & [(Hk & _)|(c & p3 & Hk & Hg & Hst & Hce & Hv)]).
      { apply (tokenView_is_Some _ _ Hw) in Hk as [row Hk]. congruence. }
      destruct (reconcile_cached _ _ _ _ _ _ _ _ Hw1 Hce H) as [_ Hce'].
      exists c. split; [done|].
      destruct (reconcile_view _ _ _ _ _ _ _ Hw1 H) as (_ & Hs & _).
      destruct (Hs (pretty (e_tokenId e)))
        as [(_ & Hnone & _)|(init & -> & Hinit & _)]; [congruence|].
      by rewrite applyPatch_then, (Hinit _ Hv).
    + apply (IH _ _ _ Hw1 H).
      * by rewrite Hother.
      * rewrite tokensIds_cons in Hin. set_solver.
Qed.

(** ** The assignments of a batch, event by event *)

Lemma thenPatch_assoc P Q R :
  thenPatch (thenPatch P Q) R = thenPatch P (thenPatch Q R).
Proof.
  destruct P as [a1 a2 a3 a4 a5], Q as [b1 b2 b3 b4 b5], R as [[?|] [?|] [?|] [?|] [?|]];
    reflexivity.
Qed.

Lemma thenPatch_noPatch_l Q : thenPatch noPatch Q = Q.
Proof. by destruct Q as [[?|] [?|] [?|] [?|] [?|]]. Qed.

Lemma thenPatch_noPatch_r P : thenPatch P noPatch = P.
Proof. by destruct P. Qed.

Lemma batchPatch_app world k l1 l2 s :
  batchPatch world k (l1 ++ l2) s
  = thenPatch (batchPatch world k l1 s) (batchPatch world (k + length l1) l2 s).
Proof.
  revert k. induction l1 as [|e l1 IH]; intros k; simpl.
  - by rewrite thenPatch_noPatch_l, Nat.add_0_r.
  - rewrite IH, <-Nat.add_succ_comm. case_decide; [|done].
    by rewrite thenPatch_assoc.
Qed.

(** Events of other tokens assign nothing to the token with id [s]. *)
Lemma batchPatch_others world k l s :
  Forall (λ e, pretty (e_tokenId e) ≠ s) l → batchPatch world k l s = noPatch.
Proof.
  revert k. induction l as [|e l IH]; intros k Hl; simpl; [done|].
  apply Forall_cons in Hl as [He Hl]. case_decide; [done|]. by apply IH.
Qed.

(** The assignments to a token up to and including its last event. *)
Lemma batchPatch_last world k pre e post :
  Forall (λ e', e_tokenId e' ≠ e_tokenId e) post →
  batchPatch world k (pre ++ e :: post) (pretty (e_tokenId e))
  = thenPatch (batchPatch world k pre (pretty (e_tokenId e)))
              (eventPatch (world (k + length pre)%nat) e).
Proof.
  intros Hpost. rewrite batchPatch_app. cbn [batchPatch]. rewrite decide_True by done.
  rewrite (batchPatch_others _ _ post); [by rewrite thenPatch_noPatch_r|].
  eapply Forall_impl; [exact Hpost|]. intros e' Hne Heq. simpl in *.
  by apply Hne, (inj pretty).
Qed.

Lemma batchPatch_expires_none world k l s :
  Forall (λ e, pretty (e_tokenId e) = s → Js.truthy_number (e_expires e) = false) l →
  let P := batchPatch world k l s in
  pt_expires P = None ∧ pt_name P = None ∧ pt_imageURI P = None ∧ pt_uri P = None.
Proof.
  revert k. induction l as [|e l IH]; intros k Hl; simpl; [done|].
  apply Forall_cons in Hl as [He Hl]. case_decide as Hs; [|by apply IH].
  destruct (IH (S k) Hl) as (Hx & Hn & Hi & Hu). simpl. rewrite Hx, Hn, Hi, Hu.
  unfold eventPatch, fetches. destruct (fieldsAtFinally _) as [[name uri] imageURI].
  simpl. rewrite (He Hs). unfold Js.truthy_number in He.
  destruct (e_expires e) as [x|]; [|done]. specialize (He Hs).
  destruct (x =? 0); done.
Qed.

Lemma mergeRow_None v : mergeRow v None = v.
Proof. by destruct v as [[?|] ? ? ? ? [?|]]. Qed.

(** The row of each token of a batch after the batch: the assignments of
    the batch applied to the row as loaded, merged into the row, or to a
    new token that has its contract and nothing else. *)
Lemma saveENSData_token_rows world evs p p' s :
  saveENSData world evs p = (Returned tt, p') → s ∈ tokensIds evs →
  match tokenRows (store p) !! s with
  | Some old =>
      tokenRows (store p') !! s
      = Some (mergeRow (applyPatch (batchPatch world 0 evs s) (stripRow old)) (Some old))
  | None =>
      ∃ c, contractEntity p' = Some c
           ∧ tokenRows (store p') !! s
             = Some (applyPatch (batchPatch world 0 evs s)
                       (mkTokenRow None None None None None (Some (gc_id c))))
  end.
Proof.
  intros H Hin. destruct (tokenRows (store p) !! s) as [old|] eqn:Hold.
  - destruct (saveENSData_tables _ _ _ _ H) as (_ & _ & Hrows & _).
    destruct (Hrows s Hin) as (init & -> & Hinit). by rewrite Hold, (Hinit _ Hold).
  - apply saveENSData_Returned in H as (b0 & p0 & b & p1 & H0 & H1 & H2).
    destruct (prefetch_spec evs p)
      as (b0' & p0' & H0' & Hw0 & _ & _ & Hv0 & Htab0 & _).
    rewrite H0 in H0'. injection H0' as <- <-.
    injection Htab0 as _ _ _ Htr0 _.
    pose proof (reconcile_wf _ _ _ _ _ _ _ Hw0 H1) as Hw.
    destruct (reconcile_rows _ _ _ _ _ _ _ H1) as (_ & Htr1 & _).
    destruct (reconcile_new _ _ _ _ _ _ _ s Hw0 H1) as (c & Hc & Hv); [|done|].
    { by rewrite Hv0, lookup_fmap, map_lookup_filter, Hold. }
    destruct (persist_spec b p1 Hw) as (p2 & H2' & _ & _ & _ & Htr2 & _ & Hce2 & _).
    rewrite H2 in H2'. injection H2' as <-.
    exists c. split; [congruence|].
    by rewrite Htr2, Hv, Htr1, Htr0, Hold, mergeRow_None.
Qed.

Lemma pt_owner_eventPatch amb e : pt_owner (eventPatch amb e) = Some (ownerIdOf (e_to e)).
Proof. unfold eventPatch. by destruct (fieldsAtFinally _) as [[??]?]. Qed.

Lemma pt_expires_eventPatch amb e :
  pt_expires (eventPatch amb e)
  = if Js.truthy_number (e_expires e) then Some (e_expires e) else None.
Proof. unfold eventPatch. by destruct (fieldsAtFinally _) as [[??]?]. Qed.

Lemma tokensIds_middle pre e post : pretty (e_tokenId e) ∈ tokensIds (pre ++ e :: post).
Proof. unfold tokensIds. rewrite fmap_app, fmap_cons. set_solver. Qed.

(** ** The token table after a batch *)

(** X6.  After a batch, the owner column of a token is decided by the
    last event of the batch for that token alone: the lowercase of its
    [to] address when it has one, and otherwise what the row held before
    the batch (nothing for a new row), whatever the earlier events of the
    batch assigned. *)
Theorem last_event_decides_stored_owner world pre e post p p' :
  saveENSData world (pre ++ e :: post) p = (Returned tt, p') →
  Forall (λ e', e_tokenId e' ≠ e_tokenId e) post →
  ∃ row',
    tokenRows (store p') !! pretty (e_tokenId e) = Some row'
    ∧ tr_owner row'
      = if Js.truthy (e_to e) then Some (Js.toLowerCase (Js.or_empty (e_to e)))
        else tokenRows (store p) !! pretty (e_tokenId e) ≫= tr_owner.
Proof.
  intros H Hpost.
  pose proof (saveENSData_token_rows _ _ _ _ _ H (tokensIds_middle pre e post)) as Hrow.
  rewrite (batchPatch_last _ _ _ _ _ Hpost) in Hrow.
  destruct (tokenRows (store p) !! pretty (e_tokenId e)) as [old|].
  - eexists. split; [exact Hrow|]. simpl. rewrite pt_owner_eventPatch. simpl.
    unfold ownerIdOf. by destruct (Js.truthy (e_to e)).
  - destruct Hrow as (c & _ & Hrow). eexists. split; [exact Hrow|]. simpl.
    rewrite pt_owner_eventPatch. simpl.
    unfold ownerIdOf. by destruct (Js.truthy (e_to e)).
Qed.

Lemma last_event_decides_stored_owner_witness :
  ∃ p',
    saveENSData calmWorld ([registration1] ++ transfer1 :: [registration2]) freshProcess
    = (Returned tt, p')
    ∧ ∃ row',
        tokenRows (store p') !! "1" = Some row' ∧ tr_owner row' = Some "0xcd".
Proof.
  eexists. split; [vm_compute; reflexivity|].
  apply (last_event_decides_stored_owner calmWorld [registration1] transfer1
           [registration2] freshProcess).
  - vm_compute. reflexivity.
  - repeat constructor. simpl. lia.
Defined.

(** X7.  The expiration column of a token after a batch is the last
    non-zero expiration the batch carries for it, also when that
    expiration is already past and the turn ends early. *)
Theorem last_expiration_is_stored world pre e post p p' x :
  saveENSData world (pre ++ e :: post) p = (Returned tt, p') →
  e_expires e = Some x → x ≠ 0 →
  Forall (λ e', e_tokenId e' = e_tokenId e → Js.truthy_number (e_expires e') = false)
         post →
  ∃ row',
    tokenRows (store p') !! pretty (e_tokenId e) = Some row'
    ∧ tr_expires row' = Some x.
Proof.
  intros H Hx Hx0 Hpost.
  pose proof (saveENSData_token_rows _ _ _ _ _ H (tokensIds_middle pre e post)) as Hrow.
  assert (HP : pt_expires (batchPatch world 0 (pre ++ e :: post) (pretty (e_tokenId e)))
               = Some (Some x)).
  { rewrite batchPatch_app. cbn [batchPatch]. rewrite decide_True by done.
    destruct (batchPatch_expires_none world (S (0 + length pre)) post
                (pretty (e_tokenId e))) as (Hnone & _).
    { eapply Forall_impl; [exact Hpost|]. intros e' He' Heq. simpl in *.
      by apply He', (inj pretty). }
    simpl. simpl in Hnone. rewrite Hnone, pt_expires_eventPatch, Hx. simpl.
    by destruct (Z.eqb_spec x 0). }
  destruct (tokenRows (store p) !! pretty (e_tokenId e)) as [old|].
  - eexists. split; [exact Hrow|]. simpl. by rewrite HP.
  - destruct Hrow as (c & _ & Hrow). eexists. split; [exact Hrow|]. simpl.
    by rewrite HP.
Qed.

Lemma last_expiration_is_stored_witness :
  ∃ p',
    saveENSData calmWorld ([registration1] ++ expiredTransfer :: [transfer1]) freshProcess
    = (Returned tt, p')
    ∧ ∃ row',
        tokenRows (store p') !! "1" = Some row' ∧ tr_expires row' = Some 1.
Proof.
  eexists. split; [vm_compute; reflexivity|].
  apply (last_expiration_is_stored calmWorld [registration1] expiredTransfer
           [transfer1] freshProcess).
  - vm_compute. reflexivity.
  - reflexivity.
  - lia.
  - repeat constructor.
Defined.

Lemma batchPatch_no_fetch world k l s :
  (∀ j e, l !! j = Some e → pretty (e_tokenId e) = s →
          fetches (world (k + j)%nat) e = false) →
  let P := batchPatch world k l s in
  pt_name P = None ∧ pt_imageURI P = None ∧ pt_uri P = None.
Proof.
  revert k. induction l as [|e l IH]; intros k Hl; simpl; [done|].
  assert (Hl' : ∀ j e', l !! j = Some e' → pretty (e_tokenId e') = s →
                        fetches (world (S k + j)%nat) e' = false).
  { intros j e' Hj Hs. replace (S k + j)%nat with (k + S j)%nat by lia.
    by apply (Hl (S j)). }
  case_decide as Hs; [|by apply IH].
  destruct (IH (S k) Hl') as (Hn & Hi & Hu). simpl. rewrite Hn, Hi, Hu.
  unfold eventPatch. destruct (fieldsAtFinally _) as [[name uri] imageURI]. simpl.
  specialize (Hl 0%nat e eq_refl Hs). rewrite Nat.add_0_r in Hl. by rewrite Hl.
Qed.

(** X8.  Each of the name, uri and image fields that the [finally]
    block of the last enriching turn for a token assigned a defined
    value (the field of the answer the metadata service gave during that
    turn, or the empty string when the request failed) is what the
    column of the stored token holds after the batch.  Nothing is said
    of a field the answer did not carry: the assignment leaves it
    [undefined] on the entity. *)
Theorem last_answer_is_stored world pre e post p p' name uri imageURI :
  saveENSData world (pre ++ e :: post) p = (Returned tt, p') →
  fetches (world (length pre)) e = true →
  (∀ j e', post !! j = Some e' → e_tokenId e' = e_tokenId e →
           fetches (world (S (length pre + j))) e' = false) →
  fieldsAtFinally (axios_get (world (length pre)) (tokenURI (e_tokenId e)))
  = (name, uri, imageURI) →
  ∃ row',
    tokenRows (store p') !! pretty (e_tokenId e) = Some row'
    ∧ (is_Some name → tr_name row' = name)
    ∧ (is_Some uri → tr_uri row' = uri)
    ∧ (is_Some imageURI → tr_imageURI row' = imageURI).
Proof.
  intros H He Hpost Hf.
  cut (∃ row', tokenRows (store p') !! pretty (e_tokenId e) = Some row'
               ∧ tr_name row' = name ∧ tr_uri row' = uri
               ∧ tr_imageURI row' = imageURI).
  { intros (row' & Hr & Hn & Hu & Hi). exists row'. by split_and!. }
  pose proof (saveENSData_token_rows _ _ _ _ _ H (tokensIds_middle pre e post)) as Hrow.
  set (P := batchPatch world 0 (pre ++ e :: post) (pretty (e_tokenId e))) in *.
  assert (HP : pt_name P = Some name ∧ pt_uri P = Some uri
               ∧ pt_imageURI P = Some imageURI).
  { unfold P. rewrite batchPatch_app. cbn [batchPatch]. rewrite decide_True by done.
    destruct (batchPatch_no_fetch world (S (0 + length pre)) post
                (pretty (e_tokenId e))) as (Hn & Hi & Hu).
    { intros j e' Hj Heq. apply (Hpost j e' Hj). by apply (inj pretty). }
    simpl. simpl in Hn, Hi, Hu. rewrite Hn, Hi, Hu.
    unfold eventPatch. rewrite Hf, He. done. }
  destruct HP as (Hn & Hu & Hi).
  destruct (tokenRows (store p) !! pretty (e_tokenId e)) as [old|].
  - eexists. split; [exact Hrow|]. simpl. by rewrite Hn, Hu, Hi.
  - destruct Hrow as (c & _ & Hrow). eexists. split; [exact Hrow|]. simpl.
    by rewrite Hn, Hu, Hi.
Qed.

Lemma last_answer_is_stored_witness :
  ∃ p',
    saveENSData calmWorld ([] ++ registration1 :: [transfer1]) freshProcess
    = (Returned tt, p')
    ∧ ∃ row',
        tokenRows (store p') !! "1" = Some row'
        ∧ tr_name row' = Some "a.eth" ∧ tr_uri row' = Some "url"
        ∧ tr_imageURI row' = Some "img".
Proof.
  eexists. split; [vm_compute; reflexivity|].
  match goal with
  | |- ∃ row', tokenRows (store ?q) !! _ = _ ∧ _ =>
      destruct (last_answer_is_stored calmWorld [] registration1 [transfer1]
                  freshProcess q (Some "a.eth") (Some "url") (Some "img"))
        as (row' & Hr & Hn & Hu & Hi)
  end.
  - vm_compute. reflexivity.
  - reflexivity.
  - intros [|[|j]] e'; simpl; intros [= <-]. reflexivity.
  - reflexivity.
  - exists row'. split; [exact Hr|]. split_and!; [apply Hn|apply Hu|apply Hi]; by eexists.
Defined.

(** X9.  A batch that carries no non-zero expiration for a stored token
    leaves the name, uri, image, expiration and contract columns of its
    row as they were: transfers alone change nothing but the owner. *)
Theorem batch_without_expiration_keeps_columns world evs p p' s old :
  saveENSData world evs p = (Returned tt, p') →
  tokenRows (store p) !! s = Some old →
  Forall (λ e, pretty (e_tokenId e) = s → Js.truthy_number (e_expires e) = false) evs →
  ∃ row',
    tokenRows (store p') !! s = Some row'
    ∧ tr_name row' = tr_name old ∧ tr_uri row' = tr_uri old
    ∧ tr_imageURI row' = tr_imageURI old ∧ tr_expires row' = tr_expires old
    ∧ tr_contract row' = tr_contract old.
Proof.
  intros H Hold Hevs. destruct (decide (s ∈ tokensIds evs)) as [Hin|Hnin].
  - pose proof (saveENSData_token_rows _ _ _ _ _ H Hin) as Hrow. rewrite Hold in Hrow.
    destruct (batchPatch_expires_none world 0 evs s Hevs) as (Hx & Hn & Hi & Hu).
    eexists. split; [exact Hrow|]. simpl in *. by rewrite Hx, Hn, Hi, Hu.
  - destruct (saveENSData_tables _ _ _ _ H) as (_ & Hout & _).
    exists old. by rewrite (Hout s Hnin).
Qed.

Lemma batch_without_expiration_keeps_columns_witness :
  ∃ old p',
    tokenRows (store afterSampleBatch) !! "1" = Some old
    ∧ saveENSData stormyWorld [transfer1] afterSampleBatch = (Returned tt, p')
    ∧ ∃ row',
        tokenRows (store p') !! "1" = Some row'
        ∧ tr_name row' = tr_name old ∧ tr_uri row' = tr_uri old
        ∧ tr_imageURI row' = tr_imageURI old ∧ tr_expires row' = tr_expires old
        ∧ tr_contract row' = tr_contract old.
Proof.
  eexists _, _. split; [vm_compute; reflexivity|].
  split; [vm_compute; reflexivity|].
  apply (batch_without_expiration_keeps_columns stormyWorld [transfer1] afterSampleBatch).
  - vm_compute. reflexivity.
  - vm_compute. reflexivity.
  - repeat constructor.
Defined.

(** X10.  Every token row a batch creates refers to the contract entity
    the process holds after the batch, and the contract column of a row
    that was there before is never changed. *)
Theorem token_rows_refer_to_the_contract world evs p p' s :
  saveENSData world evs p = (Returned tt, p') → s ∈ tokensIds evs →
  ∃ row',
    tokenRows (store p') !! s = Some row'
    ∧ match tokenRows (store p) !! s with
      | Some old => tr_contract row' = tr_contract old
      | None => ∃ c, contractEntity p' = Some c ∧ tr_contract row' = Some (gc_id c)
      end.
Proof.
  intros H Hin. pose proof (saveENSData_token_rows _ _ _ _ _ H Hin) as Hrow.
  destruct (tokenRows (store p) !! s) as [old|].
  - eexists. split; [exact Hrow|]. done.
  - destruct Hrow as (c & Hc & Hrow). eexists. split; [exact Hrow|]. by exists c.
Qed.

Lemma token_rows_refer_to_the_contract_witness :
  ∃ p',
    saveENSData calmWorld sampleBatch freshProcess = (Returned tt, p')
    ∧ ∃ row',
        tokenRows (store p') !! "1" = Some row'
        ∧ ∃ c, contractEntity p' = Some c ∧ tr_contract row' = Some (gc_id c).
Proof.
  eexists. split; [vm_compute; reflexivity|].
  apply (token_rows_refer_to_the_contract calmWorld sampleBatch freshProcess _ "1").
  - vm_compute. reflexivity.
  - apply (bool_decide_unpack _). vm_compute. exact I.
Defined.

(** ** The owner table and the transfer table after a batch *)

Lemma ownersIds_elem evs k :
  k ∈ ownersIds evs
  ↔ ∃ e a, e ∈ evs ∧ (a = e_from e ∨ a = e_to e)
           ∧ Js.truthy a = true ∧ k = Js.toLowerCase (Js.or_empty a).
Proof.
  unfold ownersIds. rewrite elem_of_list_to_set, list_elem_of_bind. split.
  - intros (e & Hk & He). apply addresses_spec in Hk as [Hk|Hk];
      apply ownerIdOf_Some in Hk as (Ha & -> & _); eauto 10.
  - intros (e & a & He & Ha & Ht & ->). exists e. split; [|done].
    apply addresses_spec. unfold ownerIdOf.
    destruct Ha as [->| ->]; rewrite Ht; auto.
Qed.

(** X11.  After a batch the owner table holds what it held before and,
    for every event of the batch, the lowercase of each of its two
    addresses that is not empty or missing; nothing is removed and no
    other id is added. *)
Theorem owner_rows_after_batch world evs p p' :
  saveENSData world evs p = (Returned tt, p') →
  ∀ k, k ∈ ownerRows (store p')
       ↔ k ∈ ownerRows (store p)
         ∨ ∃ e a, e ∈ evs ∧ (a = e_from e ∨ a = e_to e)
                  ∧ Js.truthy a = true ∧ k = Js.toLowerCase (Js.or_empty a).
Proof.
  intros H k. destruct (saveENSData_tables _ _ _ _ H) as (-> & _).
  by rewrite elem_of_union, ownersIds_elem.
Qed.

Lemma owner_rows_after_batch_witness :
  ∃ p',
    saveENSData calmWorld sampleBatch freshProcess = (Returned tt, p')
    ∧ ∀ k, k ∈ ownerRows (store p')
           ↔ k ∈ ownerRows (store freshProcess)
             ∨ ∃ e a, e ∈ sampleBatch ∧ (a = e_from e ∨ a = e_to e)
                      ∧ Js.truthy a = true ∧ k = Js.toLowerCase (Js.or_empty a).
Proof.
  eexists. split; [vm_compute; reflexivity|].
  apply (owner_rows_after_batch calmWorld sampleBatch freshProcess).
  vm_compute. reflexivity.
Defined.

Section upsert_lookup.
Context {V : Type}.
Implicit Types (m : gmap string V) (l : list (string * V)).

Lemma upsertAll_app m l1 l2 : upsertAll m (l1 ++ l2) = upsertAll (upsertAll m l1) l2.
Proof. unfold upsertAll. apply foldl_app. Qed.

Lemma upsertAll_lookup_notin m l k : k ∉ l.*1 → upsertAll m l !! k = m !! k.
Proof.
  revert m. induction l as [|[k' v] l IH]; intros m Hk; [done|].
  rewrite fmap_cons, not_elem_of_cons in Hk. destruct Hk as [Hne Hk].
  change (upsertAll m ((k', v) :: l)) with (upsertAll (<[k':=v]> m) l).
  rewrite IH by done. by apply lookup_insert_ne.
Qed.

Lemma upsertAll_lookup_Some m l k v :
  upsertAll m l !! k = Some v → (k, v) ∈ l ∨ m !! k = Some v.
Proof.
  revert m. induction l as [|[k' v'] l IH]; intros m; [by right|].
  change (upsertAll m ((k', v') :: l)) with (upsertAll (<[k':=v']> m) l).
  intros [Hin|Hm]%IH; [left; by right|].
  apply lookup_insert_Some in Hm as [[-> ->]|[_ Hm]]; [left; by left|by right].
Qed.

Lemma upsertAll_dom m l k : is_Some (m !! k) → is_Some (upsertAll m l !! k).
Proof.
  revert m. induction l as [|[k' v'] l IH]; intros m Hm; [done|].
  change (upsertAll m ((k', v') :: l)) with (upsertAll (<[k':=v']> m) l).
  apply IH. rewrite lookup_insert_is_Some. destruct (decide (k' = k)); auto.
Qed.

End upsert_lookup.

Lemma batchTransferRows_app world k l1 l2 :
  batchTransferRows world k (l1 ++ l2)
  = batchTransferRows world k l1 ++ batchTransferRows world (k + length l1) l2.
Proof.
  revert k. induction l1 as [|e l1 IH]; intros k; simpl.
  - by rewrite Nat.add_0_r.
  - by rewrite IH, <-Nat.add_succ_comm, (assoc_L (++)).
Qed.

Lemma eventTransferRows_elem amb e k x :
  (k, x) ∈ eventTransferRows amb e →
  k = e_id e ∧ Js.truthy (e_from e) = true ∧ Js.truthy (e_to e) = true
  ∧ x = mkTransferRow (e_block e) (e_timestamp e) (e_transactionHash e)
          (Js.toLowerCase (Js.or_empty (e_from e)))
          (Js.toLowerCase (Js.or_empty (e_to e)))
          (Some (pretty (e_tokenId e))).
Proof.
  unfold eventTransferRows. destruct (skipsRest amb e); [by intros ?%elem_of_nil|].
  destruct (Js.truthy (e_from e)), (Js.truthy (e_to e)); simpl;
    try by intros ?%elem_of_nil.
  by intros [= -> ->]%list_elem_of_singleton.
Qed.

Lemma batchTransferRows_elem world n evs k x :
  (k, x) ∈ batchTransferRows world n evs →
  ∃ e, e ∈ evs ∧ k = e_id e
       ∧ Js.truthy (e_from e) = true ∧ Js.truthy (e_to e) = true
       ∧ x = mkTransferRow (e_block e) (e_timestamp e) (e_transactionHash e)
               (Js.toLowerCase (Js.or_empty (e_from e)))
               (Js.toLowerCase (Js.or_empty (e_to e)))
               (Some (pretty (e_tokenId e))).
Proof.
  revert n. induction evs as [|e evs IH]; intros n; simpl.
  - by intros ?%elem_of_nil.
  - rewrite elem_of_app. intros [Hin|Hin].
    + apply eventTransferRows_elem in Hin. exists e. split; [by left|done].
    + apply IH in Hin as (e' & He' & Hrest). exists e'. split; [by right|done].
Qed.

Lemma batchTransferRows_keys world n evs k :
  k ∉ e_id <$> evs → k ∉ (batchTransferRows world n evs).*1.
Proof.
  intros Hk ([k' x] & -> & Hin)%list_elem_of_fmap. simpl in Hk.
  apply batchTransferRows_elem in Hin as (e & He & -> & _).
  apply Hk, list_elem_of_fmap. eauto.
Qed.

(** The row under the id of an event that shares it with no other event
    of the batch is decided by the turn of that event. *)
Lemma batchTransferRows_event world pre e post (m : gmap string TransferRow) :
  e_id e ∉ e_id <$> pre ++ post →
  upsertAll m (batchTransferRows world 0 (pre ++ e :: post)) !! e_id e
  = upsertAll m (eventTransferRows (world (length pre)) e) !! e_id e.
Proof.
  intros Hid. rewrite fmap_app, not_elem_of_app in Hid. destruct Hid as [Hpre Hpost].
  rewrite batchTransferRows_app. cbn [batchTransferRows]. rewrite !upsertAll_app.
  rewrite (upsertAll_lookup_notin _ (batchTransferRows _ _ post))
    by by apply batchTransferRows_keys.
  simpl. unfold eventTransferRows.
  destruct (skipsRest (world (length pre)) e).
  { by apply (upsertAll_lookup_notin m), batchTransferRows_keys. }
  destruct (Js.truthy (e_from e) && Js.truthy (e_to e)).
  - unfold upsertAll at 1 3. simpl. by rewrite !lookup_insert_eq.
  - by apply (upsertAll_lookup_notin m), batchTransferRows_keys.
Qed.

(** X12.  The transfer row of an event after a batch, when no other event
    of the batch has its id: the turn that runs to its end with both
    addresses present writes the row of the event, with the lowercase
    addresses and the token id; a turn that ends early or lacks an
    address leaves what the table had under that id. *)
Theorem transfer_row_of_an_event world pre e post p p' :
  saveENSData world (pre ++ e :: post) p = (Returned tt, p') →
  e_id e ∉ e_id <$> pre ++ post →
  transferRows (store p') !! e_id e
  = if negb (skipsRest (world (length pre)) e)
       && Js.truthy (e_from e) && Js.truthy (e_to e)
    then Some (mkTransferRow (e_block e) (e_timestamp e) (e_transactionHash e)
                 (Js.toLowerCase (Js.or_empty (e_from e)))
                 (Js.toLowerCase (Js.or_empty (e_to e)))
                 (Some (pretty (e_tokenId e))))
    else transferRows (store p) !! e_id e.
Proof.
  intros H Hid. destruct (saveENSData_tables _ _ _ _ H) as (_ & _ & _ & -> & _).
  rewrite (batchTransferRows_event _ _ _ _ _ Hid). unfold eventTransferRows.
  destruct (skipsRest (world (length pre)) e); simpl; [done|].
  destruct (Js.truthy (e_from e)), (Js.truthy (e_to e)); simpl; try done.
  unfold upsertAll. simpl. by rewrite lookup_insert_eq.
Qed.

Lemma transfer_row_of_an_event_witness :
  ∃ p',
    saveENSData calmWorld ([registration1] ++ transfer1 :: [registration2]) freshProcess
    = (Returned tt, p')
    ∧ transferRows (store p') !! "0xh2-0xens-1-1"
      = Some (mkTransferRow 7 100 "0xh2" "0xab" "0xcd" (Some "1")).
Proof.
  eexists. split; [vm_compute; reflexivity|].
  apply (transfer_row_of_an_event calmWorld [registration1] transfer1 [registration2]
           freshProcess).
  - vm_compute. reflexivity.
  - apply (bool_decide_unpack _). vm_compute. exact I.
Defined.

(** X13.  A batch never removes a transfer row, and it leaves the rows
    under ids that no event of the batch has as they were. *)
Theorem other_transfer_rows_are_kept world evs p p' :
  saveENSData world evs p = (Returned tt, p') →
  dom (transferRows (store p)) ⊆ dom (transferRows (store p'))
  ∧ ∀ k, k ∉ e_id <$> evs →
         transferRows (store p') !! k = transferRows (store p) !! k.
Proof.
  intros H. destruct (saveENSData_tables _ _ _ _ H) as (_ & _ & _ & -> & _). split.
  - intros k Hk%elem_of_dom. by apply elem_of_dom, upsertAll_dom.
  - intros k Hk. by apply upsertAll_lookup_notin, batchTransferRows_keys.
Qed.

Lemma other_transfer_rows_are_kept_witness :
  ∃ p',
    saveENSData stormyWorld [registration2] afterSampleBatch = (Returned tt, p')
    ∧ dom (transferRows (store afterSampleBatch)) ⊆ dom (transferRows (store p'))
    ∧ ∀ k, k ∉ e_id <$> [registration2] →
           transferRows (store p') !! k = transferRows (store afterSampleBatch) !! k.
Proof.
  eexists. split; [vm_compute; reflexivity|].
  apply (other_transfer_rows_are_kept stormyWorld [registration2] afterSampleBatch).
  vm_compute. reflexivity.
Defined.

(** ** What a batch asks of the service and of the store *)

(** X14.  A batch asks the metadata service once for every event that
    carries a non-zero expiration not yet past when its turn comes, at
    the address of the event's token and in the order of the events, and
    never for another event. *)
Theorem batch_requests_in_event_order world evs p p' :
  saveENSData world evs p = (Returned tt, p') →
  requests p' = requests p ++ batchRequests world 0 evs.
Proof.
  intros (b0 & p0 & b & p1 & H0 & H1 & H2)%saveENSData_Returned.
  destruct (prefetch_spec evs p)
    as (b0' & p0' & H0' & Hw0 & _ & _ & _ & _ & _ & Hreq0 & _).
  rewrite H0 in H0'. injection H0' as <- <-.
  pose proof (reconcile_wf _ _ _ _ _ _ _ Hw0 H1) as Hw.
  destruct (persist_spec b p1 Hw) as (p2 & H2' & _ & _ & _ & _ & _ & _ & Hreq2 & _).
  rewrite H2 in H2'. injection H2' as <-.
  by rewrite Hreq2, (reconcile_requests _ _ _ _ _ _ _ Hw0 H1), Hreq0.
Qed.

Lemma batch_requests_in_event_order_witness :
  ∃ p',
    saveENSData calmWorld [registration1; expiredTransfer; transfer1; registration2]
      freshProcess = (Returned tt, p')
    ∧ requests p' = [tokenURI 1; tokenURI 2].
Proof.
  eexists. split; [vm_compute; reflexivity|].
  apply (batch_requests_in_event_order calmWorld
           [registration1; expiredTransfer; transfer1; registration2] freshProcess).
  vm_compute. reflexivity.
Defined.

(** X15.  Between its two bulk lookups and its three saves a batch
    touches the store for the contract alone, and at most once however
    many tokens it creates: nothing, one [get], or one [get] followed by
    the two inserts.  It does not touch it at all when the contract is
    cached or every token of the batch is stored. *)
Theorem batch_resolves_contract_at_most_once world evs p p' :
  saveENSData world evs p = (Returned tt, p') →
  ∃ mid os ts xs,
    calls (store p')
    = calls (store p)
      ++ [CallFindBy KToken (elements (tokensIds evs));
          CallFindBy KOwner (elements (ownersIds evs))]
      ++ mid
      ++ [CallSave KOwner os; CallSave KToken ts; CallSave KTransfer xs]
    ∧ resolverCalls mid
    ∧ (is_Some (contractEntity p) ∨ tokensIds evs ⊆ dom (tokenRows (store p)) →
       mid = []).
Proof.
  intros (b0 & p0 & b & p1 & H0 & H1 & H2)%saveENSData_Returned.
  destruct (prefetch_spec evs p)
    as (b0' & p0' & H0' & Hw0 & _ & _ & Hv0 & _ & Hce0 & _ & Hcalls0).
  rewrite H0 in H0'. injection H0' as <- <-.
  pose proof (reconcile_wf _ _ _ _ _ _ _ Hw0 H1) as Hw.
  destruct (reconcile_calls _ _ _ _ _ _ _ Hw0 H1) as (mid & Hcalls1 & Hmid & Hnil).
  destruct (persist_spec b p1 Hw)
    as (p2 & H2' & _ & _ & _ & _ & _ & _ & _ & os & ts & xs & Hcalls2).
  rewrite H2 in H2'. injection H2' as <-.
  exists mid, os, ts, xs. split_and!; [|done|].
  - by rewrite Hcalls2, Hcalls1, Hcalls0, <-!(assoc_L (++)).
  - intros [Hc|Hsub]; apply Hnil; [left; by rewrite Hce0|right].
    intros s Hs. apply elem_of_dom, (tokenView_is_Some _ _ Hw0).
    rewrite Hv0, lookup_fmap, map_lookup_filter.
    pose proof (Hsub s Hs) as Hrow. apply elem_of_dom in Hrow as [row ->]. simpl.
    rewrite option_guard_True by done. by eexists.
Qed.

Lemma batch_resolves_contract_at_most_once_witness :
  ∃ p',
    saveENSData calmWorld [registration1; registration2] freshProcess = (Returned tt, p')
    ∧ ∃ mid os ts xs,
        calls (store p')
        = calls (store freshProcess)
          ++ [CallFindBy KToken (elements (tokensIds [registration1; registration2]));
              CallFindBy KOwner (elements (ownersIds [registration1; registration2]))]
          ++ mid
          ++ [CallSave KOwner os; CallSave KToken ts; CallSave KTransfer xs]
        ∧ resolverCalls mid
        ∧ (is_Some (contractEntity freshProcess)
           ∨ tokensIds [registration1; registration2]
             ⊆ dom (tokenRows (store freshProcess)) →
           mid = []).
Proof.
  eexists. split; [vm_compute; reflexivity|].
  apply (batch_resolves_contract_at_most_once calmWorld [registration1; registration2]
           freshProcess).
  vm_compute. reflexivity.
Defined.

(** ** When a batch throws *)

Lemma bind_Thrown {A B} (c : M A) (k : A → M B) p msg p' :
  bind c k p = (Thrown msg, p') →
  c p = (Thrown msg, p')
  ∨ ∃ a p1, c p = (Returned a, p1) ∧ k a p1 = (Thrown msg, p').
Proof.
  unfold bind. destruct (c p) as [[a|msg1] p1].
  - intros H. right. by exists a, p1.
  - intros [= <- <-]. by left.
Qed.

Lemma reconcileEvent_Thrown amb e b p msg p' :
  reconcileEvent amb e b p = (Thrown msg, p') →
  getOrCreateContractEntity p = (Thrown msg, p').
Proof.
  unfold reconcileEvent.
  destruct (resolveOwner (e_from e) b) as [fromOwner b1].
  destruct (resolveOwner (e_to e) b1) as [toOwner b2].
  unfold bind at 1. unfold resolveToken.
  destruct (tokens b2 !! pretty (e_tokenId e)) as [r|].
  - unfold ret at 1.
    destruct (expiryBlock_cases amb e r (assign r (with_owner toOwner) b2) p)
      as [[_ H]|[(x & _ & _ & _ & H)|(x & n & u & i & _ & _ & _ & _ & H)]];
      by rewrite (bind_step _ _ _ _ _ H).
  - unfold bind at 1.
    destruct (getOrCreateContractEntity p) as [[c|msg'] p3] eqn:Hc.
    + unfold ret at 1. cbv beta iota.
      set (b3 := mkBatch _ _ _ _ _). set (r := length (heap b2)).
      destruct (expiryBlock_cases amb e r (assign r (with_owner toOwner) b3) p3)
        as [[_ H]|[(x & _ & _ & _ & H)|(x & n & u & i & _ & _ & _ & _ & H)]];
        by rewrite (bind_step _ _ _ _ _ H).
    + by intros [= <- <-].
Qed.

Lemma reconcile_Thrown world k evs b p msg p' :
  reconcile world k evs b p = (Thrown msg, p') →
  contractEntity p' = Some newGoodContract.
Proof.
  revert k b p. induction evs as [|e evs IH]; intros k b p H; simpl in H; [done|].
  apply bind_Thrown in H as [H|(b1 & p1 & _ & H)]; [|by eapply IH].
  by apply reconcileEvent_Thrown, resolver_state_after_throw in H.
Qed.

Lemma reconcileEvent_throws amb e b p msg p3 :
  tokens b !! pretty (e_tokenId e) = None →
  getOrCreateContractEntity p = (Thrown msg, p3) →
  reconcileEvent amb e b p = (Thrown msg, p3).
Proof.
  intros Hk Hc. unfold reconcileEvent.
  destruct (resolveOwner (e_from e) b) as [fromOwner b1] eqn:H1.
  destruct (resolveOwner (e_to e) b1) as [toOwner b2] eqn:H2.
  apply resolveOwner_frame in H1 as (Ht1 & _). apply resolveOwner_frame in H2 as (Ht2 & _).
  unfold bind at 1. unfold resolveToken. rewrite Ht2, Ht1, Hk.
  unfold bind at 1. by rewrite Hc.
Qed.

Lemma reconcile_throws world k evs b p :
  wf b → ¬ tokensIds evs ⊆ dom (tokens b) →
  contractEntity p = None →
  goodContracts (store p) !! contractAddress = None →
  is_Some (badContracts (store p) !! contractAddress) →
  ∃ msg p', reconcile world k evs b p = (Thrown msg, p').
Proof.
  revert k b p. induction evs as [|e evs IH]; intros k b p Hw Hsub Hc Hg Hb; simpl.
  - exfalso. apply Hsub. unfold tokensIds. set_solver.
  - destruct (tokens b !! pretty (e_tokenId e)) as [r|] eqn:Hk.
    + destruct (reconcileEvent_total_existing (world k) e b p) as (b1 & p1 & H1);
        [by eexists|].
      rewrite (bind_step _ _ _ _ _ H1).
      pose proof (reconcileEvent_wf _ _ _ _ _ _ Hw H1) as Hw1.
      destruct (reconcileEvent_resolver _ _ _ _ _ _ Hw H1)
        as (_ & [(_ & Ht & Hst & Hce)|(c & p3 & Hn & _)]); [|congruence].
      apply IH; [done| |by rewrite Hce|by rewrite Hst..].
      rewrite Ht. intros Hsub'. apply Hsub. rewrite tokensIds_cons.
      apply elem_of_dom_2 in Hk. set_solver.
    + destruct (getOrCreateContractEntity_throws p Hc Hg Hb) as (msg & p3 & Hthrow).
      exists msg, p3. unfold bind.
      by rewrite (reconcileEvent_throws _ _ _ _ _ _ Hk Hthrow).
Qed.

Lemma saveENSData_throws world evs p :
  ¬ tokensIds evs ⊆ dom (tokenRows (store p)) →
  contractEntity p = None →
  goodContracts (store p) !! contractAddress = None →
  is_Some (badContracts (store p) !! contractAddress) →
  ∃ msg p', saveENSData world evs p = (Thrown msg, p').
Proof.
  intros Hsub Hc Hg Hb.
  destruct (prefetch_spec evs p)
    as (b0 & p0 & H0 & Hw0 & _ & _ & Hv0 & Htab0 & Hce0 & _).
  injection Htab0 as Hg0 Hb0 _ _ _.
  unfold saveENSData. rewrite (bind_step _ _ _ _ _ H0).
  destruct (reconcile_throws world 0 evs b0 p0 Hw0) as (msg & p' & H1);
    [|by rewrite Hce0|by rewrite Hg0|by rewrite Hb0|].
  - intros Hsub'. apply Hsub. intros s Hs.
    pose proof (Hsub' s Hs) as Hin.
    apply elem_of_dom, (tokenView_is_Some _ _ Hw0) in Hin.
    rewrite Hv0, lookup_fmap, fmap_is_Some in Hin. destruct Hin as [row Hin].
    apply map_lookup_filter_Some in Hin as [Hin _]. by apply elem_of_dom.
  - exists msg, p'. unfold bind. by rewrite H1.
Qed.


Lemma saveENSData_Thrown world evs p msg p' :
  saveENSData world evs p = (Thrown msg, p') →
  contractEntity p' = Some newGoodContract.
Proof.
  intros H. unfold saveENSData in H.
  destruct (prefetch_spec evs p) as (b0 & p0 & H0 & Hw0 & _).
  rewrite (bind_step _ _ _ _ _ H0) in H.
  apply bind_Thrown in H as [H1|(b & p1 & H1 & H2)].
  - by eapply reconcile_Thrown.
  - pose proof (reconcile_wf _ _ _ _ _ _ _ Hw0 H1) as Hw.
    destruct (persist_spec b p1 Hw) as (p2 & H2' & _). congruence.
Qed.

(** X16.  A batch that has to create a token while the contract is not
    cached, the store has no [GoodContract] under the contract address
    and has a [BadContract] under it, makes the callback throw.  The
    tables are then what they were before the batch, and the module
    variable holds the new [GoodContract]: the process remembers a
    contract that the store does not have. *)
Theorem stale_legacy_record_fails_the_batch events world blocks evs p :
  blocks ≠ [] → collect events blocks = Some evs →
  ¬ tokensIds evs ⊆ dom (tokenRows (store p)) →
  contractEntity p = None →
  goodContracts (store p) !! contractAddress = None →
  is_Some (badContracts (store p) !! contractAddress) →
  ∃ msg p',
    callback events world blocks p = (Thrown msg, p')
    ∧ tables (store p') = tables (store p)
    ∧ contractEntity p' = Some newGoodContract
    ∧ goodContracts (store p') !! contractAddress = None.
Proof.
  intros Hne Hevs Hsub Hc Hg Hb.
  destruct (saveENSData_throws world evs p Hsub Hc Hg Hb) as (msg & q & H).
  pose proof (saveENSData_Thrown _ _ _ _ _ H) as Hq.
  unfold callback, transact. rewrite Hevs.
  destruct (last blocks) eqn:Hlast; [|by apply last_None in Hlast].
  rewrite H. eexists _, _. split; [reflexivity|]. simpl. by split_and!.
Qed.

Lemma stale_legacy_record_fails_the_batch_witness :
  ∃ evs msg p',
    sampleBlocks ≠ []
    ∧ collect sampleEvents sampleBlocks = Some evs
    ∧ ¬ tokensIds evs ⊆ dom (tokenRows (store legacyProcess))
    ∧ contractEntity legacyProcess = None
    ∧ goodContracts (store legacyProcess) !! contractAddress = None
    ∧ is_Some (badContracts (store legacyProcess) !! contractAddress)
    ∧ callback sampleEvents calmWorld sampleBlocks legacyProcess = (Thrown msg, p')
    ∧ tables (store p') = tables (store legacyProcess)
    ∧ contractEntity p' = Some newGoodContract
    ∧ goodContracts (store p') !! contractAddress = None.
Proof.
  assert (Hne : sampleBlocks ≠ []) by done.
  assert (Hc : contractEntity legacyProcess = None) by reflexivity.
  assert (Hg : goodContracts (store legacyProcess) !! contractAddress = None)
    by reflexivity.
  assert (Hb : is_Some (badContracts (store legacyProcess) !! contractAddress))
    by (vm_compute; eexists; reflexivity).
  destruct (collect sampleEvents sampleBlocks) as [evs|] eqn:Hevs;
    [|vm_compute in Hevs; discriminate].
  assert (Hsub : ¬ tokensIds evs ⊆ dom (tokenRows (store legacyProcess))).
  { vm_compute in Hevs. injection Hevs as <-.
    apply (bool_decide_unpack _). vm_compute. exact I. }
  destruct (stale_legacy_record_fails_the_batch sampleEvents calmWorld sampleBlocks
              evs legacyProcess Hne Hevs Hsub Hc Hg Hb)
    as (msg & p' & H1 & H2 & H3 & H4).
  exists evs, msg, p'. by split_and!.
Defined.

(** ** References between the rows *)

Lemma getOrCreateContractEntity_resolves p c p' :
  contractsResolve p → getOrCreateContractEntity p = (Returned c, p') →
  contractsResolve p' ∧ dom (goodContracts (store p)) ⊆ dom (goodContracts (store p')).
Proof.
  unfold contractsResolve. intros [Hk Hc].
  unfold getOrCreateContractEntity, bind, get_contractEntity, ret.
  destruct (contractEntity p) as [c0|] eqn:Hce.
  { intros [= <- <-]. by rewrite Hce. }
  unfold store_get_GoodContract, set_contractEntity,
    store_insert_GoodContract, store_insert_BadContract, with_store; simpl.
  destruct (goodContracts (store p) !! contractAddress) as [g|] eqn:Hg; simpl.
  { intros [= <- <-]. simpl. split_and!; try done.
    rewrite (Hk _ _ Hg). by apply elem_of_dom. }
  rewrite Hg; simpl.
  destruct (badContracts (store p) !! contractAddress) as [bd|] eqn:Hb; simpl;
    [done|].
  intros [= <- <-]. simpl. split_and!.
  - by apply map_Forall_insert_2.
  - rewrite dom_insert. set_solver.
  - rewrite dom_insert. set_solver.
Qed.

Lemma reconcile_resolves world k evs b p b' p' :
  wf b → contractsResolve p → reconcile world k evs b p = (Returned b', p') →
  contractsResolve p' ∧ dom (goodContracts (store p)) ⊆ dom (goodContracts (store p')).
Proof.
  revert k b p. induction evs as [|e evs IH]; intros k b p Hw Hp H; simpl in H.
  - by injection H as <- <-.
  - apply bind_Returned in H as (b1 & p1 & H1 & H).
    pose proof (reconcileEvent_wf _ _ _ _ _ _ Hw H1) as Hw1.
    assert (Hp1 : contractsResolve p1
                  ∧ dom (goodContracts (store p)) ⊆ dom (goodContracts (store p1))).
    { destruct (reconcileEvent_resolver _ _ _ _ _ _ Hw H1)
        as (_ & [(_ & _ & Hst & Hce)|(c & p3 & _ & Hg & Hst & Hce & _)]).
      - unfold contractsResolve. by rewrite Hst, Hce.
      - destruct (getOrCreateContractEntity_resolves _ _ _ Hp Hg) as [Hp3 Hsub].
        apply getOrCreateContractEntity_Returned in Hg as [Hc3 _].
        unfold contractsResolve in *. by rewrite Hst, Hce, <-Hc3. }
    destruct Hp1 as [Hp1 Hsub1]. destruct (IH _ _ _ Hw1 Hp1 H) as [Hp' Hsub].
    split; [done|]. set_solver.
Qed.

Lemma batchPatch_owner_in world k evs s a :
  pt_owner (batchPatch world k evs s) = Some (Some a) → a ∈ ownersIds evs.
Proof.
  revert k. induction evs as [|e evs IH]; intros k; simpl; [done|].
  rewrite ownersIds_cons. case_decide.
  - simpl. destruct (pt_owner (batchPatch world (S k) evs s)) as [o|] eqn:Ho; simpl.
    + intros [= ->]. apply elem_of_union_r. by eapply IH.
    + rewrite pt_owner_eventPatch. intros [= Ha].
      apply elem_of_union_l, elem_of_list_to_set, addresses_spec. by right.
  - intros Ha. apply elem_of_union_r. by eapply IH.
Qed.

(** X17.  A batch keeps the references between the rows resolved: when
    every owner, contract and token a row of the store refers to is
    stored before the batch, the same holds after it, for the rows the
    batch wrote and for those it left. *)
Theorem batch_keeps_references_resolved world evs p p' :
  referencesResolve p → saveENSData world evs p = (Returned tt, p') →
  referencesResolve p'.
Proof.
  intros (Hc & Htok & Hxfer) H.
  pose proof (saveENSData_tables _ _ _ _ H) as (Hor & Hout & _ & Hxr & _).
  pose proof (λ s, saveENSData_token_rows _ _ _ _ s H) as Hrows.
  apply saveENSData_Returned in H as (b0 & p0 & b & p1 & H0 & H1 & H2).
  destruct (prefetch_spec evs p)
    as (b0' & p0' & H0' & Hw0 & _ & _ & _ & Htab0 & Hce0 & _).
  rewrite H0 in H0'. injection H0' as <- <-.
  injection Htab0 as Hg0 _ _ _ _.
  pose proof (reconcile_wf _ _ _ _ _ _ _ Hw0 H1) as Hw.
  destruct (λ Hp0, reconcile_resolves _ _ _ _ _ _ _ Hw0 Hp0 H1) as [Hc1 Hsub1].
  { unfold contractsResolve. by rewrite Hg0, Hce0. }
  destruct (persist_spec b p1 Hw) as (p2 & H2' & Hg2 & _ & _ & _ & _ & Hce2 & _).
  rewrite H2 in H2'. injection H2' as <-.
  assert (Hc' : contractsResolve p').
  { unfold contractsResolve. by rewrite Hg2, Hce2. }
  assert (Hgood : dom (goodContracts (store p)) ⊆ dom (goodContracts (store p'))).
  { by rewrite Hg2, <-Hg0. }
  assert (Hdom : ∀ s, s ∈ dom (tokenRows (store p)) ∪ tokensIds evs →
                      s ∈ dom (tokenRows (store p'))).
  { intros s Hs. apply elem_of_dom.
    destruct (decide (s ∈ tokensIds evs)) as [Hin|Hnin].
    - specialize (Hrows s Hin).
      destruct (tokenRows (store p) !! s); [by eexists|].
      destruct Hrows as (c & _ & ->). by eexists.
    - rewrite (Hout s Hnin). apply elem_of_dom. set_solver. }
  split_and!; [done| |].
  - intros s row' Hrow'. unfold tokenRowResolves.
    destruct (decide (s ∈ tokensIds evs)) as [Hin|Hnin].
    + specialize (Hrows s Hin).
      destruct (tokenRows (store p) !! s) as [old|] eqn:Hold.
      * rewrite Hrow' in Hrows. injection Hrows as ->.
        destruct (Htok _ _ Hold) as [Ho Hct]. simpl. split.
        -- destruct (pt_owner (batchPatch world 0 evs s)) as [[a|]|] eqn:HP; simpl.
           ++ rewrite Hor. apply elem_of_union_r. by eapply batchPatch_owner_in.
           ++ destruct (tr_owner old); [|done]. simpl in *. rewrite Hor. set_solver.
           ++ destruct (tr_owner old); [|done]. simpl in *. rewrite Hor. set_solver.
        -- destruct (tr_contract old); [|done]. simpl in *. set_solver.
      * destruct Hrows as (c & Hce & Hrows). rewrite Hrow' in Hrows.
        injection Hrows as ->. simpl. split.
        -- destruct (pt_owner (batchPatch world 0 evs s)) as [[a|]|] eqn:HP; simpl;
             try done.
           rewrite Hor. apply elem_of_union_r. by eapply batchPatch_owner_in.
        -- destruct Hc' as [_ Hc']. by rewrite Hce in Hc'.
    + rewrite (Hout s Hnin) in Hrow'. destruct (Htok _ _ Hrow') as [Ho Hct]. split.
      * destruct (tr_owner row'); [|done]. simpl in *. rewrite Hor. set_solver.
      * destruct (tr_contract row'); [|done]. simpl in *. set_solver.
  - intros k x Hx. rewrite Hxr in Hx. unfold transferRowResolves.
    apply upsertAll_lookup_Some in Hx as [Hin|Hold].
    + apply batchTransferRows_elem in Hin as (e & He & _ & Hf & Ht & ->). simpl.
      rewrite Hor. split_and!.
      * apply elem_of_union_r, ownersIds_elem. eauto 10.
      * apply elem_of_union_r, ownersIds_elem. eauto 10.
      * apply Hdom, elem_of_union_r. unfold tokensIds.
        apply elem_of_list_to_set, list_elem_of_fmap. eauto.
    + destruct (Hxfer _ _ Hold) as (Hf & Ht & Htk). rewrite Hor. split_and!.
      * set_solver.
      * set_solver.
      * destruct (xr_token x); [|done]. simpl in *. apply Hdom. set_solver.
Qed.

Lemma batch_keeps_references_resolved_witness :
  ∃ p',
    referencesResolve afterSampleBatch
    ∧ saveENSData stormyWorld [registration2; transfer1] afterSampleBatch
      = (Returned tt, p')
    ∧ referencesResolve p'.
Proof.
  eexists. split; [apply (bool_decide_unpack _); vm_compute; exact I|].
  split; [vm_compute; reflexivity|].
  apply (batch_keeps_references_resolved stormyWorld [registration2; transfer1]
           afterSampleBatch).
  - apply (bool_decide_unpack _). vm_compute. exact I.
  - vm_compute. reflexivity.
Defined.

(** ** The batch callback *)

Lemma collectFrom_app events l1 l2 :
  collectFrom events (l1 ++ l2)
  = a ← collectFrom events l1; b ← collectFrom events l2; Some (a ++ b).
Proof.
  induction l1 as [|ci l1 IH]; simpl.
  - by destruct (collectFrom events l2).
  - destruct (itemEvents events ci.1 ci.2) as [pushed|]; simpl; [|done].
    rewrite IH. destruct (collectFrom events l1) as [a|]; simpl; [|done].
    destruct (collectFrom events l2) as [b|]; simpl; [|done].
    by rewrite (assoc_L (++)).
Qed.

Lemma blockEvents_flat events c items :
  blockEvents events c items = collectFrom events (pair c <$> items).
Proof. induction items as [|i items IH]; simpl; [done|]. by rewrite IH. Qed.

Lemma collect_flat events blocks :
  collect events blocks = collectFrom events (logsOf blocks).
Proof.
  induction blocks as [|c blocks IH]; simpl; [done|].
  change (logsOf (c :: blocks)) with ((pair c <$> block_items c) ++ logsOf blocks).
  by rewrite collectFrom_app, blockEvents_flat, IH.
Qed.

(** With three different topics an item gives no event, or the one event
    of the handler its first topic selects. *)
Lemma itemEvents_cases events c i l :
  topicsDiffer events → itemEvents events c i = Some l →
  l = [] ∧ (∀ d, ¬ decodedBy events i d)
  ∨ ∃ d, l = [eventOf (c, i, d)] ∧ decodedBy events i d
         ∧ ∀ d', decodedBy events i d' → d' = d.
Proof.
  intros (H12 & H13 & H23). unfold itemEvents, decodedBy.
  destruct (bool_decide_reflect (item_address i = contractAddress)) as [Ha|Ha]; simpl.
  2:{ intros [= <-]. left. split; [done|]. by intros d (? & _). }
  destruct (bool_decide_reflect (item_kind i = "evmLog")) as [Hk|Hk]; simpl.
  2:{ intros [= <-]. left. split; [done|]. by intros d (_ & ? & _). }
  destruct (bool_decide_reflect
              (head (log_topics (item_evmLog i)) = Some (NameRegistered_topic events)))
    as [H1|H1];
  destruct (bool_decide_reflect
              (head (log_topics (item_evmLog i)) = Some (NameRenewed_topic events)))
    as [H2|H2];
  destruct (bool_decide_reflect
              (head (log_topics (item_evmLog i)) = Some (Transfer_topic events)))
    as [H3|H3];
  try (exfalso; congruence).
  - destruct (NameRegistered_decode events (item_evmLog i)) as [[[id owner] x]|] eqn:Hd;
      simpl; [|done].
    intros [= <-]. right. exists (NameRegisteredLog id owner x).
    split_and!; try done. intros [] (_ & _ & Ht & Hd'); congruence.
  - destruct (NameRenewed_decode events (item_evmLog i)) as [[id x]|] eqn:Hd;
      simpl; [|done].
    intros [= <-]. right. exists (NameRenewedLog id x).
    split_and!; try done. intros [] (_ & _ & Ht & Hd'); congruence.
  - destruct (Transfer_decode events (item_evmLog i)) as [[[from to] id]|] eqn:Hd;
      simpl; [|done].
    intros [= <-]. right. exists (TransferLog from to id).
    split_and!; try done. intros [] (_ & _ & Ht & Hd'); congruence.
  - intros [= <-]. left. split; [done|]. intros [] (_ & _ & Ht & _); congruence.
Qed.

Lemma collectFrom_spec events logs evs :
  topicsDiffer events → collectFrom events logs = Some evs →
  ∃ ds,
    evs = eventOf <$> ds
    ∧ Forall (λ x, decodedBy events x.1.2 x.2) ds
    ∧ sublist (fst <$> ds) logs
    ∧ ∀ ci d, ci ∈ logs → decodedBy events ci.2 d → (ci, d) ∈ ds.
Proof.
  intros Ht. revert evs. induction logs as [|[c i] logs IH]; intros evs; simpl.
  - intros [= <-]. exists []. split_and!; try done. by intros ci d ?%elem_of_nil.
  - destruct (itemEvents events c i) as [pushed|] eqn:Hi; simpl; [|done].
    destruct (collectFrom events logs) as [more|]; simpl; [|done].
    intros [= <-]. destruct (IH more eq_refl) as (ds & -> & Hds & Hsub & Hall).
    destruct (itemEvents_cases _ _ _ _ Ht Hi) as [[-> Hno]|(d & -> & Hd & Huniq)].
    + exists ds. split_and!; try done.
      * by apply sublist_cons.
      * intros ci d' [->|Hin]%elem_of_cons Hd'; [by destruct (Hno d')|by apply Hall].
    + exists ((c, i, d) :: ds). split_and!; try done.
      * by constructor.
      * by apply sublist_skip.
      * intros ci d' [->|Hin]%elem_of_cons Hd'.
        -- rewrite (Huniq d' Hd'). by left.
        -- right. by apply Hall.
Qed.

Lemma NoDup_fmap_via {A B C} (g : A → B) (k : A → C) (l : list A) :
  (∀ x y, x ∈ l → y ∈ l → g x = g y → k x = k y) →
  NoDup (k <$> l) → NoDup (g <$> l).
Proof.
  induction l as [|a l IH]; intros Hgk Hk; simpl; [constructor|].
  apply NoDup_cons in Hk as [Ha Hk]. apply NoDup_cons. split.
  - intros (y & Hy & Hin)%list_elem_of_fmap. apply Ha, list_elem_of_fmap.
    exists y. split; [|done]. apply Hgk; [by left|by right|done].
  - apply IH; [|done]. intros x y Hx Hy. apply Hgk; by right.
Qed.

Lemma e_id_eventOf x :
  e_id (eventOf x) = syntheticId (logContextOf x.1.1 x.1.2) (tokenIdOf x.2).
Proof. destruct x as [[c i] []]; reflexivity. Qed.

Lemma syntheticId_key ctx ctx' id id' :
  dashFree (transaction_hash ctx) → dashFree (transaction_hash ctx') →
  dashFree (evmLog_address ctx) → dashFree (evmLog_address ctx') →
  0 ≤ id → 0 ≤ id' →
  syntheticId ctx id = syntheticId ctx' id' →
  (transaction_hash ctx, evmLog_index ctx) = (transaction_hash ctx', evmLog_index ctx').
Proof.
  intros Hh Hh' Ha Ha' Hi Hi' H. unfold syntheticId in H.
  apply dashFree_split in H as [-> H]; [|done..].
  apply dashFree_split in H as [_ H]; [|done..].
  apply dashFree_split in H as [_ H]; [|by apply pretty_Z_dashFree..].
  by apply (inj pretty) in H as ->.
Qed.

(** X18.  The events the callback collects are, in the order of its two
    loops, one for each log of the contract whose first topic is one of
    the three and none for any other item: with three different topics
    no log is handled twice, and each event is the one its topic's
    handler makes of the decoded log and the header of the log's own
    block. *)
Theorem collect_one_event_per_log events blocks evs :
  topicsDiffer events → collect events blocks = Some evs →
  ∃ ds,
    evs = eventOf <$> ds
    ∧ Forall (λ x, decodedBy events x.1.2 x.2) ds
    ∧ sublist (fst <$> ds) (logsOf blocks)
    ∧ ∀ ci d, ci ∈ logsOf blocks → decodedBy events ci.2 d → (ci, d) ∈ ds.
Proof.
  intros Ht H. rewrite collect_flat in H. by apply collectFrom_spec.
Qed.

Lemma collect_one_event_per_log_witness :
  ∃ evs,
    topicsDiffer sampleEvents
    ∧ collect sampleEvents sampleBlocks = Some evs
    ∧ ∃ ds,
        evs = eventOf <$> ds
        ∧ Forall (λ x, decodedBy sampleEvents x.1.2 x.2) ds
        ∧ sublist (fst <$> ds) (logsOf sampleBlocks)
        ∧ ∀ ci d, ci ∈ logsOf sampleBlocks → decodedBy sampleEvents ci.2 d →
                  (ci, d) ∈ ds.
Proof.
  eexists. split; [by repeat split|]. split; [vm_compute; reflexivity|].
  apply (collect_one_event_per_log sampleEvents sampleBlocks).
  - by repeat split.
  - vm_compute. reflexivity.
Defined.

(** X19.  Logs that differ in transaction hash or in log index give
    events with different ids: when the three topics differ, the decoded
    token ids are not negative and no hash or log address contains a
    dash, the ids of the events collected from a batch are pairwise
    different. *)
Theorem collected_ids_are_distinct events blocks evs :
  topicsDiffer events →
  (∀ i d, decodedBy events i d → 0 ≤ tokenIdOf d) →
  Forall (λ ci, dashFree (item_transaction_hash ci.2)
                ∧ dashFree (log_address (item_evmLog ci.2))) (logsOf blocks) →
  NoDup (logKey <$> logsOf blocks) →
  collect events blocks = Some evs →
  NoDup (e_id <$> evs).
Proof.
  intros Ht Hid Hdash Hkeys H. rewrite collect_flat in H.
  destruct (collectFrom_spec _ _ _ Ht H) as (ds & -> & Hds & Hsub & _).
  rewrite <-list_fmap_compose.
  apply (NoDup_fmap_via _ (logKey ∘ fst)).
  - intros x y Hx Hy. simpl. rewrite !e_id_eventOf.
    rewrite Forall_forall in Hds. rewrite Forall_forall in Hdash.
    assert (Hin : ∀ z, z ∈ ds → z.1 ∈ logsOf blocks).
    { intros z Hz. apply (sublist_subseteq _ _ Hsub).
      apply list_elem_of_fmap. eauto. }
    destruct (Hdash _ (Hin _ Hx)) as [Hxh Hxa], (Hdash _ (Hin _ Hy)) as [Hyh Hya].
    intros Heq. apply syntheticId_key in Heq; try done.
    + by eapply Hid, Hds.
    + by eapply Hid, Hds.
  - rewrite list_fmap_compose. eapply sublist_NoDup; [exact Hkeys|].
    by apply fmap_sublist.
Qed.

Lemma collected_ids_are_distinct_witness :
  ∃ evs,
    collect sampleEvents sampleBlocks = Some evs ∧ NoDup (e_id <$> evs).
Proof.
  eexists. split; [vm_compute; reflexivity|].
  apply (collected_ids_are_distinct sampleEvents sampleBlocks).
  - by repeat split.
  - intros i [] (_ & _ & _ & Hd); injection Hd as <-; simpl; lia.
  - apply (bool_decide_unpack _). vm_compute. exact I.
  - apply (bool_decide_unpack _). vm_compute. exact I.
  - vm_compute. reflexivity.
Defined.

Lemma itemEvents_handled events c i l :
  itemEvents events c i = Some l → Forall (λ e, ∃ item, e = handleLog item) l.
Proof.
  unfold itemEvents. destruct (_ && _); [|intros [= <-]; constructor].
  cbv zeta. set (topic0 := head (log_topics (item_evmLog i))).
  destruct (bool_decide (topic0 = Some (NameRegistered_topic events)));
    [destruct (NameRegistered_decode events (item_evmLog i)) as [[[id owner] x]|]|];
    simpl; try done;
    (destruct (bool_decide (topic0 = Some (NameRenewed_topic events)));
      [destruct (NameRenewed_decode events (item_evmLog i)) as [[id' x']|]|];
      simpl; try done);
    (destruct (bool_decide (topic0 = Some (Transfer_topic events)));
      [destruct (Transfer_decode events (item_evmLog i)) as [[[from to] tokenId]|]|];
      simpl; try done);
    intros [= <-];
    repeat (apply Forall_cons; split;
            [first [eexists (_, NameRegisteredLog _ _ _); reflexivity
                   |eexists (_, NameRenewedLog _ _); reflexivity
                   |eexists (_, TransferLog _ _ _); reflexivity]|]);
    apply Forall_nil; done.
Qed.

Lemma collectFrom_handled events logs evs :
  collectFrom events logs = Some evs → Forall (λ e, ∃ item, e = handleLog item) evs.
Proof.
  revert evs. induction logs as [|[c i] logs IH]; intros evs; simpl.
  - intros [= <-]. constructor.
  - destruct (itemEvents events c i) as [pushed|] eqn:Hi; simpl; [|done].
    destruct (collectFrom events logs) as [more|]; simpl; [|done].
    intros [= <-]. apply Forall_app. split; [by eapply itemEvents_handled|by apply IH].
Qed.

Lemma transact_Returned {A} (c : M A) p a p' :
  transact c p = (Returned a, p') ↔ c p = (Returned a, p').
Proof.
  unfold transact. destruct (c p) as [[a'|msg] q]; [done|].
  split; intros; discriminate.
Qed.

Lemma callback_Returned events world blocks p p' :
  callback events world blocks p = (Returned tt, p') →
  blocks ≠ []
  ∧ ∃ evs, collect events blocks = Some evs
           ∧ saveENSData world evs p = (Returned tt, p').
Proof.
  unfold callback. destruct (collect events blocks) as [evs|]; [|done].
  destruct blocks as [|c blocks]; [done|].
  destruct (last (c :: blocks)) eqn:Hlast; [|done].
  intros H. apply (proj1 (transact_Returned _ _ _ _)) in H.
  split; [done|]. by exists evs.
Qed.

(** X20.  For the events the callback collects, the early end of a turn
    never costs a transfer: when no other event of the batch has the id of
    an event, the transfer table after the callback holds the row of that
    event under its id if both its addresses are present and not empty,
    and what it held before if not. *)
Theorem logged_transfer_is_stored events world blocks p p' pre e post :
  callback events world blocks p = (Returned tt, p') →
  collect events blocks = Some (pre ++ e :: post) →
  e_id e ∉ e_id <$> pre ++ post →
  transferRows (store p') !! e_id e
  = if Js.truthy (e_from e) && Js.truthy (e_to e)
    then Some (mkTransferRow (e_block e) (e_timestamp e) (e_transactionHash e)
                 (Js.toLowerCase (Js.or_empty (e_from e)))
                 (Js.toLowerCase (Js.or_empty (e_to e)))
                 (Some (pretty (e_tokenId e))))
    else transferRows (store p) !! e_id e.
Proof.
  intros H Hevs Hid. apply callback_Returned in H as (_ & evs & Hevs' & H).
  rewrite Hevs in Hevs'. injection Hevs' as <-.
  destruct (saveENSData_tables _ _ _ _ H) as (_ & _ & _ & -> & _).
  rewrite (batchTransferRows_event _ _ _ _ _ Hid).
  rewrite collect_flat in Hevs. apply collectFrom_handled in Hevs.
  rewrite Forall_app, Forall_cons in Hevs. destruct Hevs as (_ & (item & ->) & _).
  unfold eventTransferRows.
  destruct (skipsRest (world (length pre)) (handleLog item)) eqn:Hskip.
  { by rewrite (handler_events_never_skip_a_transfer _ _ Hskip). }
  destruct (Js.truthy (e_from (handleLog item)) && Js.truthy (e_to (handleLog item)));
    [|done].
  unfold upsertAll. simpl. by rewrite lookup_insert_eq.
Qed.

Lemma logged_transfer_is_stored_witness :
  ∃ p',
    callback sampleEvents calmWorld sampleBlocks freshProcess = (Returned tt, p')
    ∧ transferRows (store p') !! ("0xh2-" +:+ contractAddress +:+ "-1-1")
      = Some (mkTransferRow 7 100 "0xh2" "0xab" "0xcd" (Some "1")).
Proof.
  eexists. split; [vm_compute; reflexivity|].
  apply (logged_transfer_is_stored sampleEvents calmWorld sampleBlocks freshProcess _
           [handleNameRegistered (mkLogContext "0xh1" contractAddress 0 100 7) 1 "0xAb" 10]
           (handleTransfer (mkLogContext "0xh2" contractAddress 1 100 7) "0xAb" "0xCd" 1)
           [handleNameRenewed (mkLogContext "0xh3" contractAddress 0 200 8) 1 20]).
  - vm_compute. reflexivity.
  - vm_compute. reflexivity.
  - apply (bool_decide_unpack _). vm_compute. exact I.
Defined.


(** ** A batch fed in two parts *)

Lemma getOrCreateContractEntity_resolved p c p' :
  getOrCreateContractEntity p = (Returned c, p') → c = resolvedContract p.
Proof.
  unfold getOrCreateContractEntity, bind, get_contractEntity, ret, resolvedContract.
  destruct (contractEntity p) as [c0|] eqn:Hc.
  { by intros [= <- <-]. }
  unfold store_get_GoodContract, set_contractEntity,
    store_insert_GoodContract, store_insert_BadContract, with_store; simpl.
  destruct (goodContracts (store p) !! contractAddress) as [g|] eqn:Hg; simpl.
  { by intros [= <- <-]. }
  rewrite Hg; simpl.
  destruct (badContracts (store p) !! contractAddress) as [bd|] eqn:Hb; simpl;
    [done|].
  by intros [= <- <-].
Qed.

Lemma reconcile_resolved world k evs b p b' p' :
  wf b → reconcile world k evs b p = (Returned b', p') →
  resolvedContract p' = resolvedContract p.
Proof.
  revert k b p. induction evs as [|e evs IH]; intros k b p Hw H; simpl in H.
  - by injection H as <- <-.
  - apply bind_Returned in H as (b1 & p1 & H1 & H).
    pose proof (reconcileEvent_wf _ _ _ _ _ _ Hw H1) as Hw1.
    rewrite (IH _ _ _ Hw1 H).
    destruct (reconcileEvent_resolver _ _ _ _ _ _ Hw H1)
      as (_ & [(_ & _ & Hst & Hce)|(c & p3 & _ & Hg & _ & Hce & _)]).
    + unfold resolvedContract. by rewrite Hst, Hce.
    + apply getOrCreateContractEntity_resolved in Hg as ->.
      unfold resolvedContract at 1. by rewrite Hce.
Qed.

Lemma saveENSData_resolved world evs p p' :
  saveENSData world evs p = (Returned tt, p') →
  resolvedContract p' = resolvedContract p.
Proof.
  intros (b0 & p0 & b & p1 & H0 & H1 & H2)%saveENSData_Returned.
  destruct (prefetch_spec evs p)
    as (b0' & p0' & H0' & Hw0 & _ & _ & _ & Htab0 & Hce0 & _).
  rewrite H0 in H0'. injection H0' as <- <-.
  injection Htab0 as Hg0 _ _ _ _.
  pose proof (reconcile_wf _ _ _ _ _ _ _ Hw0 H1) as Hw.
  destruct (persist_spec b p1 Hw) as (p2 & H2' & Hg2 & _ & _ & _ & _ & Hce2 & _).
  rewrite H2 in H2'. injection H2' as <-.
  transitivity (resolvedContract p1).
  - unfold resolvedContract. by rewrite Hg2, Hce2.
  - rewrite (reconcile_resolved _ _ _ _ _ _ _ Hw0 H1).
    unfold resolvedContract. by rewrite Hg0, Hce0.
Qed.

Lemma patchColumns_then P Q cols :
  patchColumns (thenPatch P Q) cols = patchColumns Q (patchColumns P cols).
Proof.
  destruct cols as [[[[n i] u] x] ct], P as [o1 n1 i1 u1 x1],
    Q as [[?|] [?|] [?|] [?|] [?|]]; reflexivity.
Qed.

Lemma patchColumns_noPatch cols : patchColumns noPatch cols = cols.
Proof. by destruct cols as [[[[n i] u] x] ct]. Qed.

(** The columns other than the owner of every token row after a batch. *)
Lemma saveENSData_columns world evs p p' s :
  saveENSData world evs p = (Returned tt, p') →
  otherColumns <$> tokenRows (store p') !! s
  = if decide (s ∈ tokensIds evs)
    then Some (patchColumns (batchPatch world 0 evs s)
                 (startColumns (resolvedContract p) (tokenRows (store p) !! s)))
    else otherColumns <$> tokenRows (store p) !! s.
Proof.
  intros H. case_decide as Hin.
  - pose proof (saveENSData_token_rows _ _ _ _ _ H Hin) as Hrow.
    destruct (tokenRows (store p) !! s) as [old|].
    + rewrite Hrow. simpl. unfold otherColumns. simpl. done.
    + destruct Hrow as (c & Hc & ->). simpl.
      rewrite <-(saveENSData_resolved _ _ _ _ H).
      unfold resolvedContract. rewrite Hc. done.
  - destruct (saveENSData_tables _ _ _ _ H) as (_ & Hout & _). by rewrite Hout.
Qed.

Lemma batchPatch_later world n k evs s :
  batchPatch world (n + k) evs s = batchPatch (laterWorld world n) k evs s.
Proof.
  revert k. induction evs as [|e evs IH]; intros k; simpl; [done|].
  by rewrite <-IH, Nat.add_succ_r.
Qed.

Lemma batchTransferRows_later world n k evs :
  batchTransferRows world (n + k) evs = batchTransferRows (laterWorld world n) k evs.
Proof.
  revert k. induction evs as [|e evs IH]; intros k; simpl; [done|].
  by rewrite <-IH, Nat.add_succ_r.
Qed.

Lemma batchRequests_later world n k evs :
  batchRequests world (n + k) evs = batchRequests (laterWorld world n) k evs.
Proof.
  revert k. induction evs as [|e evs IH]; intros k; simpl; [done|].
  by rewrite <-IH, Nat.add_succ_r.
Qed.

Lemma batchRequests_app world k l1 l2 :
  batchRequests world k (l1 ++ l2)
  = batchRequests world k l1 ++ batchRequests world (k + length l1) l2.
Proof.
  revert k. induction l1 as [|e l1 IH]; intros k; simpl.
  - by rewrite Nat.add_0_r.
  - by rewrite IH, <-Nat.add_succ_comm, (assoc_L (++)).
Qed.

Lemma batchPatch_absent world k evs s :
  s ∉ tokensIds evs → batchPatch world k evs s = noPatch.
Proof.
  intros Hs. apply batchPatch_others, Forall_forall. intros e He Heq.
  apply Hs. rewrite <-Heq. unfold tokensIds. apply elem_of_list_to_set, list_elem_of_fmap. eauto.
Qed.

Lemma tokensIds_app l1 l2 : tokensIds (l1 ++ l2) = tokensIds l1 ∪ tokensIds l2.
Proof. unfold tokensIds. by rewrite fmap_app, list_to_set_app_L. Qed.

Lemma ownersIds_app l1 l2 : ownersIds (l1 ++ l2) = ownersIds l1 ∪ ownersIds l2.
Proof. unfold ownersIds. by rewrite bind_app, list_to_set_app_L. Qed.

(** X22.  When every answer of the metadata service that has a body
    carries the three fields, feeding a batch in two parts, the second
    part meeting the clock and the service as it would in the whole
    batch, gives the same owner table, the same transfer table, the same
    requests and, for every token, the same name, image, uri, expiration
    and contract columns as feeding it whole.  Only the owner column of
    a token can then depend on where the batch is cut.  The condition on
    the answers keeps the batches on which no token is saved with an
    [undefined] name, uri or image over a stored row, where the model's
    upsert is the library's; the proof does not need it. *)
Theorem batch_in_two_parts world l1 l2 p p' p1 p2 :
  answersCarryFields world →
  saveENSData world (l1 ++ l2) p = (Returned tt, p') →
  saveENSData world l1 p = (Returned tt, p1) →
  saveENSData (laterWorld world (length l1)) l2 p1 = (Returned tt, p2) →
  ownerRows (store p2) = ownerRows (store p')
  ∧ transferRows (store p2) = transferRows (store p')
  ∧ requests p2 = requests p'
  ∧ ∀ s, otherColumns <$> tokenRows (store p2) !! s
         = otherColumns <$> tokenRows (store p') !! s.
Proof.
  intros _ H H1 H2.
  pose proof (saveENSData_tables _ _ _ _ H) as (Ho & _ & _ & Hx & _).
  pose proof (saveENSData_tables _ _ _ _ H1) as (Ho1 & _ & _ & Hx1 & _).
  pose proof (saveENSData_tables _ _ _ _ H2) as (Ho2 & _ & _ & Hx2 & _).
  split_and!.
  - rewrite Ho2, Ho1, Ho, ownersIds_app. set_solver.
  - rewrite Hx2, Hx1, Hx, batchTransferRows_app, upsertAll_app.
    by rewrite <-batchTransferRows_later, Nat.add_0_r.
  - apply saveENSData_Returned in H as (b0 & p0 & b & q & H0 & Hl & Hp).
    apply saveENSData_Returned in H1 as (b01 & p01 & b1 & q1 & H01 & Hl1 & Hp1).
    apply saveENSData_Returned in H2 as (b02 & p02 & b2 & q2 & H02 & Hl2 & Hp2).
    destruct (prefetch_spec (l1 ++ l2) p) as (? & ? & E & Hw0 & _ & _ & _ & _ & _ & Hr0 & _).
    rewrite H0 in E. injection E as <- <-.
    destruct (prefetch_spec l1 p) as (? & ? & E & Hw01 & _ & _ & _ & _ & _ & Hr01 & _).
    rewrite H01 in E. injection E as <- <-.
    destruct (prefetch_spec l2 p1) as (? & ? & E & Hw02 & _ & _ & _ & _ & _ & Hr02 & _).
    rewrite H02 in E. injection E as <- <-.
    destruct (persist_spec b q (reconcile_wf _ _ _ _ _ _ _ Hw0 Hl))
      as (? & E & _ & _ & _ & _ & _ & _ & Hrq & _).
    rewrite Hp in E. injection E as <-.
    destruct (persist_spec b1 q1 (reconcile_wf _ _ _ _ _ _ _ Hw01 Hl1))
      as (? & E & _ & _ & _ & _ & _ & _ & Hrq1 & _).
    rewrite Hp1 in E. injection E as <-.
    destruct (persist_spec b2 q2 (reconcile_wf _ _ _ _ _ _ _ Hw02 Hl2))
      as (? & E & _ & _ & _ & _ & _ & _ & Hrq2 & _).
    rewrite Hp2 in E. injection E as <-.
    rewrite Hrq2, (reconcile_requests _ _ _ _ _ _ _ Hw02 Hl2), Hr02.
    rewrite Hrq1, (reconcile_requests _ _ _ _ _ _ _ Hw01 Hl1), Hr01.
    rewrite Hrq, (reconcile_requests _ _ _ _ _ _ _ Hw0 Hl), Hr0.
    rewrite batchRequests_app, <-batchRequests_later, Nat.add_0_r.
    by rewrite (assoc_L (++)).
  - intros s.
    rewrite (saveENSData_columns _ _ _ _ s H), (saveENSData_columns _ _ _ _ s H2).
    rewrite (saveENSData_resolved _ _ _ _ H1).
    rewrite batchPatch_app, patchColumns_then, tokensIds_app.
    rewrite <-(batchPatch_later world (length l1) 0), Nat.add_0_r.
    change (0 + length l1)%nat with (length l1).
    pose proof (saveENSData_columns _ _ _ _ s H1) as Hs1.
    destruct (decide (s ∈ tokensIds l1)) as [Hin1|Hin1];
      destruct (decide (s ∈ tokensIds l2)) as [Hin2|Hin2].
    + rewrite decide_True by set_solver.
      destruct (tokenRows (store p1) !! s) as [r1|]; [|done].
      apply (inj Some) in Hs1.
      change (startColumns (resolvedContract p) (Some r1)) with (otherColumns r1).
      by rewrite Hs1.
    + rewrite decide_True by set_solver.
      rewrite (batchPatch_absent _ _ l2) by done.
      by rewrite patchColumns_noPatch.
    + rewrite decide_True by set_solver.
      rewrite (batchPatch_absent _ _ l1), patchColumns_noPatch by done.
      destruct (tokenRows (store p1) !! s) as [r1|],
        (tokenRows (store p) !! s) as [r|]; try done.
      apply (inj Some) in Hs1. unfold startColumns. by rewrite Hs1.
    + rewrite decide_False by set_solver. done.
Qed.

Lemma batch_in_two_parts_witness :
  ∃ p' p1 p2,
    answersCarryFields calmWorld
    ∧ saveENSData calmWorld ([registration1; transfer1] ++ [laterRenewal1; registration2])
      freshProcess = (Returned tt, p')
    ∧ saveENSData calmWorld [registration1; transfer1] freshProcess = (Returned tt, p1)
    ∧ saveENSData (laterWorld calmWorld 2) [laterRenewal1; registration2] p1
      = (Returned tt, p2)
    ∧ ownerRows (store p2) = ownerRows (store p')
    ∧ transferRows (store p2) = transferRows (store p')
    ∧ requests p2 = requests p'
    ∧ ∀ s, otherColumns <$> tokenRows (store p2) !! s
           = otherColumns <$> tokenRows (store p') !! s.
Proof.
  assert (Hw : answersCarryFields calmWorld).
  { intros k url. simpl. split_and!; by eexists. }
  eexists _, _, _. split; [exact Hw|]. split; [vm_compute; reflexivity|].
  split; [vm_compute; reflexivity|]. split; [vm_compute; reflexivity|].
  eapply (batch_in_two_parts calmWorld [registration1; transfer1]
            [laterRenewal1; registration2] freshProcess).
  - exact Hw.
  - vm_compute. reflexivity.
  - vm_compute. reflexivity.
  - vm_compute. reflexivity.
Defined.

Lemma stored_owner_after world pre e post p p' :
  saveENSData world (pre ++ e :: post) p = (Returned tt, p') →
  Forall (λ e', e_tokenId e' ≠ e_tokenId e) post →
  tokenRows (store p') !! pretty (e_tokenId e) ≫= tr_owner
  = if Js.truthy (e_to e) then Some (Js.toLowerCase (Js.or_empty (e_to e)))
    else tokenRows (store p) !! pretty (e_tokenId e) ≫= tr_owner.
Proof.
  intros H Hpost.
  pose proof (saveENSData_token_rows _ _ _ _ _ H (tokensIds_middle pre e post)) as Hrow.
  rewrite (batchPatch_last _ _ _ _ _ Hpost) in Hrow.
  destruct (tokenRows (store p) !! pretty (e_tokenId e)) as [old|].
  - rewrite Hrow. simpl. rewrite pt_owner_eventPatch. simpl.
    unfold ownerIdOf. by destruct (Js.truthy (e_to e)).
  - destruct Hrow as (c & _ & ->). simpl. rewrite pt_owner_eventPatch. simpl.
    unfold ownerIdOf. by destruct (Js.truthy (e_to e)).
Qed.

(** X23.  The owner column does depend on where a batch is cut.  When an
    event with a receiver is followed by an event of the same token
    without one, a transfer and then a renewal, feeding the two together
    leaves the owner the row had before, and feeding the second after the
    first has been saved stores the receiver. *)
Theorem renewal_after_transfer_depends_on_the_cut world e1 e2 p p' p1 p2 :
  e_tokenId e2 = e_tokenId e1 →
  Js.truthy (e_to e1) = true → Js.truthy (e_to e2) = false →
  saveENSData world [e1; e2] p = (Returned tt, p') →
  saveENSData world [e1] p = (Returned tt, p1) →
  saveENSData (laterWorld world 1) [e2] p1 = (Returned tt, p2) →
  tokenRows (store p') !! pretty (e_tokenId e1) ≫= tr_owner
  = tokenRows (store p) !! pretty (e_tokenId e1) ≫= tr_owner
  ∧ tokenRows (store p2) !! pretty (e_tokenId e1) ≫= tr_owner
    = Some (Js.toLowerCase (Js.or_empty (e_to e1))).
Proof.
  intros Hid Ht1 Ht2 H H1 H2. split.
  - pose proof (stored_owner_after world [e1] e2 [] p p' H (Forall_nil_2 _)) as Ho.
    by rewrite Ht2, Hid in Ho.
  - pose proof (stored_owner_after _ [] e2 [] p1 p2 H2 (Forall_nil_2 _)) as Ho2.
    pose proof (stored_owner_after world [] e1 [] p p1 H1 (Forall_nil_2 _)) as Ho1.
    rewrite Ht2, Hid in Ho2. rewrite Ht1 in Ho1. by rewrite Ho2, Ho1.
Qed.

Lemma renewal_after_transfer_depends_on_the_cut_witness :
  ∃ p' p1 p2,
    e_tokenId renewal1 = e_tokenId transfer1
    ∧ Js.truthy (e_to transfer1) = true ∧ Js.truthy (e_to renewal1) = false
    ∧ saveENSData calmWorld [transfer1; renewal1] registeredProcess = (Returned tt, p')
    ∧ saveENSData calmWorld [transfer1] registeredProcess = (Returned tt, p1)
    ∧ saveENSData (laterWorld calmWorld 1) [renewal1] p1 = (Returned tt, p2)
    ∧ tokenRows (store p') !! "1" ≫= tr_owner = Some "0xab"
    ∧ tokenRows (store p2) !! "1" ≫= tr_owner = Some "0xcd".
Proof.
  eexists _, _, _. split; [reflexivity|]. split; [reflexivity|]. split; [reflexivity|].
  split; [vm_compute; reflexivity|]. split; [vm_compute; reflexivity|].
  split; [vm_compute; reflexivity|].
  eapply (renewal_after_transfer_depends_on_the_cut calmWorld transfer1 renewal1
            registeredProcess).
  - reflexivity.
  - reflexivity.
  - reflexivity.
  - vm_compute. reflexivity.
  - vm_compute. reflexivity.
  - vm_compute. reflexivity.
Defined.

(** ** The spelling of addresses *)

Lemma truthy_lower a : Js.truthy (Js.toLowerCase <$> a) = Js.truthy a.
Proof. destruct a as [[|c s]|]; reflexivity. Qed.

Lemma lower_or_empty_lower a :
  Js.toLowerCase (Js.or_empty (Js.toLowerCase <$> a)) = Js.toLowerCase (Js.or_empty a).
Proof. destruct a as [s|]; simpl; [apply toLowerCase_idemp|done]. Qed.

Lemma ownerIdOf_lower a : ownerIdOf (Js.toLowerCase <$> a) = ownerIdOf a.
Proof. unfold ownerIdOf. by rewrite truthy_lower, lower_or_empty_lower. Qed.

Lemma tokensIds_lower evs : tokensIds (lowerAddresses <$> evs) = tokensIds evs.
Proof. unfold tokensIds. by rewrite <-list_fmap_compose. Qed.

Lemma ownersIds_lower evs : ownersIds (lowerAddresses <$> evs) = ownersIds evs.
Proof.
  induction evs as [|e evs IH]; [done|].
  rewrite fmap_cons, !ownersIds_cons, IH. f_equal.
  unfold addresses. simpl. by rewrite !truthy_lower, !lower_or_empty_lower.
Qed.

Lemma batchPatch_lower world k evs s :
  batchPatch world k (lowerAddresses <$> evs) s = batchPatch world k evs s.
Proof.
  revert k. induction evs as [|e evs IH]; intros k; simpl; [done|].
  rewrite IH. case_decide; [|done]. f_equal.
  unfold eventPatch, fetches. simpl. by rewrite ownerIdOf_lower.
Qed.

Lemma batchTransferRows_lower world k evs :
  batchTransferRows world k (lowerAddresses <$> evs) = batchTransferRows world k evs.
Proof.
  revert k. induction evs as [|e evs IH]; intros k; simpl; [done|].
  rewrite IH. f_equal. unfold eventTransferRows, skipsRest. simpl.
  by rewrite !truthy_lower, !lower_or_empty_lower.
Qed.

Lemma batchRequests_lower world k evs :
  batchRequests world k (lowerAddresses <$> evs) = batchRequests world k evs.
Proof.
  revert k. induction evs as [|e evs IH]; intros k; simpl; [done|]. by rewrite IH.
Qed.

Lemma getOrCreateContractEntity_state p q c p3 :
  contractState p = contractState q →
  getOrCreateContractEntity p = (Returned c, p3) →
  ∃ q3, getOrCreateContractEntity q = (Returned c, q3)
        ∧ contractState q3 = contractState p3.
Proof.
  destruct p as [ce [g bd o t x cs] rq], q as [ce' [g' bd' o' t' x' cs'] rq'].
  unfold contractState. simpl. intros [= <- <- <-].
  unfold getOrCreateContractEntity, bind, get_contractEntity, ret. simpl.
  destruct ce as [c0|].
  { intros [= <- <-]. by eexists. }
  unfold store_get_GoodContract, set_contractEntity,
    store_insert_GoodContract, store_insert_BadContract, with_store; simpl.
  destruct (g !! contractAddress) as [gc|] eqn:Hg; simpl.
  { intros [= <- <-]. by eexists. }
  rewrite !Hg; simpl.
  destruct (bd !! contractAddress) as [b|] eqn:Hb; simpl; [done|].
  intros [= <- <-]. by eexists.
Qed.

(** The contract tables and the cache after the loop: as they were when
    every token of the batch was held, as the one resolution left them
    when not. *)
Lemma reconcile_contracts world k evs b p b' p' :
  wf b → reconcile world k evs b p = (Returned b', p') →
  tokensIds evs ⊆ dom (tokens b) ∧ contractState p' = contractState p
  ∨ ¬ tokensIds evs ⊆ dom (tokens b)
    ∧ ∃ c p3,
        getOrCreateContractEntity p = (Returned c, p3)
        ∧ contractState p' = contractState p3.
Proof.
  revert k b p. induction evs as [|e evs IH]; intros k b p Hw H; simpl in H.
  - injection H as <- <-. left. split; [|done]. unfold tokensIds. set_solver.
  - apply bind_Returned in H as (b1 & p1 & H1 & H).
    pose proof (reconcileEvent_wf _ _ _ _ _ _ Hw H1) as Hw1.
    rewrite tokensIds_cons.
    destruct (reconcileEvent_resolver _ _ _ _ _ _ Hw H1)
      as (_ & [([r Hk] & Ht & Hst & Hce)|(c & p3 & Hk & Hg & Hst & Hce & _)]).
    + apply elem_of_dom_2 in Hk.
      assert (Hcs : contractState p1 = contractState p).
      { unfold contractState. by rewrite Hst, Hce. }
      destruct (IH _ _ _ Hw1 H) as [(Hsub & Hs)|(Hsub & c & p3 & Hg & Hs)];
        rewrite Ht in Hsub.
      * left. split; [set_solver|congruence].
      * right. split; [set_solver|].
        destruct (getOrCreateContractEntity_state _ _ _ _ Hcs Hg) as (q3 & Hq & Hs3).
        exists c, q3. split; [done|congruence].
    + right. split.
      * intros Hsub. assert (Hin : pretty (e_tokenId e) ∈ dom (tokens b)) by set_solver.
        apply elem_of_dom in Hin as [r Hin]. congruence.
      * destruct (reconcile_cached _ _ _ _ _ _ _ _ Hw1 Hce H) as [Hst' Hce'].
        exists c, p3. split; [done|].
        apply getOrCreateContractEntity_Returned in Hg as [Hc3 _].
        unfold contractState. by rewrite Hst', Hst, Hce', Hc3.
Qed.

(** X24.  The spelling of the addresses does not reach the store.  A
    batch and the same batch with every address in lowercase leave the
    same tables, the same cached contract and the same requests, although
    an address with an uppercase letter makes the loop create a second
    owner object for one identity. *)
Theorem address_spelling_does_not_reach_the_store world evs p p' p'' :
  saveENSData world evs p = (Returned tt, p') →
  saveENSData world (lowerAddresses <$> evs) p = (Returned tt, p'') →
  tables (store p') = tables (store p'')
  ∧ contractEntity p' = contractEntity p''
  ∧ requests p' = requests p''.
Proof.
  intros H H'.
  pose proof (saveENSData_tables _ _ _ _ H) as (Ho & Hout & _ & Hx & _).
  pose proof (saveENSData_tables _ _ _ _ H') as (Ho' & Hout' & _ & Hx' & _).
  pose proof (λ s, saveENSData_token_rows _ _ _ _ s H) as Hrow.
  pose proof (λ s, saveENSData_token_rows _ _ _ _ s H') as Hrow'.
  pose proof (saveENSData_resolved _ _ _ _ H) as Hres.
  pose proof (saveENSData_resolved _ _ _ _ H') as Hres'.
  rewrite ownersIds_lower in Ho'. rewrite batchTransferRows_lower in Hx'.
  rewrite tokensIds_lower in Hout'.
  assert (Hstate : contractState p' = contractState p''
                   ∧ requests p' = requests p'').
  { apply saveENSData_Returned in H as (b0 & p0 & b & q & H0 & Hl & Hp).
    apply saveENSData_Returned in H' as (b0' & p0' & b' & q' & H0' & Hl' & Hp').
    assert (E : prefetch (lowerAddresses <$> evs) p = prefetch evs p).
    { unfold prefetch. by rewrite tokensIds_lower, ownersIds_lower. }
    rewrite E, H0 in H0'. injection H0' as <- <-.
    destruct (prefetch_spec evs p) as (? & ? & E0 & Hw0 & _).
    rewrite H0 in E0. injection E0 as <- <-.
    destruct (persist_spec b q (reconcile_wf _ _ _ _ _ _ _ Hw0 Hl))
      as (? & E1 & Hg & Hb & _ & _ & _ & Hce & Hrq & _).
    rewrite Hp in E1. injection E1 as <-.
    destruct (persist_spec b' q' (reconcile_wf _ _ _ _ _ _ _ Hw0 Hl'))
      as (? & E1 & Hg' & Hb' & _ & _ & _ & Hce' & Hrq' & _).
    rewrite Hp' in E1. injection E1 as <-.
    split.
    - transitivity (contractState q); [unfold contractState; by rewrite Hg, Hb, Hce|].
      transitivity (contractState q'); [|unfold contractState; by rewrite Hg', Hb', Hce'].
      destruct (reconcile_contracts _ _ _ _ _ _ _ Hw0 Hl)
        as [(Hsub & Hs)|(Hsub & c & p3 & Hg3 & Hs)];
        destruct (reconcile_contracts _ _ _ _ _ _ _ Hw0 Hl')
          as [(Hsub' & Hs')|(Hsub' & c' & p3' & Hg3' & Hs')];
        rewrite tokensIds_lower in Hsub'; try done; [congruence|].
      rewrite Hg3 in Hg3'. injection Hg3' as <- <-. congruence.
    - rewrite Hrq, Hrq'.
      rewrite (reconcile_requests _ _ _ _ _ _ _ Hw0 Hl).
      rewrite (reconcile_requests _ _ _ _ _ _ _ Hw0 Hl').
      by rewrite batchRequests_lower. }
  destruct Hstate as [[= Hce Hg Hb] Hreq]. split_and!; [|done..].
  assert (Ht : tokenRows (store p') = tokenRows (store p'')); [|
    unfold tables; by rewrite Hg, Hb, Ho, Ho', Hx, Hx', Ht].
  apply map_eq. intros s. destruct (decide (s ∈ tokensIds evs)) as [Hin|Hnin].
  - specialize (Hrow s Hin). specialize (Hrow' s).
    rewrite tokensIds_lower, batchPatch_lower in Hrow'. specialize (Hrow' Hin).
    destruct (tokenRows (store p) !! s) as [old|]; [congruence|].
    destruct Hrow as (c & Hc & ->), Hrow' as (c' & Hc' & ->). congruence.
  - by rewrite Hout, Hout'.
Qed.

Lemma address_spelling_does_not_reach_the_store_witness :
  ∃ p' p'',
    saveENSData calmWorld checksummedBatch freshProcess = (Returned tt, p')
    ∧ saveENSData calmWorld (lowerAddresses <$> checksummedBatch) freshProcess
      = (Returned tt, p'')
    ∧ tables (store p') = tables (store p'')
    ∧ contractEntity p' = contractEntity p''
    ∧ requests p' = requests p''.
Proof.
  eexists _, _. split; [vm_compute; reflexivity|]. split; [vm_compute; reflexivity|].
  apply (address_spelling_does_not_reach_the_store calmWorld checksummedBatch
           freshProcess).
  - vm_compute. reflexivity.
  - vm_compute. reflexivity.
Defined.
